(** * qiita-search: the aggregation engine, its providers and the tokenizer

    A shallow embedding of [services/aggregator.ts] ([runSearch]),
    [services/providers/qiita.ts], [zenn.ts], [note.ts], [utils.ts] and
    [types.ts], followed by the properties of the specification that can be
    stated on it. *)

From Stdlib Require Import ZArith NArith List Lia String Ascii Sorted.
From stdpp Require Import base gmap list sets sorting.

Local Open Scope Z_scope.

(** ** JavaScript values *)

(** A JavaScript string is a sequence of UTF-16 code units. *)
Definition JsString := list N.

(** A literal, for the ASCII strings of the source. *)
Definition str (s : string) : JsString :=
  List.map N_of_ascii (list_ascii_of_string s).

(** The numbers the code computes with: an integer, or the [NaN] that
    [parseInt] answers when there is no digit to read.  Rounding above 2^53
    is not modelled. *)
Inductive JsNumber :=
  | NaN
  | Num (z : Z).

(** An error object with its [name] and [message], as is every value the
    repository throws or gets thrown at it by the platform ([Error],
    [TypeError], [URIError], [DOMException]). *)
Record Err := { name : JsString; message : JsString }.

(** [new DOMException('Aborted', 'AbortError')] *)
Definition AbortError : Err :=
  {| name := str "AbortError"; message := str "Aborted" |}.

(** What [encodeURIComponent] throws. *)
Definition URIError : Err :=
  {| name := str "URIError"; message := str "URI malformed" |}.

(** A value that is thrown, or that a promise is rejected with.  The engine
    treats a provider as a black box, so it can get any value: an error
    object; [null] or [undefined], whose [name] cannot be read; and, when it
    tries, the [TypeError] the platform raises for that read, an error object
    whose message is the platform's and is nowhere looked at.  A value of
    another kind (a string, say) has no name to compare and goes the way of
    an error object of some other name. *)
Inductive Reason :=
  | Obj (e : Err)
  | Nullish
  | TypeErrorOnName.

Coercion Obj : Err >-> Reason.

(** What the call of a function that answers a promise gives: a promise that
    resolves, a promise that rejects, or no promise at all, the call itself
    having thrown.  The call of an [async] function never throws. *)
Inductive Outcome (A : Type) :=
  | Resolved (a : A)
  | Rejected (r : Reason)
  | Threw (r : Reason).
Arguments Resolved {A} a.
Arguments Rejected {A} r.
Arguments Threw {A} r.

#[global] Instance Err_eq_dec : EqDecision Err.
Proof. solve_decision. Defined.
#[global] Instance Reason_eq_dec : EqDecision Reason.
Proof. solve_decision. Defined.

(** Reading [err.name] in a [catch] handler: it throws on [null] and
    [undefined]. *)
Definition reads_name (r : Reason) : bool :=
  match r with
  | Nullish => false
  | Obj _ | TypeErrorOnName => true
  end.


(** ** Characters *)

(** WhiteSpace and LineTerminator of ECMAScript: what [\s] matches, and what
    [trim] and [parseInt] strip. *)
Definition is_ws (c : N) : bool :=
  ((9 <=? c) && (c <=? 13) || (c =? 32) || (c =? 160) || (c =? 5760)
   || (8192 <=? c) && (c <=? 8202) || (c =? 8232) || (c =? 8233)
   || (c =? 8239) || (c =? 8287) || (c =? 12288) || (c =? 65279))%N.

(** The class [[\s&]] of the tokenizer's separator. *)
Definition is_sep (c : N) : bool := is_ws c || (c =? 38)%N.

Definition is_digit (c : N) : bool := ((48 <=? c) && (c <=? 57))%N.

Fixpoint take_while {A} (p : A -> bool) (l : list A) : list A :=
  match l with
  | x :: r => if p x then x :: take_while p r else []
  | [] => []
  end.

Fixpoint drop_while {A} (p : A -> bool) (l : list A) : list A :=
  match l with
  | x :: r => if p x then drop_while p r else l
  | [] => []
  end.

(** [s.trim()] *)
Definition trim (s : JsString) : JsString :=
  rev (drop_while is_ws (rev (drop_while is_ws s))).

(** ** utils.ts: tokenize *)

(** [input.split(/[\s&]+/)]: the pieces between the maximal runs of
    separators.  [in_run] says that the previous code unit was a separator,
    [cur] is the piece being read.  A run at the start gives a leading empty
    piece, a run at the end a trailing one, and the empty input gives the one
    empty piece. *)
Fixpoint split_run (in_run : bool) (cur : JsString) (s : JsString)
  : list JsString :=
  match s with
  | [] => [cur]
  | c :: rest =>
      if is_sep c then
        if in_run then split_run true cur rest
        else cur :: split_run true [] rest
      else split_run false (cur ++ [c]) rest
  end.

Definition split_seps (input : JsString) : list JsString :=
  split_run false [] input.

(** [Boolean(s)] for a string: it is not empty. *)
Definition truthy_str (s : JsString) : bool :=
  match s with [] => false | _ => true end.

Definition tokenize (input : JsString) : list JsString :=
  List.filter truthy_str (List.map trim (split_seps input)).

(** [parseInt(s, 10)]: leading white space is skipped, a sign is read, then
    the longest run of decimal digits; no digit gives [NaN]. *)
Definition digit_val (c : N) : Z := Z.of_N c - 48.

Definition digits_value (ds : JsString) : Z :=
  fold_left (fun acc c => 10 * acc + digit_val c) ds 0.

Definition parseInt10 (s : JsString) : JsNumber :=
  let s1 := drop_while is_ws s in
  let '(sign, s2) :=
    match s1 with
    | c :: r =>
        if (c =? 45)%N then (-1, r)
        else if (c =? 43)%N then (1, r)
        else (1, s1)
    | [] => (1, s1)
    end in
  match take_while is_digit s2 with
  | [] => NaN
  | ds => Num (sign * digits_value ds)
  end.

(** [!n] for a [number | undefined]: undefined, [0] and [NaN] are falsy. *)
Definition falsy_num (n : option JsNumber) : bool :=
  match n with
  | None | Some NaN | Some (Num 0) => true
  | Some (Num _) => false
  end.

(** [s || undefined] and [!s] for a [string | undefined]: the empty string
    counts as absent. *)
Definition truthy_opt (s : option JsString) : option JsString :=
  match s with
  | Some (c :: r) => Some (c :: r)
  | _ => None
  end.

(** [arr.slice(0, end)]: a negative [end] counts from the end of the array. *)
Definition slice0 {A} (end_ : Z) (l : list A) : list A :=
  let len := Z.of_nat (length l) in
  let k := if end_ <? 0 then Z.max (len + end_) 0 else Z.min end_ len in
  take (Z.to_nat k) l.

(** [Math.ceil(a / b)] on integers, for a positive [b]. *)
Definition ceil_div (a b : Z) : Z := - ((- a) / b).

(** [s.isWellFormed()]: no surrogate code unit stands alone.
    [encodeURIComponent(s)] throws a [URIError] exactly when this fails. *)
Definition is_high_surrogate (c : N) : bool :=
  ((55296 <=? c) && (c <=? 56319))%N.
Definition is_low_surrogate (c : N) : bool :=
  ((56320 <=? c) && (c <=? 57343))%N.

Fixpoint isWellFormed (s : JsString) : bool :=
  match s with
  | [] => true
  | c :: rest =>
      if is_high_surrogate c then
        match rest with
        | d :: rest' => is_low_surrogate d && isWellFormed rest'
        | [] => false
        end
      else negb (is_low_surrogate c) && isWellFormed rest
  end.

(** [tokens.join(' ')] *)
Fixpoint join_sp (tokens : list JsString) : JsString :=
  match tokens with
  | [] => []
  | [t] => t
  | t :: rest => t ++ 32%N :: join_sp rest
  end.

(** [AbortSignal].  [Some t]: the signal is triggered at instant [t] of the
    clock of the component that reads it; [None]: it never is.  A signal that
    has fired stays fired. *)
Definition AbortSignal := option nat.

(** [signal.aborted], read at instant [t]. *)
Definition aborted (signal : AbortSignal) (t : nat) : bool :=
  match signal with
  | Some k => (k <=? t)%nat
  | None => false
  end.

(** What a [fetch] and the reading of its body give.  [B] is the body as the
    code looks at it. *)
Inductive Response (B : Type) :=
  | Throws (e : Err)
  | NotOk (status : Z)
  | BodyThrows (e : Err)
  | Body (b : B).
Arguments Throws {B} e.
Arguments NotOk {B} status.
Arguments BodyThrows {B} e.
Arguments Body {B} b.

(** ** types.ts *)

(** An object of the Qiita items API, with the fields the code reads; it is
    the only thing the repository ever puts in [raw]. *)
Record ApiItem := {
  api_url : JsString;
  api_title : option JsString;
  created_at : option JsString;
  likes_count : option JsNumber;
}.

Record FoundItem := {
  url : JsString;
  source : JsString;
  title : option JsString;
  snippet : option JsString;
  rank : option Z;
  raw : option ApiItem;
}.

(** [FoundItem & { publishedAt?, likeCount?, viewCount? }].  A field that is
    [undefined] and a field that is missing are the same [None]. *)
Record EnrichedItem := {
  found : FoundItem;
  publishedAt : option JsString;
  likeCount : option JsNumber;
  viewCount : option JsNumber;
}.

(** A [FoundItem] used where an [EnrichedItem] is expected ([return items],
    [return { ...item }]): no metadata field. *)
Definition unenriched (item : FoundItem) : EnrichedItem :=
  {| found := item; publishedAt := None; likeCount := None;
     viewCount := None |}.

Record ProviderOptions := {
  po_tokens : list JsString;
  maxDiscover : Z;
}.

(** The [Provider] interface.  A value of this type is a provider as it
    behaves in the run at hand, so what it sees of the network and of the
    signal during its own awaits is part of it, and each method is given by
    what its call gives: the way its promise settles, or what the call threw
    before there was a promise (a method that is no [async] function can). *)
Record Provider := {
  id : JsString;
  displayName : JsString;
  search : ProviderOptions -> Outcome (list FoundItem);
  enrich : list FoundItem -> Outcome (list EnrichedItem);
}.

#[global] Instance JsNumber_eq_dec : EqDecision JsNumber.
Proof. solve_decision. Defined.
#[global] Instance ApiItem_eq_dec : EqDecision ApiItem.
Proof. solve_decision. Defined.
#[global] Instance FoundItem_eq_dec : EqDecision FoundItem.
Proof. solve_decision. Defined.
#[global] Instance EnrichedItem_eq_dec : EqDecision EnrichedItem.
Proof. solve_decision. Defined.

(** ** services/aggregator.ts: runSearch *)

Record RunOptions := {
  tokens : list JsString;
  providers : list Provider;
  maxTotal : Z;
  signal : AbortSignal;
}.

(** The two values the search callbacks share: the array [discovered] and
    the set [seenUrls]. *)
Record Pool := {
  discovered : list FoundItem;
  seenUrls : gset JsString;
}.

Definition empty_pool : Pool := {| discovered := []; seenUrls := ∅ |}.

(** [Math.ceil(maxTotal / Math.max(1, providers.length))] *)
Definition perProviderTarget (maxTotal : Z) (providers : list Provider) : Z :=
  ceil_div maxTotal (Z.max 1 (Z.of_nat (length providers))).

(** The body of [.then(items => { for (const item of items) ... })].  It runs
    without an await, so [signal.aborted] has one value, [stop], throughout. *)
Fixpoint merge_items (stop : bool) (items : list FoundItem) (pool : Pool)
  : Pool :=
  match items with
  | [] => pool
  | item :: rest =>
      if stop then pool
      else if bool_decide (url item ∈ seenUrls pool)
      then merge_items stop rest pool
      else merge_items stop rest
             {| discovered := discovered pool ++ [item];
                seenUrls := {[url item]} ∪ seenUrls pool |}
  end.

(** [{ tokens, maxDiscover: perProviderTarget }] *)
Definition search_options (opts : RunOptions) : ProviderOptions :=
  {| po_tokens := tokens opts;
     maxDiscover := perProviderTarget (maxTotal opts) (providers opts) |}.

(** The calls [p.search(..., signal)] of [providers.map], one per provider
    and in their order. *)
Definition searchCalls (opts : RunOptions)
  : list (Outcome (list FoundItem)) :=
  List.map (fun p => search p (search_options opts)) (providers opts).

(** [arr.map(x => f(x)...)] for calls that may throw: what the first call
    that throws threw.  It ends the [map], and the function around it. *)
Fixpoint thrown_first {A} (calls : list (Outcome A)) : option Reason :=
  match calls with
  | [] => None
  | Threw r :: _ => Some r
  | _ :: rest => thrown_first rest
  end.

(** The promises there are once the [map] is left: those of the calls
    before the first one that throws.  That call gives none, and the calls
    after it are not made. *)
Fixpoint calls_made {A} (calls : list (Outcome A)) : list (Outcome A) :=
  match calls with
  | [] => []
  | Threw _ :: _ => []
  | c :: rest => c :: calls_made rest
  end.

(** [await Promise.all(promises)] rejects with the reason of the promise
    that rejects first; [order] is the order in which the promises settle. *)
Fixpoint rejected_first {A} (promises : list (Outcome A)) (order : list nat)
  : option Reason :=
  match order with
  | [] => None
  | i :: rest =>
      match promises !! i with
      | Some (Rejected r) => Some r
      | _ => rejected_first promises rest
      end
  end.

(** The values [await Promise.all(promises)] gives when no promise
    rejects. *)
Definition resolved_values {A} (promises : list (Outcome A)) : list A :=
  omap (fun c => match c with Resolved a => Some a | _ => None end) promises.

(** The promise [p.search(...).then(...).catch(...)].  The [.then] handler
    does not throw; the [.catch] handler reads [err.name] to decide whether
    to call [console.error] (which is not modelled) and swallows the error,
    unless that read throws. *)
Definition search_promise (call : Outcome (list FoundItem)) : Outcome unit :=
  match call with
  | Resolved _ => Resolved tt
  | Rejected r => if reads_name r then Resolved tt else Rejected TypeErrorOnName
  | Threw r => Threw r
  end.

(** What the search promise of a call does to the two shared values when it
    settles, at instant [t]: its [.then] merges the items; a rejection
    leaves them as they are. *)
Definition settle_search (opts : RunOptions) (t : nat)
    (call : Outcome (list FoundItem)) (pool : Pool) : Pool :=
  match call with
  | Resolved items => merge_items (aborted (signal opts) t) items pool
  | Rejected _ | Threw _ => pool
  end.

(** The search promises settle in the order [settled] (indices in
    [providers]), the first one at instant [t]. *)
Fixpoint settle_all (opts : RunOptions) (settled : list nat) (t : nat)
    (pool : Pool) : Pool :=
  match settled with
  | [] => pool
  | i :: rest =>
      let pool' :=
        match calls_made (searchCalls opts) !! i with
        | Some call => settle_search opts t call pool
        | None => pool
        end in
      settle_all opts rest (S t) pool'
  end.

(** The instants of the engine's clock: [0] on entry, [1 .. n] for the [n]
    search promises as they settle, [n + 1] once [Promise.all] of the searches
    is through, [n + 2] once [Promise.all] of the enrichments is. *)
Definition t_discovered (opts : RunOptions) : nat :=
  S (length (providers opts)).
Definition t_enriched (opts : RunOptions) : nat :=
  S (S (length (providers opts))).

(** Step 1: the pool when every search promise has settled. *)
Definition discover (opts : RunOptions) (settled : list nat) : Pool :=
  settle_all opts settled 1%nat empty_pool.

(** [providers.find(p => p.id === item.source)], with the position of the
    provider found: [find] answers the first match, so the position stands for
    the object that keys the [Map]. *)
Definition find_provider (ps : list Provider) (src : JsString)
  : option (nat * Provider) :=
  list_find (fun p => id p = src) ps.

(** [Map<Provider, FoundItem[]>], in insertion order. *)
Definition Groups := list (nat * (Provider * list FoundItem)).

(** [has] / [set(provider, [])] / [get(provider).push(item)] *)
Fixpoint group_push (k : nat) (p : Provider) (item : FoundItem) (g : Groups)
  : Groups :=
  match g with
  | [] => [(k, (p, [item]))]
  | (k', (p', items)) :: rest =>
      if decide (k = k') then (k', (p', items ++ [item])) :: rest
      else (k', (p', items)) :: group_push k p item rest
  end.

Definition itemsToEnrichByProvider (ps : list Provider)
    (pool : list FoundItem) : Groups :=
  fold_left
    (fun g item =>
       match find_provider ps (source item) with
       | Some (k, p) => group_push k p item g
       | None => g
       end)
    pool [].

(** The promise [provider.enrich(items, signal).catch(err => { ...;
    return items })] of an entry of the map.  The handler reads [err.name]
    before it returns the items. *)
Definition enrich_group (entry : nat * (Provider * list FoundItem))
  : Outcome (list EnrichedItem) :=
  let '(_, (provider, items)) := entry in
  match enrich provider items with
  | Resolved out => Resolved out
  | Rejected r =>
      if reads_name r then Resolved (List.map unenriched items)
      else Rejected TypeErrorOnName
  | Threw r => Threw r
  end.

(** The engine, for a run in which the search promises settle in the order
    [settled].  The order in which the enrichment promises settle is not
    part of the run: such a promise can only reject with the one
    [TypeError], so [Promise.all] rejects with it whichever comes first. *)
Definition runSearch (opts : RunOptions) (settled : list nat)
  : Outcome (list EnrichedItem) :=
  if aborted (signal opts) 0 then Rejected AbortError
  else
    let searchPromises := List.map search_promise (searchCalls opts) in
    match thrown_first searchPromises with
    | Some r => Rejected r
    | None =>
    match rejected_first searchPromises settled with
    | Some r => Rejected r
    | None =>
        let pool := discover opts settled in
        if aborted (signal opts) (t_discovered opts) then Rejected AbortError
        else
          let groups :=
            itemsToEnrichByProvider (providers opts) (discovered pool) in
          let enrichPromises := List.map enrich_group groups in
          match thrown_first enrichPromises with
          | Some r => Rejected r
          | None =>
          match rejected_first enrichPromises (seq 0 (length groups)) with
          | Some r => Rejected r
          | None =>
              let enriched := concat (resolved_values enrichPromises) in
              if aborted (signal opts) (t_enriched opts)
              then Rejected AbortError
              else Resolved (slice0 (maxTotal opts) enriched)
          end
          end
    end
    end.

(** The chunk an entry of the map stands for in [enrichedChunks]: what its
    promise resolves with.  An entry whose promise does not resolve ends the
    run before there are chunks; it counts here with its items as they
    are. *)
Definition chunk (entry : nat * (Provider * list FoundItem))
  : list EnrichedItem :=
  match enrich_group entry with
  | Resolved out => out
  | Rejected _ | Threw _ => List.map unenriched (snd (snd entry))
  end.

Definition enrichedChunks (g : Groups) : list (list EnrichedItem) :=
  List.map chunk g.

(** The value of [enriched] before the last check and the truncation, in a
    run that gets there. *)
Definition enrichedFlat (opts : RunOptions) (settled : list nat)
  : list EnrichedItem :=
  concat
    (enrichedChunks
       (itemsToEnrichByProvider (providers opts)
          (discovered (discover opts settled)))).

(** ** services/providers/qiita.ts *)

(** The URL of a page fetch, by its three parameters; [req_query] stands for
    [encodeURIComponent(tokens.join(' '))]. *)
Record Request := {
  req_query : JsString;
  req_page : Z;
  req_per_page : Z;
}.

(** [res.json()]: an array of API objects, or something else. *)
Inductive JsonBody :=
  | NotArray
  | Items (data : list ApiItem).

(** The remote API in the run at hand: what the fetch of each request
    gives.  A fetch that fails on the network, or that the signal cuts, is a
    [Throws]. *)
Definition Api := Request -> Response JsonBody.

Definition perPage : Z := 100.

(** The object pushed for the item at index [idx] of page [page]. *)
Definition qiita_item (page idx : Z) (item : ApiItem) : FoundItem :=
  {| url := api_url item;
     source := str "qiita";
     title := api_title item;
     snippet := None;
     rank := Some ((page - 1) * perPage + idx + 1);
     raw := Some item |}.

(** [data.forEach((item, idx) => { if (foundItems.length < maxDiscover)
    foundItems.push(...) })], from index [idx] on. *)
Fixpoint push_items (maxDiscover page idx : Z) (data : list ApiItem)
    (foundItems : list FoundItem) : list FoundItem :=
  match data with
  | [] => foundItems
  | item :: rest =>
      push_items maxDiscover page (idx + 1) rest
        (if Z.of_nat (length foundItems) <? maxDiscover
         then foundItems ++ [qiita_item page idx item]
         else foundItems)
  end.

(** The provider's clock: the loop test before fetching page [p] is instant
    [2 (p - 1)], the politeness delay after page [p] is instant
    [2 (p - 1) + 1]. *)
Definition t_loop (page : Z) : nat := (2 * Z.to_nat (page - 1))%nat.
Definition t_delay (page : Z) : nat := S (2 * Z.to_nat (page - 1)).

(** The [while] loop of [search].  The result is [foundItems] at the exit
    and the requests issued, oldest first; [None] when [fuel] iterations did
    not reach the exit. *)
Fixpoint search_pages (fuel : nat) (api : Api) (signal : AbortSignal)
    (q : JsString) (maxDiscover maxPages : Z) (page : Z)
    (foundItems : list FoundItem) (fetched : list Request)
  : option (list FoundItem * list Request) :=
  if (Z.of_nat (length foundItems) <? maxDiscover) && (page <=? maxPages)
     && negb (aborted signal (t_loop page))
  then
    match fuel with
    | O => None
    | S fuel' =>
        let req :=
          {| req_query := q; req_page := page; req_per_page := perPage |} in
        let fetched' := fetched ++ [req] in
        match api req with
        | Throws _ | NotOk _ | BodyThrows _ => Some (foundItems, fetched')
        | Body NotArray | Body (Items []) => Some (foundItems, fetched')
        | Body (Items data) =>
            let foundItems' :=
              push_items maxDiscover page 0 data foundItems in
            if (Z.of_nat (length foundItems') <? maxDiscover)
               && (0 <? Z.of_nat (length data)) && (page + 1 <=? maxPages)
               && aborted signal (t_delay page)
            then Some (foundItems', fetched')
            else search_pages fuel' api signal q maxDiscover maxPages
                   (page + 1) foundItems' fetched'
        end
    end
  else Some (foundItems, fetched).

(** [qiitaProvider.search]: the way its promise settles and the page
    requests issued.  [encodeURIComponent] is called before the [try]: when
    it throws, the promise rejects and no page has been asked for.  A
    request is named by the query text before encoding. *)
Definition qiitaProvider_search (api : Api) (signal : AbortSignal)
    (opts : ProviderOptions)
  : option (Outcome (list FoundItem) * list Request) :=
  let q := join_sp (po_tokens opts) in
  if isWellFormed q then
    let maxPages := ceil_div (maxDiscover opts) perPage in
    match search_pages (Z.to_nat maxPages) api signal q (maxDiscover opts)
            maxPages 1 [] [] with
    | Some (foundItems, fetched) =>
        Some (Resolved (slice0 (maxDiscover opts) foundItems), fetched)
    | None => None
    end
  else Some (Rejected URIError, []).

(** [items.map(f)] in an [async] function, for a callback that may throw:
    what is thrown rejects the promise. *)
Fixpoint map_throwing {A B} (f : A -> Outcome B) (l : list A)
  : Outcome (list B) :=
  match l with
  | [] => Resolved []
  | x :: rest =>
      match f x with
      | Rejected e | Threw e => Rejected e
      | Resolved y =>
          match map_throwing f rest with
          | Rejected e | Threw e => Rejected e
          | Resolved ys => Resolved (y :: ys)
          end
      end
  end.

(** [qiitaProvider.enrich]: no await, so one reading of the signal. *)
Definition qiitaProvider_enrich (signal : AbortSignal)
    (items : list FoundItem) : Outcome (list EnrichedItem) :=
  map_throwing
    (fun item =>
       if aborted signal 0 then Rejected AbortError
       else Resolved
              {| found := item;
                 publishedAt := r ← raw item; created_at r;
                 likeCount := r ← raw item; likes_count r;
                 viewCount := None |})
    items.

(** ** services/providers/zenn.ts *)

(** An entry of [ld.interactionStatistic].  [interactionType] is [None] when
    [stat.interactionType.includes] throws (the field is missing or has no
    such method); [userInteractionCount] is the field as [parseInt] converts
    it to a string. *)
Record LdStat := {
  interactionType : option JsString;
  userInteractionCount : JsString;
}.

(** [ld.interactionStatistic]: falsy, or a value whose [find] throws, or an
    array of entries. *)
Inductive LdStats :=
  | StatsAbsent
  | StatsThrows
  | StatsList (stats : list LdStat).

Record LdJson := {
  datePublished : option JsString;
  dateCreated : option JsString;
  interactionStatistic : LdStats;
}.

(** [JSON.parse(ldJsonScript.textContent)] and the first field access: they
    throw, or give an object. *)
Inductive LdParse :=
  | LdThrows
  | LdValue (ld : LdJson).

(** The document, by the answers to the queries the code makes. *)
Record ZennDoc := {
  ldJson : option LdParse;
  zenn_time : option JsString;
  likeSpanText : option JsString;
}.

(** [hay.includes(needle)] *)
Fixpoint starts_with (needle hay : JsString) : bool :=
  match needle, hay with
  | [], _ => true
  | c :: n', d :: h' => (c =? d)%N && starts_with n' h'
  | _ :: _, [] => false
  end.

Fixpoint includes (needle hay : JsString) : bool :=
  starts_with needle hay ||
  match hay with
  | [] => false
  | _ :: h' => includes needle h'
  end.

(** [stats.find(stat => stat.interactionType.includes('LikeAction'))]:
    [None] when the callback throws before an entry is found. *)
Fixpoint find_like (stats : list LdStat) : option (option LdStat) :=
  match stats with
  | [] => Some None
  | stat :: rest =>
      match interactionType stat with
      | None => None
      | Some ty =>
          if includes (str "LikeAction") ty then Some (Some stat)
          else find_like rest
      end
  end.

(** Approach 1, the inner [try]: the values of [publishedAt] and [likeCount]
    when it is left, normally or through its [catch]. *)
Definition zenn_ld (doc : ZennDoc)
  : option JsString * option JsNumber :=
  match ldJson doc with
  | None | Some LdThrows => (None, None)
  | Some (LdValue ld) =>
      let publishedAt :=
        match truthy_opt (datePublished ld) with
        | Some d => Some d
        | None => dateCreated ld
        end in
      match interactionStatistic ld with
      | StatsAbsent | StatsThrows => (publishedAt, None)
      | StatsList stats =>
          match find_like stats with
          | Some (Some likeInteraction) =>
              (publishedAt,
               Some (parseInt10 (userInteractionCount likeInteraction)))
          | Some None | None => (publishedAt, None)
          end
      end
  end.

(** The pages of the site in the run at hand, by URL; a fetch that the
    signal cuts is a [Throws]. *)
Definition Web (D : Type) := JsString -> Response D.

Definition enrichZennItem (web : Web ZennDoc) (item : FoundItem)
  : EnrichedItem :=
  match web (url item) with
  | Throws _ | BodyThrows _ | NotOk _ => unenriched item
  | Body doc =>
      let '(publishedAt, likeCount) := zenn_ld doc in
      let publishedAt :=
        match truthy_opt publishedAt with
        | Some d => Some d
        | None => truthy_opt (zenn_time doc)
        end in
      let likeCount :=
        if falsy_num likeCount then
          match truthy_opt (likeSpanText doc) with
          | Some likeCountText => Some (parseInt10 likeCountText)
          | None => likeCount
          end
        else likeCount in
      {| found := item; publishedAt := publishedAt; likeCount := likeCount;
         viewCount := None |}
  end.

(** The [for] loop of [zennProvider.enrich] and of [noteProvider.enrich],
    which differ in the per-item function only.  On the provider's clock the
    test before item [k] is instant [2 k] and the delay after it instant
    [2 k + 1]; the delay rejects when the signal has fired by then. *)
Fixpoint enrich_loop (enrichItem : FoundItem -> EnrichedItem)
    (signal : AbortSignal) (k : nat) (items : list FoundItem)
    (enrichedItems : list EnrichedItem) : Outcome (list EnrichedItem) :=
  match items with
  | [] => Resolved enrichedItems
  | item :: rest =>
      if aborted signal (2 * k) then Rejected AbortError
      else
        let enrichedItems' := enrichedItems ++ [enrichItem item] in
        if aborted signal (S (2 * k)) then Rejected AbortError
        else enrich_loop enrichItem signal (S k) rest enrichedItems'
  end.

Definition zennProvider_enrich (web : Web ZennDoc) (signal : AbortSignal)
    (items : list FoundItem) : Outcome (list EnrichedItem) :=
  enrich_loop (enrichZennItem web) signal 0 items [].

(** ** services/providers/note.ts *)

Record NoteDoc := {
  note_time : option JsString;
  bodyText : JsString;
}.

Definition is_count_char (c : N) : bool := is_digit c || (c =? 44)%N.

(** [bodyText.match(/スキ\s*([0-9,]+)/)], answering group 1 of the leftmost
    match.  The two letters are U+30B9 and U+30AD. *)
Fixpoint match_suki (text : JsString) : option JsString :=
  match text with
  | [] => None
  | c :: rest =>
      let here :=
        match rest with
        | c' :: after =>
            if (c =? 12473)%N && (c' =? 12461)%N then
              match take_while is_count_char (drop_while is_ws after) with
              | [] => None
              | group => Some group
              end
            else None
        | [] => None
        end in
      match here with
      | Some group => Some group
      | None => match_suki rest
      end
  end.

Definition enrichNoteItem (web : Web NoteDoc) (item : FoundItem)
  : EnrichedItem :=
  match web (url item) with
  | Throws _ | BodyThrows _ | NotOk _ => unenriched item
  | Body doc =>
      let publishedAt := truthy_opt (note_time doc) in
      let likeCount :=
        match match_suki (bodyText doc) with
        | Some group =>
            Some (parseInt10 (List.filter (fun c => negb (c =? 44)%N) group))
        | None => None
        end in
      {| found := item; publishedAt := publishedAt; likeCount := likeCount;
         viewCount := None |}
  end.

Definition noteProvider_enrich (web : Web NoteDoc) (signal : AbortSignal)
    (items : list FoundItem) : Outcome (list EnrichedItem) :=
  enrich_loop (enrichNoteItem web) signal 0 items [].

(** The Qiita provider of a run, as the engine sees it. *)
Definition qiitaProvider (api : Api) (searchSignal enrichSignal : AbortSignal)
  : Provider :=
  {| id := str "qiita";
     displayName := str "Qiita";
     search := fun opts =>
       match qiitaProvider_search api searchSignal opts with
       | Some (found_, _) => found_
       | None => Resolved []
       end;
     enrich := qiitaProvider_enrich enrichSignal |}.

(** ** Predicates used in the statements *)

(** No code unit of [s] is a separator of the tokenizer. *)
Definition sep_free (s : JsString) : Prop :=
  Forall (fun c => is_sep c = false) s.

(** What the search of the provider at index [i] brings into the run: its
    items when its promise resolves, nothing when it rejects or when there
    is no promise. *)
Definition contribution (opts : RunOptions) (i : nat) : list FoundItem :=
  match calls_made (searchCalls opts) !! i with
  | Some (Resolved items) => items
  | _ => []
  end.

(** The discovery results of a run, in the order they come in. *)
Definition arrivals (opts : RunOptions) (settled : list nat)
  : list FoundItem :=
  concat (List.map (contribution opts) settled).

(** The first item of [l] whose URL is [u]. *)
Definition first_with_url (u : JsString) (l : list FoundItem)
  : option FoundItem :=
  List.find (fun x => bool_decide (url x = u)) l.

(** The part of the [enrich] contract the engine's output relies on: a
    resolved enrichment has the URLs of its input, in the same order. *)
Definition keeps_urls (p : Provider) : Prop :=
  forall items out,
    enrich p items = Resolved out ->
    List.map (fun e => url (found e)) out = List.map url items.

(** The URL an enriched item carries. *)
Definition url_of (e : EnrichedItem) : JsString := url (found e).

(** The position of the provider an item is grouped under, if any. *)
Definition key_of (ps : list Provider) (item : FoundItem) : option nat :=
  fst <$> find_provider ps (source item).

(** The provider [p] with a search that finds nothing. *)
Definition silenced (p : Provider) : Provider :=
  {| id := id p; displayName := displayName p;
     search := fun _ => Resolved []; enrich := enrich p |}.

(** The invariant of the two shared values: [seenUrls] is the set of the URLs
    in [discovered], and these are pairwise distinct. *)
Definition pool_ok (pool : Pool) : Prop :=
  (forall u, u ∈ seenUrls pool <-> In u (List.map url (discovered pool)))
  /\ NoDup (List.map url (discovered pool)).

(** [pool] is what is kept of the items [arr] that came in so far: every URL
    that came in is in it, under the first item that carried it, and the
    items kept are in the order they came in. *)
Definition pool_of (pool : Pool) (arr : list FoundItem) : Prop :=
  pool_ok pool
  /\ (forall x, In x arr -> url x ∈ seenUrls pool)
  /\ (forall y, In y (discovered pool) ->
        first_with_url (url y) arr = Some y)
  /\ discovered pool `sublist_of` arr.

(** An entry of the map that groups [pool]: the provider at position [k],
    with the items of [pool] grouped under it, in the order of [pool]; there
    is at least one. *)
Definition entry_of (ps : list Provider) (pool : list FoundItem)
    (entry : nat * (Provider * list FoundItem)) : Prop :=
  let '(k, (p, items)) := entry in
  ps !! k = Some p
  /\ items <> []
  /\ items = List.filter (fun f => bool_decide (key_of ps f = Some k)) pool.

(** The same run with other providers. *)
Definition with_providers (opts : RunOptions) (ps : list Provider)
  : RunOptions :=
  {| tokens := tokens opts; providers := ps; maxTotal := maxTotal opts;
     signal := signal opts |}.

(** The same run with another signal. *)
Definition with_signal (opts : RunOptions) (s : AbortSignal) : RunOptions :=
  {| tokens := tokens opts; providers := providers opts;
     maxTotal := maxTotal opts; signal := s |}.

(** A provider that keeps to promises: no call of a method throws, and no
    promise is rejected with [null] or [undefined].  The methods of the
    three providers of the repository are [async] functions that throw error
    objects only: they are of this kind. *)
Definition well_behaved (p : Provider) : Prop :=
  (forall o r, search p o <> Threw r)
  /\ (forall o, search p o <> Rejected Nullish)
  /\ (forall items r, enrich p items <> Threw r)
  /\ (forall items, enrich p items <> Rejected Nullish).

(** Two providers the grouping and the enrichment cannot tell apart. *)
Definition same_face (p p' : Provider) : Prop :=
  id p = id p' /\ enrich p = enrich p'.

Definition same_entry (e e' : nat * (Provider * list FoundItem)) : Prop :=
  fst e = fst e' /\ same_face (fst (snd e)) (fst (snd e'))
  /\ snd (snd e) = snd (snd e').

(** ** Runs used as examples *)

Definition item_of (u src : string) : FoundItem :=
  {| url := str u; source := str src; title := None; snippet := None;
     rank := None; raw := None |}.

Definition provider_of (name : string) (found_ : Outcome (list FoundItem))
    (enriched : list FoundItem -> Outcome (list EnrichedItem)) : Provider :=
  {| id := str name; displayName := str name; search := fun _ => found_;
     enrich := enriched |}.

(** An enrichment that adds nothing, and one that fails. *)
Definition plain : list FoundItem -> Outcome (list EnrichedItem) :=
  fun items => Resolved (List.map unenriched items).

Definition network_error : Err :=
  {| name := str "TypeError"; message := str "Failed to fetch" |}.




(** The scenario of the specification: two providers, one finds u1 and u2,
    the other u2 and u3. *)
Definition two_providers : RunOptions :=
  {| tokens := [str "rocq"];
     providers :=
       [provider_of "A" (Resolved [item_of "u1" "A"; item_of "u2" "A"]) plain;
        provider_of "B" (Resolved [item_of "u2" "B"; item_of "u3" "B"]) plain];
     maxTotal := 10;
     signal := None |}.

(** The same, but the search of B fails. *)
Definition B_search_fails : RunOptions :=
  {| tokens := [str "rocq"];
     providers :=
       [provider_of "A" (Resolved [item_of "u1" "A"; item_of "u2" "A"]) plain;
        provider_of "B" (Rejected network_error) plain];
     maxTotal := 10;
     signal := None |}.






(** ** The page fetches of the Qiita search, as the statements name them *)

(** The request for page [p] of the query [q]. *)
Definition page_request (q : JsString) (p : nat) : Request :=
  {| req_query := q; req_page := Z.of_nat p; req_per_page := perPage |}.

(** The items the API answers for page [p]: those of the array, none when
    the fetch fails or the body is not an array. *)
Definition page_items (api : Api) (q : JsString) (p : nat) : list ApiItem :=
  match api (page_request q p) with
  | Body (Items data) => data
  | _ => []
  end.

(** The objects made of the items of a page, from index [idx] on. *)
Fixpoint page_entries (page idx : Z) (data : list ApiItem)
  : list FoundItem :=
  match data with
  | [] => []
  | item :: rest => qiita_item page idx item :: page_entries page (idx + 1) rest
  end.

(** The objects made of the pages [1 .. n], in order. *)
Definition found_upto (api : Api) (q : JsString) (n : nat)
  : list FoundItem :=
  concat
    (List.map (fun p => page_entries (Z.of_nat p) 0 (page_items api q p))
       (seq 1 n)).

(** Why the loop is left after [k] page fetches, the first [n] of which are
    not in question: its test fails before page [k + 1] (the count is
    reached, the page cap is exhausted or the signal has fired), or page
    [k] brought nothing (no item, or a failure), or the signal fired during
    the delay after page [k]. *)
Definition stop_reason (api : Api) (signal : AbortSignal) (q : JsString)
    (maxDiscover maxPages : Z) (n k : nat) : Prop :=
  (maxDiscover <= Z.of_nat (length (found_upto api q k))
   \/ maxPages <= Z.of_nat k
   \/ aborted signal (t_loop (Z.of_nat (S k))) = true)
  \/ ((n < k)%nat /\ page_items api q k = [])
  \/ ((n < k)%nat /\ aborted signal (t_delay (Z.of_nat k)) = true).

(** An API whose every page holds 100 copies of one item. *)
Definition sample_item : ApiItem :=
  {| api_url := str "https://qiita.com/a/items/1";
     api_title := Some (str "t");
     created_at := Some (str "2024-01-01T00:00:00+09:00");
     likes_count := Some (Num 42) |}.

Definition full_pages : Api :=
  fun _ => Body (Items (repeat sample_item 100)).

Definition ask (n : Z) : ProviderOptions :=
  {| po_tokens := [str "rocq"; str "proof"]; maxDiscover := n |}.

(** Pages used as examples.  A Zenn page without structured data whose like
    button shows no digit, one whose like button shows a negative number, the
    page of the specification's scenario, and a Note page whose text has a
    comma after the marker. *)
Definition zenn_no_digit : ZennDoc :=
  {| ldJson := None; zenn_time := None; likeSpanText := Some (str "Like") |}.

Definition zenn_negative : ZennDoc :=
  {| ldJson := None; zenn_time := None; likeSpanText := Some (str "-5") |}.

Definition zenn_structured : ZennDoc :=
  {| ldJson :=
       Some (LdValue
               {| datePublished := Some (str "2024-01-01T00:00:00Z");
                  dateCreated := None;
                  interactionStatistic :=
                    StatsList
                      [{| interactionType :=
                            Some (str "https://schema.org/CommentAction");
                          userInteractionCount := str "3" |};
                       {| interactionType :=
                            Some (str "https://schema.org/LikeAction");
                          userInteractionCount := str "42" |}] |});
     zenn_time := None;
     likeSpanText := None |}.

Definition note_commas : NoteDoc :=
  {| note_time := None;
     bodyText := str "abc " ++ [12473%N; 12461%N] ++ str " , def" |}.

Definition note_count : NoteDoc :=
  {| note_time := Some (str "2024-05-06T07:08:09+09:00");
     bodyText := [12473%N; 12461%N] ++ str " 1,234" |}.

(** A count as the specification wants it: absent, or a non-negative
    integer. *)
Definition valid_count (n : option JsNumber) : Prop :=
  match n with
  | None => True
  | Some NaN => False
  | Some (Num z) => 0 <= z
  end.

(** The run the application starts: the Qiita provider alone, 500 items
    asked for. *)
Definition app_run (api : Api) (signal : AbortSignal) : RunOptions :=
  {| tokens := [str "rocq"; str "proof"];
     providers := [qiitaProvider api None None];
     maxTotal := 500;
     signal := signal |}.

(** ** Further predicates on providers and runs *)

(** A provider stamps the items it finds with its own id. *)
Definition labels_items (p : Provider) : Prop :=
  forall opts items,
    search p opts = Resolved items ->
    Forall (fun f => source f = id p) items.

(** The instant at which a signal fires is within the run. *)
Definition fires_by (s : AbortSignal) (t : nat) : Prop :=
  exists k, s = Some k /\ (k <= t)%nat.

(** The object [qiitaProvider.enrich] makes of an item. *)
Definition qiita_enriched (item : FoundItem) : EnrichedItem :=
  {| found := item;
     publishedAt := r ← raw item; created_at r;
     likeCount := r ← raw item; likes_count r;
     viewCount := None |}.

(** The run [handleStartSearch] starts, with what the Qiita provider sees of
    the signal in its search ([s1]) and in its enrichment ([s2]). *)
Definition qiita_run (api : Api) (s1 s2 : AbortSignal)
    (toks : list JsString) (signal : AbortSignal) : RunOptions :=
  {| tokens := toks;
     providers := [qiitaProvider api s1 s2];
     maxTotal := 500;
     signal := signal |}.

(** ** utils.ts: duckduckgoSiteSearch *)

(** The element [a.result__a] of a result, by its [href] attribute and its
    text. *)
Record Anchor := {
  href : option JsString;
  anchor_text : JsString;
}.

(** An element of [doc.querySelectorAll('.result')], by the answers to the
    queries the code makes on it: the title element and the text of the
    snippet element, when there are such. *)
Record ResultRow := {
  titleEl : option Anchor;
  snippetText : option JsString;
}.

(** [new URLSearchParams(s).get(name)], a function of the platform. *)
Definition SearchParams := JsString -> JsString -> option JsString.

(** The text from the first question mark on, when there is one. *)
Fixpoint from_question (link : JsString) : option JsString :=
  match link with
  | [] => None
  | c :: rest =>
      if (c =? 63)%N then Some link else from_question rest
  end.

(** [link.substring(link.indexOf('?'))]: without a question mark [indexOf]
    answers -1, which [substring] takes for 0. *)
Definition query_part (link : JsString) : JsString :=
  match from_question link with
  | Some s => s
  | None => link
  end.

(** The object pushed for the result at index [index], when its link, the
    target URL in it and its title are all there and not empty. *)
Definition ddg_item (get : SearchParams) (source : JsString) (index : Z)
    (result : ResultRow) : option FoundItem :=
  let link := a ← titleEl result; href a in
  let title := (fun a => trim (anchor_text a)) <$> titleEl result in
  let snippet := trim <$> snippetText result in
  match truthy_opt link with
  | Some link =>
      let actualUrl := get (query_part link) (str "uddg") in
      match truthy_opt actualUrl, truthy_opt title with
      | Some u, Some t =>
          Some {| url := u; source := source; title := Some t;
                  snippet := snippet; rank := Some (index + 1);
                  raw := None |}
      | _, _ => None
      end
  | None => None
  end.

(** [results.forEach((result, index) => { if (foundItems.length >=
    maxResults) return; ... })], from index [index] on. *)
Fixpoint ddg_rows (get : SearchParams) (maxResults : Z) (source : JsString)
    (index : Z) (results : list ResultRow) (foundItems : list FoundItem)
  : list FoundItem :=
  match results with
  | [] => foundItems
  | result :: rest =>
      ddg_rows get maxResults source (index + 1) rest
        (if maxResults <=? Z.of_nat (length foundItems) then foundItems
         else
           match ddg_item get source index result with
           | Some item => foundItems ++ [item]
           | None => foundItems
           end)
  end.

(** The search engine in the run at hand: what the fetch of the result page
    gives for a query text [site:<site> <tokens>]. *)
Definition Ddg := JsString -> Response (list ResultRow).

(** [duckduckgoSiteSearch]: the way its promise settles.
    [encodeURIComponent] is called before the [try]: when it throws, the
    promise rejects and no page has been asked for.  Every await is inside
    the [try] and the [catch] rethrows nothing; the signal is read once,
    after the page has come.  The page is named by the query text before
    encoding. *)
Definition duckduckgoSiteSearch (get : SearchParams) (ddg : Ddg)
    (site : JsString) (tokens : list JsString) (maxResults : Z)
    (source : JsString) (signal : AbortSignal) : Outcome (list FoundItem) :=
  let query := str "site:" ++ site ++ 32%N :: join_sp tokens in
  if isWellFormed query then
    match ddg query with
    | NotOk _ => Resolved []
    | Throws _ | BodyThrows _ => Resolved (slice0 maxResults [])
    | Body results =>
        if aborted signal 0 then Resolved (slice0 maxResults [])
        else Resolved
               (slice0 maxResults (ddg_rows get maxResults source 0 results []))
    end
  else Rejected URIError.

(** The objects of all the results that have a link, a target URL and a
    title, from index [index] on. *)
Fixpoint ddg_hits (get : SearchParams) (source : JsString) (index : Z)
    (results : list ResultRow) : list FoundItem :=
  match results with
  | [] => []
  | result :: rest =>
      match ddg_item get source index result with
      | Some item => item :: ddg_hits get source (index + 1) rest
      | None => ddg_hits get source (index + 1) rest
      end
  end.

(** A result page used as an example: a result without a link between two
    that have all it takes, and what the search makes of it. *)
Definition sample_get : SearchParams :=
  fun s _ => Some (drop 6 s).

Definition sample_row (target title_ : string) : ResultRow :=
  {| titleEl := Some {| href := Some (str "/l/?uddg=" ++ str target);
                        anchor_text := str title_ |};
     snippetText := None |}.

Definition sample_ddg : Ddg :=
  fun _ =>
    Body [sample_row "https://zenn.dev/a" " First ";
          {| titleEl := None; snippetText := Some (str "no link") |};
          sample_row "https://zenn.dev/b" "Second"].

Definition sample_hits : list FoundItem :=
  [{| url := str "https://zenn.dev/a"; source := str "zenn";
      title := Some (str "First"); snippet := None; rank := Some 1;
      raw := None |};
   {| url := str "https://zenn.dev/b"; source := str "zenn";
      title := Some (str "Second"); snippet := None; rank := Some 3;
      raw := None |}].

(** The Zenn and the Note provider of a run, as the engine sees them. *)
Definition zennProvider (get : SearchParams) (ddg : Ddg) (web : Web ZennDoc)
    (searchSignal enrichSignal : AbortSignal) : Provider :=
  {| id := str "zenn";
     displayName := str "Zenn";
     search := fun opts =>
       duckduckgoSiteSearch get ddg (str "zenn.dev") (po_tokens opts)
         (maxDiscover opts) (str "zenn") searchSignal;
     enrich := zennProvider_enrich web enrichSignal |}.

Definition noteProvider (get : SearchParams) (ddg : Ddg) (web : Web NoteDoc)
    (searchSignal enrichSignal : AbortSignal) : Provider :=
  {| id := str "note";
     displayName := str "Note";
     search := fun opts =>
       duckduckgoSiteSearch get ddg (str "note.com") (po_tokens opts)
         (maxDiscover opts) (str "note") searchSignal;
     enrich := noteProvider_enrich web enrichSignal |}.

(** One of the three providers of the repository, in some run. *)
Inductive repo_provider : Provider -> Prop :=
  | repo_qiita api s1 s2 : repo_provider (qiitaProvider api s1 s2)
  | repo_zenn get ddg web s1 s2 :
      repo_provider (zennProvider get ddg web s1 s2)
  | repo_note get ddg web s1 s2 :
      repo_provider (noteProvider get ddg web s1 s2).

(** The ranks of a list of items, those that have one. *)
Definition ranks (items : list FoundItem) : list Z :=
  omap rank items.

(** A text holds a count for the Note scraper: the marker (U+30B9 U+30AD),
    white space or none, then a digit or a comma. *)
Definition has_count (text : JsString) : Prop :=
  exists pre ws c post,
    text = pre ++ 12473%N :: 12461%N :: ws ++ c :: post
    /\ Forall (fun c => is_ws c = true) ws /\ is_count_char c = true.

(** ** App.tsx *)

Inductive SearchStatus := idle | searching | stopped | finished.
Inductive SortKey := latest | likes.
Inductive SortDirection := asc | desc.

Record SortConfig := {
  key : SortKey;
  direction : SortDirection;
}.

(** The state [maxResults], of type [50 | 300]. *)
Inductive MaxResults := top50 | top300.

Definition limit (m : MaxResults) : Z :=
  match m with
  | top50 => 50
  | top300 => 300
  end.

#[global] Instance SortKey_eq_dec : EqDecision SortKey.
Proof. solve_decision. Defined.
#[global] Instance SortDirection_eq_dec : EqDecision SortDirection.
Proof. solve_decision. Defined.

(** The state of the component. *)
Record AppState := {
  query : JsString;
  maxResults : MaxResults;
  sortConfig : SortConfig;
  foundItems : list EnrichedItem;
  selectedUrls : gset JsString;
  status : SearchStatus;
  statusText : JsString;
  copied : bool;
}.

(** The four messages of [setStatusText]: 'キーワードを入力してください。',
    '検索中...', '検索を停止しました。' and 'エラーが発生しました。'. *)
Definition text_enter_keyword : JsString :=
  [12461; 12540; 12527; 12540; 12489; 12434; 20837; 21147; 12375; 12390;
   12367; 12384; 12373; 12356; 12290]%N.
Definition text_searching : JsString :=
  [26908; 32034; 20013; 46; 46; 46]%N.
Definition text_stopped : JsString :=
  [26908; 32034; 12434; 20572; 27490; 12375; 12414; 12375; 12383; 12290]%N.
Definition text_error : JsString :=
  [12456; 12521; 12540; 12364; 30330; 29983; 12375; 12414; 12375; 12383;
   12290]%N.

(** [handleSort], applied to the previous configuration. *)
Definition handleSort (k : SortKey) (prev : SortConfig) : SortConfig :=
  if decide (key prev = k)
  then {| key := k;
          direction := match direction prev with asc => desc | desc => asc end |}
  else {| key := k; direction := desc |}.

(** [handleSelectRow]: the new value of [selectedUrls]. *)
Definition handleSelectRow (u : JsString) (selected : gset JsString)
  : gset JsString :=
  if bool_decide (u ∈ selected) then selected ∖ {[u]} else {[u]} ∪ selected.

(** [handleSelectAll], with [e.target.checked]. *)
Definition handleSelectAll (checked : bool) (items : list EnrichedItem)
  : gset JsString :=
  if checked then list_to_set (List.map url_of items) else ∅.

Definition isAllSelected (items : list EnrichedItem)
    (selected : gset JsString) : bool :=
  (0 <? length items)%nat && (size selected =? length items)%nat.

(** [arr.join(sep)] *)
Fixpoint join_with (sep : N) (parts : list JsString) : JsString :=
  match parts with
  | [] => []
  | [t] => t
  | t :: rest => t ++ sep :: join_with sep rest
  end.

(** The URLs [handleCopy] joins: of the items shown, in the order shown, the
    selected ones, [maxResults] of them at most. *)
Definition urlsToCopy (sortedItems : list EnrichedItem)
    (selected : gset JsString) (m : MaxResults) : list JsString :=
  List.map url_of
    (slice0 (limit m)
       (List.filter (fun item => bool_decide (url_of item ∈ selected))
          sortedItems)).

(** [handleCopy]: the text written to the clipboard, if any is. *)
Definition handleCopy (sortedItems : list EnrichedItem)
    (selected : gset JsString) (m : MaxResults) : option JsString :=
  truthy_opt (Some (join_with 10 (urlsToCopy sortedItems selected m))).

(** Numbers: [a - b], [a * b] and [a !== b]. *)
Definition js_sub (a b : JsNumber) : JsNumber :=
  match a, b with
  | Num x, Num y => Num (x - y)
  | _, _ => NaN
  end.

Definition js_mul (a b : JsNumber) : JsNumber :=
  match a, b with
  | Num x, Num y => Num (x * y)
  | _, _ => NaN
  end.

Definition js_neq (a b : JsNumber) : bool :=
  match a, b with
  | Num x, Num y => negb (x =? y)
  | _, _ => true
  end.

(** [new Date(s).getTime()], a function of the platform: the milliseconds, or
    [NaN] for a text that is no date. *)
Definition GetTime := JsString -> JsNumber.

(** [item.publishedAt ? new Date(item.publishedAt).getTime() : 0] *)
Definition dateOf (getTime : GetTime) (item : EnrichedItem) : JsNumber :=
  match truthy_opt (publishedAt item) with
  | Some s => getTime s
  | None => Num 0
  end.

(** [item.likeCount ?? -1] *)
Definition likesOf (item : EnrichedItem) : JsNumber :=
  match likeCount item with
  | Some n => n
  | None => Num (-1)
  end.

(** The comparator handed to [sort] in [sortedItems]. *)
Definition compareItems (getTime : GetTime) (cfg : SortConfig)
    (a b : EnrichedItem) : JsNumber :=
  let dir := match direction cfg with asc => Num 1 | desc => Num (-1) end in
  match key cfg with
  | latest => js_mul (js_sub (dateOf getTime a) (dateOf getTime b)) dir
  | likes =>
      if js_neq (likesOf a) (likesOf b)
      then js_mul (js_sub (likesOf a) (likesOf b)) dir
      else js_sub (dateOf getTime b) (dateOf getTime a)
  end.

(** [error instanceof Error && error.name === 'AbortError'] *)
Definition is_abort_error (error : Reason) : bool :=
  match error with
  | Obj e => bool_decide (name e = str "AbortError")
  | Nullish | TypeErrorOnName => false
  end.

(** The instant, on the engine's clock, of the reading of the signal that
    follows [await runSearch(...)]. *)
Definition t_returned (opts : RunOptions) : nat := S (t_enriched opts).

(** [handleStartSearch]: the state once the handler is through.  [stop] is
    the instant at which the user presses the stop button, if ever: the
    controller is new, so its signal has not fired when [runSearch] makes its
    first check, and [Some k] fires it at instant [k + 1].  The timer that
    clears the message of the blank query is left out. *)
Definition handleStartSearch (api : Api) (s1 s2 : AbortSignal)
    (stop : option nat) (st : AppState) : AppState :=
  if bool_decide (trim (query st) = []) then
    {| query := query st; maxResults := maxResults st;
       sortConfig := sortConfig st; foundItems := foundItems st;
       selectedUrls := selectedUrls st; status := status st;
       statusText := text_enter_keyword; copied := copied st |}
  else
    let signal := S <$> stop in
    let opts := qiita_run api s1 s2 (tokenize (query st)) signal in
    let ended (items : list EnrichedItem) (selected : gset JsString)
          (s : SearchStatus) (text : JsString) :=
      {| query := query st; maxResults := maxResults st;
         sortConfig := sortConfig st; foundItems := items;
         selectedUrls := selected; status := s; statusText := text;
         copied := copied st |} in
    match runSearch opts [0%nat] with
    | Resolved finalItems =>
        if aborted signal (t_returned opts)
        then ended [] ∅ stopped text_stopped
        else ended finalItems (list_to_set (List.map url_of finalItems))
               finished text_searching
    | Rejected error | Threw error =>
        if is_abort_error error
        then ended [] ∅ stopped text_stopped
        else ended [] ∅ idle text_error
    end.

(** An item the comparator can order: its like count is absent or a count,
    and its date, if it has one, is a date. *)
Definition orderable (getTime : GetTime) (item : EnrichedItem) : Prop :=
  valid_count (likeCount item) /\ exists z, dateOf getTime item = Num z.

(** A state of the component before any search. *)
Definition initial_state (q : JsString) : AppState :=
  {| query := q; maxResults := top50;
     sortConfig := {| key := latest; direction := desc |};
     foundItems := []; selectedUrls := ∅; status := idle; statusText := [];
     copied := false |}.

(** A clock for the dates of the examples: the length of the text. *)
Definition sample_getTime : GetTime :=
  fun s => Num (Z.of_nat (length s)).

(** The part of the [enrich] contract on the items themselves: a resolved
    enrichment answers the input items, one for one and in order, each with
    the fields it had. *)
Definition keeps_items (p : Provider) : Prop :=
  forall items out,
    enrich p items = Resolved out -> List.map found out = items.

(** The keys of a list, each once, in the order of their first
    occurrence. *)
Definition keys_in_order (ks : list nat) : list nat :=
  fold_left (fun acc k => if decide (k ∈ acc) then acc else acc ++ [k]) ks [].

(** * Properties *)

(** ** The tokenizer *)

Section Tokenizer.

Lemma is_ws_sep c : is_ws c = true -> is_sep c = true.
Proof. unfold is_sep. intros ->. reflexivity. Qed.

Lemma drop_while_ws_sep_free s : sep_free s -> drop_while is_ws s = s.
Proof.
  destruct 1 as [|c s Hc _]; simpl; [reflexivity|].
  destruct (is_ws c) eqn:E; [|reflexivity].
  apply is_ws_sep in E. congruence.
Qed.

Lemma trim_sep_free s : sep_free s -> trim s = s.
Proof.
  intros H. unfold trim. rewrite (drop_while_ws_sep_free s H).
  rewrite drop_while_ws_sep_free; [apply rev_involutive|].
  unfold sep_free. apply Forall_rev. exact H.
Qed.

Lemma split_run_sep_free s : forall b cur,
  sep_free cur -> Forall sep_free (split_run b cur s).
Proof.
  induction s as [|c s IH]; intros b cur Hcur; simpl.
  - constructor; [exact Hcur|constructor].
  - destruct (is_sep c) eqn:E.
    + destruct b; [apply IH; exact Hcur|].
      constructor; [exact Hcur|]. apply IH. constructor.
    + apply IH. unfold sep_free. apply Forall_app. split; [exact Hcur|].
      constructor; [exact E|constructor].
Qed.

Lemma map_trim_pieces (l : list JsString) :
  Forall sep_free l -> List.map trim l = l.
Proof.
  induction 1 as [|s l Hs _ IH]; simpl; [reflexivity|].
  rewrite (trim_sep_free s Hs), IH. reflexivity.
Qed.

(** Since no piece holds white space, [trim] changes nothing. *)
Lemma tokenize_pieces q :
  tokenize q = List.filter truthy_str (split_seps q).
Proof.
  unfold tokenize. rewrite map_trim_pieces; [reflexivity|].
  apply split_run_sep_free. constructor.
Qed.

Lemma concat_filter_truthy (l : list JsString) :
  concat (List.filter truthy_str l) = concat l.
Proof.
  induction l as [|s l IH]; simpl; [reflexivity|].
  destruct s; simpl; [exact IH|]. rewrite IH. reflexivity.
Qed.

Lemma concat_split_run s : forall b cur,
  concat (split_run b cur s)
  = cur ++ List.filter (fun c => negb (is_sep c)) s.
Proof.
  induction s as [|c s IH]; intros b cur; simpl.
  - reflexivity.
  - destruct (is_sep c) eqn:E; simpl.
    + destruct b; simpl; rewrite IH; [reflexivity|].
      reflexivity.
    + rewrite IH, <- app_assoc. reflexivity.
Qed.

Lemma split_run_flag s :
  List.filter truthy_str (split_run true [] s)
  = List.filter truthy_str (split_run false [] s).
Proof. destruct s as [|c s]; simpl; [|destruct (is_sep c)]; reflexivity. Qed.

Lemma split_run_at_sep a : forall b cur c rest,
  is_sep c = true -> (b = true -> cur = []) ->
  List.filter truthy_str (split_run b cur (a ++ c :: rest))
  = List.filter truthy_str (split_run b cur a)
    ++ List.filter truthy_str (split_run false [] rest).
Proof.
  induction a as [|x a IH]; intros b cur c rest Hc Hinv.
  - cbn [app split_run]. rewrite Hc. destruct b.
    + rewrite (Hinv eq_refl). simpl. apply split_run_flag.
    + cbn [List.filter]. rewrite split_run_flag.
      destruct (truthy_str cur); reflexivity.
  - cbn [app split_run]. destruct (is_sep x) eqn:E.
    + destruct b.
      * apply IH; [exact Hc|exact Hinv].
      * cbn [List.filter]. rewrite (IH true [] c rest Hc (fun _ => eq_refl)).
        destruct (truthy_str cur); reflexivity.
    + apply IH; [exact Hc|discriminate].
Qed.

Lemma split_run_sep_free_input s : forall cur,
  sep_free s -> split_run false cur s = [cur ++ s].
Proof.
  induction s as [|c s IH]; intros cur H; simpl.
  - rewrite app_nil_r. reflexivity.
  - inversion H as [|? ? Hc Hs]; subst. rewrite Hc, (IH _ Hs), <- app_assoc.
    reflexivity.
Qed.

Lemma filter_truthy_nonempty (l : list JsString) :
  Forall (fun t => t <> []) (List.filter truthy_str l).
Proof.
  induction l as [|s l IH]; simpl; [constructor|].
  destruct s; simpl; [exact IH|]. constructor; [discriminate|exact IH].
Qed.

End Tokenizer.

(** The tokenizer on a few queries. *)
Example tokenize_and_query :
  tokenize (str "rust  &wasm react") = [str "rust"; str "wasm"; str "react"].
Proof. reflexivity. Qed.

Example tokenize_ideographic_space :
  tokenize (str "a" ++ [12288%N] ++ str "b") = [str "a"; str "b"].
Proof. reflexivity. Qed.

(** C9, as stated, fails: a query made of separators only (or the empty
    query) gives the empty list of tokens. *)
Lemma tokenize_separators_only_is_empty :
  tokenize (str " & ") = [] /\ tokenize (str "") = [].
Proof. split; reflexivity. Qed.

(** C9, amended: for every query string, [tokenize] returns, in the order of
    the query, the maximal runs of code units that are neither white space
    nor an ampersand. Every token is non-empty and free of separators; the
    tokens put end to end are the query without its separators; a separator
    in the query splits the token list; a non-empty query without separator
    is its own single token; and the list is empty exactly when the query
    holds nothing but separators (so it is non-empty exactly when the query
    has a code unit that is not one). *)
Theorem tokenize_spec (q : JsString) :
  Forall (fun t => t <> [] /\ sep_free t) (tokenize q)
  /\ concat (tokenize q) = List.filter (fun c => negb (is_sep c)) q
  /\ (tokenize q = [] <-> Forall (fun c => is_sep c = true) q)
  /\ (forall a c b, q = a ++ c :: b -> is_sep c = true ->
        tokenize q = tokenize a ++ tokenize b)
  /\ (q <> [] -> sep_free q -> tokenize q = [q]).
Proof.
  assert (Hcat : concat (tokenize q)
                 = List.filter (fun c => negb (is_sep c)) q).
  { rewrite tokenize_pieces, concat_filter_truthy. unfold split_seps.
    rewrite concat_split_run. reflexivity. }
  assert (Hne : Forall (fun t : JsString => t <> []) (tokenize q)).
  { rewrite tokenize_pieces. apply filter_truthy_nonempty. }
  split; [|split; [exact Hcat|split; [|split]]].
  - apply Forall_and; split; [exact Hne|].
    rewrite tokenize_pieces. apply List.Forall_forall. intros t Ht.
    apply filter_In in Ht as [Ht _].
    pose proof (split_run_sep_free q false [] (List.Forall_nil _)) as Hp.
    rewrite List.Forall_forall in Hp. apply Hp. exact Ht.
  - split.
    + intros E. rewrite E in Hcat. simpl in Hcat. clear - Hcat.
      induction q as [|c q IH]; [constructor|]. simpl in Hcat.
      destruct (is_sep c) eqn:Ec; simpl in Hcat; [|discriminate].
      constructor; [exact Ec|apply IH; exact Hcat].
    + intros Hall.
      assert (Hnil : List.filter (fun c => negb (is_sep c)) q = []).
      { clear - Hall. induction Hall as [|c q Hc _ IH]; simpl; [reflexivity|].
        rewrite Hc. exact IH. }
      rewrite Hnil in Hcat. destruct (tokenize q) as [|t ts]; [reflexivity|].
      inversion Hne as [|? ? Ht _]; subst. destruct t; [congruence|].
      discriminate.
  - intros a c b -> Hc. rewrite !tokenize_pieces. unfold split_seps.
    apply split_run_at_sep; [exact Hc|discriminate].
  - intros Hq Hfree. rewrite tokenize_pieces. unfold split_seps.
    rewrite split_run_sep_free_input by exact Hfree. simpl.
    destruct q; [congruence|reflexivity].
Qed.

Lemma tokenize_spec_witness :
  tokenize (str "rocq&proof") = tokenize (str "rocq") ++ tokenize (str "proof").
Proof.
  destruct (tokenize_spec (str "rocq&proof")) as (_ & _ & _ & H & _).
  apply (H (str "rocq") 38%N (str "proof")); reflexivity.
Defined.

(** ** The engine: cancellation, size cap, empty registry *)

Section Engine.

Lemma aborted_mono (s : AbortSignal) (t t' : nat) :
  (t' <= t)%nat -> aborted s t = false -> aborted s t' = false.
Proof.
  destruct s as [k|]; simpl; [|reflexivity].
  rewrite !Nat.leb_gt. lia.
Qed.

Lemma slice0_prefix {A} (e : Z) (l : list A) :
  exists k, slice0 e l = take k l.
Proof. unfold slice0. eexists. reflexivity. Qed.

Lemma slice0_length {A} (e : Z) (l : list A) :
  0 <= e -> Z.of_nat (length (slice0 e l)) <= e.
Proof.
  intros He. unfold slice0.
  destruct (e <? 0) eqn:E; [apply Z.ltb_lt in E; lia|].
  rewrite length_take. lia.
Qed.

Lemma slice0_all {A} (e : Z) (l : list A) :
  Z.of_nat (length l) <= e -> slice0 e l = l.
Proof.
  intros He. unfold slice0.
  destruct (e <? 0) eqn:E; [apply Z.ltb_lt in E; lia|].
  apply take_ge. lia.
Qed.

(** The first call that throws, and the first promise that rejects. *)
Lemma thrown_first_None {A} (l : list (Outcome A)) :
  thrown_first l = None <-> forall c r, In c l -> c <> Threw r.
Proof.
  induction l as [|c l IH]; simpl.
  - split; [intros _ c r []|reflexivity].
  - destruct c as [a|r0|r0].
    + rewrite IH. split.
      * intros H c r [<-|Hc]; [discriminate|apply H, Hc].
      * intros H c r Hc. apply H. right. exact Hc.
    + rewrite IH. split.
      * intros H c r [<-|Hc]; [discriminate|apply H, Hc].
      * intros H c r Hc. apply H. right. exact Hc.
    + split; [discriminate|]. intros H.
      destruct (H (Threw r0) r0 (or_introl eq_refl) eq_refl).
Qed.


Lemma rejected_first_None {A} (l : list (Outcome A)) (order : list nat) :
  rejected_first l order = None
  <-> forall i r, In i order -> l !! i <> Some (Rejected r).
Proof.
  induction order as [|i order IH]; simpl.
  - split; [intros _ i r []|reflexivity].
  - destruct (l !! i) as [[a|r0|r0]|] eqn:E.
    + rewrite IH. split.
      * intros H j r [<-|Hj]; [rewrite E; discriminate|apply H, Hj].
      * intros H j r Hj. apply H. right. exact Hj.
    + split; [discriminate|]. intros H.
      destruct (H i r0 (or_introl eq_refl) E).
    + rewrite IH. split.
      * intros H j r [<-|Hj]; [rewrite E; discriminate|apply H, Hj].
      * intros H j r Hj. apply H. right. exact Hj.
    + rewrite IH. split.
      * intros H j r [<-|Hj]; [rewrite E; discriminate|apply H, Hj].
      * intros H j r Hj. apply H. right. exact Hj.
Qed.


(** A promise there is comes from a call that did not throw. *)
Lemma calls_made_lookup {A} (l : list (Outcome A)) : forall i c,
  calls_made l !! i = Some c -> l !! i = Some c /\ forall r, c <> Threw r.
Proof.
  induction l as [|c0 l IH]; intros i c; simpl; [discriminate|].
  destruct c0 as [a|r0|r0]; [| |discriminate];
    (destruct i as [|i]; simpl;
     [intros [= <-]; split; [reflexivity|discriminate]|apply IH]).
Qed.


Lemma searchCalls_lookup opts i c :
  searchCalls opts !! i = Some c
  <-> exists p, providers opts !! i = Some p
                /\ search p (search_options opts) = c.
Proof.
  unfold searchCalls. rewrite list_lookup_fmap.
  destruct (providers opts !! i) as [p|]; simpl.
  - split; [intros [= <-]; eauto|intros (p' & [= <-] & <-); reflexivity].
  - split; [discriminate|intros (p' & [=] & _)].
Qed.

Lemma searchCalls_length opts :
  length (searchCalls opts) = length (providers opts).
Proof. unfold searchCalls. apply List.length_map. Qed.

(** When no call throws and no promise rejects, every promise resolves. *)
Lemma all_resolved {A} (l : list (Outcome A)) :
  thrown_first l = None ->
  rejected_first l (seq 0 (length l)) = None ->
  forall c, In c l -> exists a, c = Resolved a.
Proof.
  intros Ht Hr c Hc. destruct c as [a|r|r]; [eauto| |].
  - apply list_elem_of_In, list_elem_of_lookup_1 in Hc as [i Hi].
    exfalso. apply (proj1 (rejected_first_None l _) Hr i r); [|exact Hi].
    apply in_seq. apply lookup_lt_Some in Hi. lia.
  - exfalso. apply (proj1 (thrown_first_None l) Ht _ r Hc). reflexivity.
Qed.

Lemma enrich_promises_values (g : Groups) :
  (forall c, In c (List.map enrich_group g) -> exists a, c = Resolved a) ->
  resolved_values (List.map enrich_group g) = enrichedChunks g.
Proof.
  induction g as [|entry g IH]; intros H; [reflexivity|].
  unfold resolved_values in *. simpl.
  destruct (H (enrich_group entry) (or_introl eq_refl)) as [out E].
  unfold chunk. rewrite E. simpl. f_equal.
  apply IH. intros c Hc. apply H. right. exact Hc.
Qed.

(** The provider calls of a run all give promises that resolve for the
    engine: no search call throws and no search promise is left rejected by
    its handler, and likewise for the enrichment of the pool. *)
Lemma runSearch_resolved (opts : RunOptions) (settled : list nat) out :
  runSearch opts settled = Resolved out ->
  aborted (signal opts) (t_enriched opts) = false
  /\ out = slice0 (maxTotal opts) (enrichedFlat opts settled).
Proof.
  unfold runSearch, enrichedFlat. intros H.
  destruct (aborted (signal opts) 0); [discriminate|].
  destruct (thrown_first (List.map search_promise _)); [discriminate|].
  destruct (rejected_first (List.map search_promise _) settled);
    [discriminate|].
  destruct (aborted _ (t_discovered opts)); [discriminate|].
  destruct (thrown_first (List.map enrich_group _)) eqn:Ht; [discriminate|].
  destruct (rejected_first (List.map enrich_group _) _) eqn:Hr;
    [discriminate|].
  destruct (aborted _ (t_enriched opts)); [discriminate|].
  injection H as <-. split; [reflexivity|].
  rewrite enrich_promises_values; [reflexivity|].
  apply all_resolved; [exact Ht|].
  rewrite List.length_map. exact Hr.
Qed.

(** What [runSearch] answers, by the three readings of the signal, in a run
    in which no search call throws, no search promise is left rejected, and
    the same holds for the enrichment of whatever is in the pool. *)
Lemma runSearch_cases (opts : RunOptions) (settled : list nat) :
  thrown_first (List.map search_promise (searchCalls opts)) = None ->
  rejected_first (List.map search_promise (searchCalls opts)) settled = None ->
  (forall pool,
     let g := itemsToEnrichByProvider (providers opts) pool in
     thrown_first (List.map enrich_group g) = None
     /\ rejected_first (List.map enrich_group g) (seq 0 (length g)) = None) ->
  (aborted (signal opts) (t_enriched opts) = true
   /\ runSearch opts settled = Rejected AbortError)
  \/ (aborted (signal opts) (t_enriched opts) = false
      /\ runSearch opts settled
         = Resolved (slice0 (maxTotal opts) (enrichedFlat opts settled))).
Proof.
  intros Hst Hsr Hen. unfold runSearch, enrichedFlat. rewrite Hst, Hsr.
  destruct (Hen (discovered (discover opts settled))) as [Het Her].
  cbv zeta in Het, Her. rewrite Het, Her.
  rewrite enrich_promises_values
    by (apply all_resolved; [exact Het|rewrite List.length_map; exact Her]).
  destruct (aborted (signal opts) (t_enriched opts)) eqn:E3.
  - left. split; [reflexivity|].
    destruct (aborted (signal opts) 0); [reflexivity|].
    destruct (aborted (signal opts) (t_discovered opts)); reflexivity.
  - right. split; [reflexivity|].
    rewrite (aborted_mono _ _ 0 (Nat.le_0_l _) E3).
    rewrite (aborted_mono _ (t_enriched opts) (t_discovered opts)); auto.
    unfold t_discovered, t_enriched. lia.
Qed.

Lemma settle_all_no_provider (opts : RunOptions) :
  providers opts = [] ->
  forall settled t pool, settle_all opts settled t pool = pool.
Proof.
  intros Hp.
  assert (Hc : searchCalls opts = [])
    by (unfold searchCalls; rewrite Hp; reflexivity).
  induction settled as [|i rest IH]; intros t pool; simpl.
  - reflexivity.
  - rewrite Hc. simpl. apply IH.
Qed.

End Engine.

(** C2: the collection [runSearch] returns has at most [maxTotal] items,
    whatever the tokens, the providers, the outcomes of discovery and of
    enrichment and the order in which the searches settle; [maxTotal] is the
    run's requested maximum, a non-negative integer. *)
Theorem runSearch_size_cap (opts : RunOptions) (settled : list nat)
    (out : list EnrichedItem) :
  0 <= maxTotal opts ->
  runSearch opts settled = Resolved out ->
  Z.of_nat (length out) <= maxTotal opts.
Proof.
  intros Hmax H. apply runSearch_resolved in H as [_ ->].
  apply slice0_length. exact Hmax.
Qed.

Lemma runSearch_size_cap_witness :
  Z.of_nat (length (List.map unenriched
                      [item_of "u1" "A"; item_of "u2" "A"; item_of "u3" "B"]))
  <= maxTotal two_providers.
Proof.
  apply (runSearch_size_cap two_providers [0; 1]%nat).
  - simpl. lia.
  - vm_compute. reflexivity.
Defined.

(** The signal firing before the run, while the second search is out, and
    after the run is through. *)
Example two_providers_cancelled_before :
  runSearch (with_signal two_providers (Some 0%nat)) [0; 1]%nat
  = Rejected AbortError.
Proof. reflexivity. Qed.

Example two_providers_cancelled_in_discovery :
  discovered (discover (with_signal two_providers (Some 2%nat)) [0; 1]%nat)
  = [item_of "u1" "A"; item_of "u2" "A"]
  /\ runSearch (with_signal two_providers (Some 2%nat)) [0; 1]%nat
     = Rejected AbortError.
Proof. split; vm_compute; reflexivity. Qed.

Example two_providers_cancelled_after :
  runSearch (with_signal two_providers (Some 5%nat)) [0; 1]%nat
  = runSearch two_providers [0; 1]%nat.
Proof. vm_compute. reflexivity. Qed.

(** C10: with an empty list of providers and a signal that does not fire
    during the run, [runSearch] resolves with the empty collection, for every
    [maxTotal] and every token list; the quota is computed with
    [max(1, 0) = 1] as divisor and is [maxTotal] itself. *)
Theorem runSearch_no_providers (toks : list JsString) (total : Z)
    (sig : AbortSignal) (settled : list nat) :
  let opts :=
    {| tokens := toks; providers := []; maxTotal := total; signal := sig |} in
  aborted sig (t_enriched opts) = false ->
  runSearch opts settled = Resolved []
  /\ perProviderTarget total [] = total.
Proof.
  intros opts Hsig. split.
  - assert (Hnone : forall pool, itemsToEnrichByProvider [] pool = []).
    { intros pool. unfold itemsToEnrichByProvider.
      induction pool as [|x pool IH] using rev_ind; [reflexivity|].
      rewrite fold_left_app. simpl. exact IH. }
    assert (Hsr : rejected_first
                    (List.map search_promise (searchCalls opts)) settled
                  = None).
    { apply rejected_first_None. intros i r _. simpl. rewrite lookup_nil.
      discriminate. }
    assert (Hen : forall pool,
               let g := itemsToEnrichByProvider (providers opts) pool in
               thrown_first (List.map enrich_group g) = None
               /\ rejected_first (List.map enrich_group g)
                    (seq 0 (length g)) = None).
    { intros pool. simpl. rewrite Hnone. split; reflexivity. }
    destruct (runSearch_cases opts settled eq_refl Hsr Hen)
      as [[E _]|[_ E]]; [simpl in E; congruence|].
    rewrite E. unfold enrichedFlat, discover.
    rewrite settle_all_no_provider by reflexivity. simpl.
    unfold slice0. simpl. rewrite take_nil. reflexivity.
  - unfold perProviderTarget, ceil_div. simpl.
    rewrite Z.div_1_r. lia.
Qed.

Lemma runSearch_no_providers_witness :
  runSearch {| tokens := [str "rocq"]; providers := []; maxTotal := 500;
               signal := None |} []
  = Resolved []
  /\ perProviderTarget 500 [] = 500.
Proof.
  apply (runSearch_no_providers [str "rocq"] 500 None []). reflexivity.
Defined.

(** ** The engine: the merged pool *)

Section Pool.

Lemma pool_ok_empty : pool_ok empty_pool.
Proof.
  split; simpl; [|constructor].
  intros u. split; [intros H; set_solver|intros []].
Qed.

Lemma pool_of_empty : pool_of empty_pool [].
Proof.
  split; [exact pool_ok_empty|]. simpl.
  split; [intros x []|]. split; [intros y []|]. constructor.
Qed.

Lemma pool_ok_push pool item :
  pool_ok pool -> url item ∉ seenUrls pool ->
  pool_ok {| discovered := discovered pool ++ [item];
             seenUrls := {[url item]} ∪ seenUrls pool |}.
Proof.
  intros [Hs Hn] Hnew. split; simpl.
  - intros u. rewrite List.map_app, in_app_iff, elem_of_union,
      elem_of_singleton, Hs. simpl. intuition.
  - rewrite List.map_app. simpl. apply NoDup_app. split; [exact Hn|].
    split; [|apply NoDup_singleton].
    intros u Hu Hu'. apply list_elem_of_singleton in Hu'. subst u.
    apply Hnew, Hs, list_elem_of_In, Hu.
Qed.

(** A merge keeps the pool well formed, whether the signal has fired or
    not. *)
Lemma merge_items_ok stop items : forall pool,
  pool_ok pool -> pool_ok (merge_items stop items pool).
Proof.
  induction items as [|item rest IH]; intros pool Hok; simpl.
  - exact Hok.
  - destruct stop; [exact Hok|]. case_bool_decide as Hseen.
    + apply IH, Hok.
    + apply IH, pool_ok_push; assumption.
Qed.

Lemma settle_all_ok opts settled : forall t pool,
  pool_ok pool -> pool_ok (settle_all opts settled t pool).
Proof.
  induction settled as [|i rest IH]; intros t pool Hok; simpl.
  - exact Hok.
  - apply IH.
    destruct (calls_made (searchCalls opts) !! i) as [[items|r|r]|];
      simpl; try exact Hok.
    apply merge_items_ok, Hok.
Qed.

Lemma first_with_url_app u l1 l2 y :
  first_with_url u l1 = Some y -> first_with_url u (l1 ++ l2) = Some y.
Proof.
  unfold first_with_url. induction l1 as [|x l1 IH]; simpl; [discriminate|].
  destruct (bool_decide (url x = u)); [trivial|exact IH].
Qed.

Lemma first_with_url_fresh u l y :
  (forall x, In x l -> url x <> u) -> url y = u ->
  first_with_url u (l ++ [y]) = Some y.
Proof.
  unfold first_with_url. intros Hl Hy.
  induction l as [|x l IH]; simpl.
  - rewrite bool_decide_eq_true_2 by exact Hy. reflexivity.
  - rewrite bool_decide_eq_false_2 by (apply Hl; left; reflexivity).
    apply IH. intros z Hz. apply Hl. right. exact Hz.
Qed.

(** A merge that the signal does not cut short. *)
Lemma merge_items_pool_of items : forall pool arr,
  pool_of pool arr ->
  pool_of (merge_items false items pool) (arr ++ items).
Proof.
  induction items as [|item rest IH]; intros pool arr Hp; simpl.
  - rewrite app_nil_r. exact Hp.
  - replace (arr ++ item :: rest) with ((arr ++ [item]) ++ rest)
      by (rewrite <- app_assoc; reflexivity).
    destruct Hp as (Hok & Hall & Hfirst & Hsub).
    case_bool_decide as Hseen; apply IH.
    + split; [exact Hok|]. split; [|split].
      * intros x [Hx|Hx]%in_app_iff; [auto|].
        destruct Hx as [<-|[]]. exact Hseen.
      * intros y Hy. apply first_with_url_app, Hfirst, Hy.
      * apply sublist_inserts_r. exact Hsub.
    + split; [apply pool_ok_push; assumption|]. simpl. split; [|split].
      * intros x [Hx|Hx]%in_app_iff.
        -- apply elem_of_union_r. auto.
        -- destruct Hx as [<-|[]]. apply elem_of_union_l.
           apply elem_of_singleton. reflexivity.
      * intros y [Hy|Hy]%in_app_iff.
        -- apply first_with_url_app, Hfirst, Hy.
        -- destruct Hy as [<-|[]]. apply first_with_url_fresh; [|reflexivity].
           intros x Hx E. apply Hseen. rewrite <- E. auto.
      * apply sublist_app; [exact Hsub|reflexivity].
Qed.

Lemma settle_all_pool_of opts settled : forall t pool arr,
  aborted (signal opts) (t + length settled) = false ->
  pool_of pool arr ->
  pool_of (settle_all opts settled t pool) (arr ++ arrivals opts settled).
Proof.
  unfold arrivals.
  induction settled as [|i rest IH]; intros t pool arr Hsig Hp; simpl.
  - rewrite app_nil_r. exact Hp.
  - rewrite app_assoc. apply IH.
    + simpl in Hsig. rewrite <- Hsig. f_equal. lia.
    + unfold contribution, settle_search.
      destruct (calls_made (searchCalls opts) !! i) as [[items|r|r]|];
        try (rewrite app_nil_r; exact Hp).
      rewrite (aborted_mono _ (t + length (i :: rest)) t); [|lia|exact Hsig].
      apply merge_items_pool_of, Hp.
Qed.

End Pool.

(** ** The engine: grouping by provider *)

Section Grouping.

Variable ps : list Provider.

Lemma find_provider_lookup src k p :
  find_provider ps src = Some (k, p) -> ps !! k = Some p /\ id p = src.
Proof.
  unfold find_provider. intros H. apply list_find_Some in H.
  destruct H as (H1 & H2 & _). split; assumption.
Qed.

Lemma itemsToEnrich_snoc pool x :
  itemsToEnrichByProvider ps (pool ++ [x])
  = match find_provider ps (source x) with
    | Some (k, p) => group_push k p x (itemsToEnrichByProvider ps pool)
    | None => itemsToEnrichByProvider ps pool
    end.
Proof. unfold itemsToEnrichByProvider. rewrite fold_left_app. reflexivity. Qed.

Lemma group_push_keys k p x (g : Groups) :
  forall k', In k' (List.map fst (group_push k p x g))
             <-> k' = k \/ In k' (List.map fst g).
Proof.
  induction g as [|[k0 [p0 items]] g IH]; intros k'; simpl.
  - intuition.
  - destruct (decide (k = k0)) as [->|Hne]; simpl.
    + intuition.
    + rewrite IH. intuition.
Qed.

Lemma group_push_nodup k p x (g : Groups) :
  NoDup (List.map fst g) -> NoDup (List.map fst (group_push k p x g)).
Proof.
  induction g as [|[k0 [p0 items]] g IH]; simpl; intros Hn.
  - apply NoDup_singleton.
  - destruct (decide (k = k0)) as [->|Hne]; simpl; [exact Hn|].
    apply NoDup_cons in Hn as [Hk0 Hn]. apply NoDup_cons. split.
    + rewrite list_elem_of_In, group_push_keys.
      rewrite list_elem_of_In in Hk0. intros [E|H]; [congruence|auto].
    + apply IH, Hn.
Qed.

Lemma key_of_find x k p :
  find_provider ps (source x) = Some (k, p) -> key_of ps x = Some k.
Proof. unfold key_of. intros ->. reflexivity. Qed.

Lemma filter_key_snoc k pool x :
  List.filter (fun f => bool_decide (key_of ps f = Some k)) (pool ++ [x])
  = List.filter (fun f => bool_decide (key_of ps f = Some k)) pool
    ++ (if bool_decide (key_of ps x = Some k) then [x] else []).
Proof. rewrite List.filter_app. reflexivity. Qed.

Lemma group_push_entries k p x pool (g : Groups) :
  find_provider ps (source x) = Some (k, p) ->
  NoDup (List.map fst g) ->
  Forall (entry_of ps pool) g ->
  (forall f, In f pool -> key_of ps f = Some k -> In k (List.map fst g)) ->
  Forall (entry_of ps (pool ++ [x])) (group_push k p x g).
Proof.
  intros Hfind. pose proof (key_of_find _ _ _ Hfind) as Hkey.
  induction g as [|[k0 [p0 items]] g IH]; simpl; intros Hnd Hall Hk.
  - constructor; [|constructor]. unfold entry_of.
    split; [apply (find_provider_lookup _ _ _ Hfind)|].
    split; [discriminate|]. rewrite filter_key_snoc.
    rewrite bool_decide_eq_true_2 by exact Hkey.
    replace (List.filter _ pool) with (@nil FoundItem); [reflexivity|].
    symmetry. clear - Hk. induction pool as [|f pool IH]; [reflexivity|].
    simpl. case_bool_decide as E.
    + destruct (Hk f (or_introl eq_refl) E).
    + apply IH. intros f' Hf'. apply Hk. right. exact Hf'.
  - apply NoDup_cons in Hnd as [Hk0 Hnd].
    inversion Hall as [|? ? Hhd Hrest]; subst.
    destruct Hhd as (Hp0 & Hne & Hitems).
    destruct (decide (k = k0)) as [->|Hneq].
    + constructor.
      * unfold entry_of. split; [exact Hp0|].
        split; [intros E; apply List.app_eq_nil in E as [_ E]; discriminate E|].
        rewrite filter_key_snoc, bool_decide_eq_true_2 by exact Hkey.
        rewrite <- Hitems. reflexivity.
      * rewrite List.Forall_forall in *. intros [k' [p' its]] Hin.
        destruct (Hrest _ Hin) as (H1 & H2 & H3).
        split; [exact H1|]. split; [exact H2|].
        rewrite filter_key_snoc, bool_decide_eq_false_2, app_nil_r;
          [exact H3|].
        rewrite Hkey. intros [= <-]. apply Hk0, list_elem_of_In.
        apply (in_map fst) in Hin. exact Hin.
    + constructor.
      * unfold entry_of. split; [exact Hp0|]. split; [exact Hne|].
        rewrite filter_key_snoc, bool_decide_eq_false_2, app_nil_r;
          [exact Hitems|].
        rewrite Hkey. congruence.
      * apply IH; [exact Hnd|exact Hrest|].
        intros f Hf Hkf. destruct (Hk f Hf Hkf) as [E|H]; [congruence|exact H].
Qed.

Lemma entry_of_unkeyed pool x (g : Groups) :
  key_of ps x = None ->
  Forall (entry_of ps pool) g -> Forall (entry_of ps (pool ++ [x])) g.
Proof.
  intros Hx. apply List.Forall_impl. intros [k [p items]] (H1 & H2 & H3).
  split; [exact H1|]. split; [exact H2|].
  rewrite filter_key_snoc, bool_decide_eq_false_2, app_nil_r; [exact H3|].
  rewrite Hx. discriminate.
Qed.

(** The map after the grouping loop: its keys are pairwise distinct, each
    entry holds the items of the pool grouped under its key, and every item
    that has a provider is under some key. *)
Lemma itemsToEnrich_groups pool :
  let g := itemsToEnrichByProvider ps pool in
  NoDup (List.map fst g)
  /\ Forall (entry_of ps pool) g
  /\ (forall f k, In f pool -> key_of ps f = Some k ->
        In k (List.map fst g)).
Proof.
  induction pool as [|x pool IH] using rev_ind.
  - simpl. split; [constructor|]. split; [constructor|]. intros f k [].
  - destruct IH as (Hnd & Hall & Hcov). rewrite itemsToEnrich_snoc.
    destruct (find_provider ps (source x)) as [[k p]|] eqn:Hfind.
    + pose proof (key_of_find _ _ _ Hfind) as Hkey.
      split; [apply group_push_nodup, Hnd|]. split.
      * apply group_push_entries; auto. intros f Hf. apply Hcov, Hf.
      * intros f k' [Hf|[<-|[]]]%in_app_iff Hk'; apply group_push_keys.
        -- right. eapply Hcov; eauto.
        -- left. congruence.
    + assert (Hx : key_of ps x = None)
      by (unfold key_of; rewrite Hfind; reflexivity).
      split; [exact Hnd|]. split; [apply entry_of_unkeyed; assumption|].
      intros f k' [Hf|[<-|[]]]%in_app_iff Hk'; [eauto|congruence].
Qed.

(** The items of the groups, taken together, are the items of the pool
    that have a provider. *)
Lemma group_push_concat k p x (g : Groups) :
  concat (List.map (fun e => snd (snd e)) (group_push k p x g))
  ≡ₚ concat (List.map (fun e => snd (snd e)) g) ++ [x].
Proof.
  induction g as [|[k0 [p0 items]] g IH]; simpl; [reflexivity|].
  destruct (decide (k = k0)) as [->|Hne]; simpl.
  - rewrite <- !app_assoc. apply Permutation_app_head.
    apply Permutation_app_comm.
  - rewrite IH, app_assoc. reflexivity.
Qed.

Lemma itemsToEnrich_concat pool :
  concat (List.map (fun e => snd (snd e)) (itemsToEnrichByProvider ps pool))
  ≡ₚ List.filter (fun f => bool_decide (is_Some (key_of ps f))) pool.
Proof.
  induction pool as [|x pool IH] using rev_ind; [reflexivity|].
  rewrite itemsToEnrich_snoc, List.filter_app. simpl.
  destruct (find_provider ps (source x)) as [[k p]|] eqn:Hfind.
  - rewrite (key_of_find _ _ _ Hfind). simpl.
    rewrite group_push_concat, IH. reflexivity.
  - replace (key_of ps x) with (@None nat)
      by (unfold key_of; rewrite Hfind; reflexivity).
    simpl. rewrite app_nil_r. exact IH.
Qed.

End Grouping.

(** ** The engine: what comes out of enrichment *)

Section Enriched.

(** The chunk of an entry, by what the enrichment of its items gives. *)
Lemma chunk_cases k p items :
  (exists out, enrich p items = Resolved out /\ chunk (k, (p, items)) = out)
  \/ ((forall out, enrich p items <> Resolved out)
      /\ chunk (k, (p, items)) = List.map unenriched items).
Proof.
  unfold chunk. simpl. destruct (enrich p items) as [out|r|r].
  - left. exists out. split; reflexivity.
  - right. split; [discriminate|]. destruct (reads_name r); reflexivity.
  - right. split; [discriminate|reflexivity].
Qed.

Lemma enrich_group_urls ps pool entry :
  Forall keeps_urls ps -> entry_of ps pool entry ->
  List.map url_of (chunk entry) = List.map url (snd (snd entry)).
Proof.
  destruct entry as [k [p items]]. intros Hps (Hp & _ & _).
  destruct (chunk_cases k p items) as [(out & E & ->)|[_ ->]]; simpl.
  - rewrite List.Forall_forall in Hps. apply (Hps p); [|exact E].
    apply list_elem_of_In. eapply list_elem_of_lookup_2, Hp.
  - rewrite List.map_map. reflexivity.
Qed.

Lemma enrichedChunks_urls ps pool (g : Groups) :
  Forall keeps_urls ps -> Forall (entry_of ps pool) g ->
  List.map url_of (concat (enrichedChunks g))
  = List.map url (concat (List.map (fun e => snd (snd e)) g)).
Proof.
  intros Hps. induction 1 as [|entry g He _ IH]; simpl; [reflexivity|].
  rewrite !List.map_app, IH, (enrich_group_urls ps pool entry Hps He).
  reflexivity.
Qed.

Lemma filter_sublist {A} (f : A -> bool) (l : list A) :
  List.filter f l `sublist_of` l.
Proof.
  induction l as [|x l IH]; simpl; [constructor|].
  destruct (f x); [apply sublist_skip|apply sublist_cons]; exact IH.
Qed.

(** With providers that keep the URLs, the URLs after enrichment are
    pairwise distinct as soon as those of the pool are. *)
Lemma enriched_urls_nodup ps pool :
  Forall keeps_urls ps -> NoDup (List.map url pool) ->
  NoDup (List.map url_of
           (concat (enrichedChunks (itemsToEnrichByProvider ps pool)))).
Proof.
  intros Hps Hnd.
  destruct (itemsToEnrich_groups ps pool) as (_ & Hall & _).
  rewrite (enrichedChunks_urls ps pool _ Hps Hall).
  rewrite (itemsToEnrich_concat ps pool).
  eapply sublist_NoDup; [exact Hnd|].
  apply (fmap_sublist url), filter_sublist.
Qed.

Lemma slice0_nodup {A B} (f : A -> B) (e : Z) (l : list A) :
  NoDup (List.map f l) -> NoDup (List.map f (slice0 e l)).
Proof.
  destruct (slice0_prefix e l) as [k ->].
  intros Hnd.
  eapply sublist_NoDup; [exact Hnd|].
  apply (fmap_sublist f), sublist_take.
Qed.

Lemma discover_ok opts settled : pool_ok (discover opts settled).
Proof. apply settle_all_ok, pool_ok_empty. Qed.

(** No two items of a collection returned share a URL, whatever the order
    in which the searches settle. *)
Lemma runSearch_urls_nodup opts settled out :
  Forall keeps_urls (providers opts) ->
  runSearch opts settled = Resolved out ->
  NoDup (List.map url_of out).
Proof.
  intros Hps Hrun. apply runSearch_resolved in Hrun as [_ ->].
  apply (slice0_nodup url_of). unfold enrichedFlat.
  apply enriched_urls_nodup; [exact Hps|apply discover_ok].
Qed.

Lemma discover_pool_of opts settled :
  settled ≡ₚ seq 0 (length (providers opts)) ->
  aborted (signal opts) (t_enriched opts) = false ->
  pool_of (discover opts settled) (arrivals opts settled).
Proof.
  intros Hperm Hsig.
  apply (settle_all_pool_of opts settled 1 empty_pool []);
    [|exact pool_of_empty].
  apply (aborted_mono _ (t_enriched opts)); [|exact Hsig].
  rewrite (Permutation_length Hperm), length_seq.
  unfold t_enriched. lia.
Qed.

Lemma contribution_arrives opts settled i x :
  settled ≡ₚ seq 0 (length (providers opts)) ->
  In x (contribution opts i) -> In x (arrivals opts settled).
Proof.
  intros Hperm Hx. unfold arrivals. apply in_concat.
  exists (contribution opts i). split; [|exact Hx].
  apply in_map. apply list_elem_of_In. rewrite Hperm.
  apply list_elem_of_In, in_seq. split; [lia|]. simpl.
  unfold contribution in Hx.
  destruct (calls_made (searchCalls opts) !! i) as [c|] eqn:E;
    [|destruct Hx].
  apply calls_made_lookup in E as [E _]. apply lookup_lt_Some in E.
  rewrite searchCalls_length in E. exact E.
Qed.

End Enriched.

Example two_providers_A_first :
  runSearch two_providers [0; 1]%nat
  = Resolved (List.map unenriched
                [item_of "u1" "A"; item_of "u2" "A"; item_of "u3" "B"]).
Proof. vm_compute. reflexivity. Qed.

Example two_providers_B_first :
  runSearch two_providers [1; 0]%nat
  = Resolved (List.map unenriched
                [item_of "u2" "B"; item_of "u3" "B"; item_of "u1" "A"]).
Proof. vm_compute. reflexivity. Qed.

Lemma plain_keeps_urls name found_ : keeps_urls (provider_of name found_ plain).
Proof.
  intros items out [= <-]. rewrite List.map_map. reflexivity.
Qed.

(** C1: in a run that returns a collection, the merged pool holds every URL
    that any provider discovered, each once, under the first item that came
    in with it, in the order the results came in; and, the providers'
    enrichments keeping the URLs of their items (their contract), no two
    items of the collection returned share a URL. *)
Theorem runSearch_dedup (opts : RunOptions) (settled : list nat)
    (out : list EnrichedItem) :
  settled ≡ₚ seq 0 (length (providers opts)) ->
  Forall keeps_urls (providers opts) ->
  runSearch opts settled = Resolved out ->
  let pool := discovered (discover opts settled) in
  NoDup (List.map url pool)
  /\ (forall i x, In x (contribution opts i) ->
        exists y, In y pool /\ url y = url x)
  /\ (forall y, In y pool ->
        first_with_url (url y) (arrivals opts settled) = Some y)
  /\ pool `sublist_of` arrivals opts settled
  /\ NoDup (List.map (fun e => url (found e)) out).
Proof.
  intros Hperm Hps Hrun pool.
  apply runSearch_resolved in Hrun as [Hsig ->].
  destruct (discover_pool_of opts settled Hperm Hsig)
    as ((Hseen & Hnd) & Hall & Hfirst & Hsub).
  split; [exact Hnd|]. split; [|split; [exact Hfirst|split; [exact Hsub|]]].
  - intros i x Hx.
    apply (contribution_arrives opts settled i x Hperm) in Hx.
    apply Hall, Hseen, in_map_iff in Hx as (y & Hy & Hin).
    exists y. split; assumption.
  - apply (slice0_nodup url_of). unfold enrichedFlat.
    apply enriched_urls_nodup; assumption.
Qed.

Lemma runSearch_dedup_witness :
  let pool := discovered (discover two_providers [0; 1]%nat) in
  NoDup (List.map url pool)
  /\ (forall i x, In x (contribution two_providers i) ->
        exists y, In y pool /\ url y = url x)
  /\ (forall y, In y pool ->
        first_with_url (url y) (arrivals two_providers [0; 1]%nat) = Some y)
  /\ pool `sublist_of` arrivals two_providers [0; 1]%nat
  /\ NoDup (List.map (fun e => url (found e))
              (List.map unenriched
                 [item_of "u1" "A"; item_of "u2" "A"; item_of "u3" "B"])).
Proof.
  apply (runSearch_dedup two_providers [0; 1]%nat).
  - reflexivity.
  - repeat constructor; apply plain_keeps_urls.
  - vm_compute. reflexivity.
Defined.

(** ** The engine: what crosses its boundary *)

Section Boundary.

Lemma search_promise_Threw c r :
  search_promise c = Threw r -> c = Threw r.
Proof.
  destruct c as [a|r0|r0]; simpl; [discriminate| |congruence].
  destruct (reads_name r0); discriminate.
Qed.

Lemma search_promise_Rejected c r :
  search_promise c = Rejected r -> r = TypeErrorOnName /\ c = Rejected Nullish.
Proof.
  destruct c as [a|r0|r0]; simpl; [discriminate| |discriminate].
  destruct r0; simpl; try discriminate. intros [= <-]. split; reflexivity.
Qed.

Lemma enrich_group_Threw k p items r :
  enrich_group (k, (p, items)) = Threw r -> enrich p items = Threw r.
Proof.
  simpl. destruct (enrich p items) as [a|r0|r0]; [discriminate| |congruence].
  destruct (reads_name r0); discriminate.
Qed.

(** The promise of an entry rejects with one error only: the [TypeError]
    of the handler that reads the name of [null] or [undefined]. *)
Lemma enrich_group_Rejected k p items r :
  enrich_group (k, (p, items)) = Rejected r ->
  r = TypeErrorOnName /\ enrich p items = Rejected Nullish.
Proof.
  simpl. destruct (enrich p items) as [a|r0|r0]; [discriminate| |discriminate].
  destruct r0; simpl; try discriminate. intros [= <-]. split; reflexivity.
Qed.

Lemma searchCalls_in opts c :
  In c (searchCalls opts) ->
  exists p, In p (providers opts) /\ search p (search_options opts) = c.
Proof.
  unfold searchCalls. intros H. apply in_map_iff in H as (p & E & Hp).
  eauto.
Qed.

Lemma groups_provider_in ps pool k p items :
  In (k, (p, items)) (itemsToEnrichByProvider ps pool) -> In p ps.
Proof.
  intros Hin.
  destruct (itemsToEnrich_groups ps pool) as (_ & Hall & _).
  rewrite List.Forall_forall in Hall. destruct (Hall _ Hin) as (Hk & _ & _).
  apply list_elem_of_In. eapply list_elem_of_lookup_2, Hk.
Qed.

(** With providers that keep to promises, no search call throws and no
    search promise is left rejected. *)
Lemma well_behaved_searches opts settled :
  Forall well_behaved (providers opts) ->
  thrown_first (searchCalls opts) = None
  /\ thrown_first (List.map search_promise (searchCalls opts)) = None
  /\ rejected_first (List.map search_promise (searchCalls opts)) settled
     = None.
Proof.
  intros Hwb. rewrite List.Forall_forall in Hwb.
  split; [|split].
  - apply thrown_first_None. intros c r Hc ->.
    apply searchCalls_in in Hc as (p & Hp & E).
    destruct (Hwb p Hp) as (H & _). apply (H _ _ E).
  - apply thrown_first_None. intros c r Hc ->.
    apply in_map_iff in Hc as (c & E & Hc).
    apply search_promise_Threw in E. subst c.
    apply searchCalls_in in Hc as (p & Hp & E).
    destruct (Hwb p Hp) as (H & _). apply (H _ _ E).
  - apply rejected_first_None. intros i r _ Hi.
    apply list_elem_of_lookup_2, list_elem_of_In, in_map_iff in Hi
      as (c & E & Hc).
    apply search_promise_Rejected in E as [_ ->].
    apply searchCalls_in in Hc as (p & Hp & E).
    destruct (Hwb p Hp) as (_ & H & _). apply (H _ E).
Qed.

(** Nor does an enrichment call throw or an enrichment promise stay
    rejected, whatever the pool. *)
Lemma well_behaved_enrichments ps pool (order : list nat) :
  Forall well_behaved ps ->
  let g := itemsToEnrichByProvider ps pool in
  thrown_first (List.map enrich_group g) = None
  /\ rejected_first (List.map enrich_group g) order = None.
Proof.
  intros Hwb g. rewrite List.Forall_forall in Hwb. split.
  - apply thrown_first_None. intros c r Hc ->.
    apply in_map_iff in Hc as ([k [p items]] & E & Hin).
    apply enrich_group_Threw in E.
    destruct (Hwb p (groups_provider_in _ _ _ _ _ Hin)) as (_ & _ & H & _).
    apply (H _ _ E).
  - apply rejected_first_None. intros i r _ Hi.
    apply list_elem_of_lookup_2, list_elem_of_In, in_map_iff in Hi
      as ([k [p items]] & E & Hin).
    apply enrich_group_Rejected in E as [_ E].
    destruct (Hwb p (groups_provider_in _ _ _ _ _ Hin)) as (_ & _ & _ & H).
    apply (H _ E).
Qed.

(** With such providers the outcome of a run hangs on the signal alone. *)
Lemma runSearch_well_behaved (opts : RunOptions) (settled : list nat) :
  Forall well_behaved (providers opts) ->
  (aborted (signal opts) (t_enriched opts) = true
   /\ runSearch opts settled = Rejected AbortError)
  \/ (aborted (signal opts) (t_enriched opts) = false
      /\ runSearch opts settled
         = Resolved (slice0 (maxTotal opts) (enrichedFlat opts settled))).
Proof.
  intros Hwb.
  destruct (well_behaved_searches opts settled Hwb) as (_ & Hst & Hsr).
  apply runSearch_cases; [exact Hst|exact Hsr|].
  intros pool. apply well_behaved_enrichments, Hwb.
Qed.



Lemma plain_well_behaved name items :
  well_behaved (provider_of name (Resolved items) plain).
Proof. repeat split; intros; discriminate. Qed.

End Boundary.




(** ** The engine: a provider that fails *)

Section Isolation.

Lemma find_provider_same_face ps ps' src :
  Forall2 same_face ps ps' ->
  match find_provider ps src, find_provider ps' src with
  | Some (k, p), Some (k', p') => k = k' /\ same_face p p'
  | None, None => True
  | _, _ => False
  end.
Proof.
  unfold find_provider. induction 1 as [|p p' ps ps' [Hid Hen] _ IH]; simpl.
  - exact I.
  - rewrite <- Hid. destruct (decide (id p = src)).
    + split; [reflexivity|split; assumption].
    + destruct (list_find _ ps) as [[k q]|], (list_find _ ps') as [[k' q']|];
        simpl; try exact IH.
      destruct IH as [-> Hq]. split; [reflexivity|exact Hq].
Qed.

Lemma group_push_same k p p' x (g g' : Groups) :
  same_face p p' -> Forall2 same_entry g g' ->
  Forall2 same_entry (group_push k p x g) (group_push k p' x g').
Proof.
  intros Hp. induction 1 as [|[k0 [p0 its]] [k0' [p0' its']] g g' He Ht IH];
    simpl.
  - constructor; [|constructor]. split; [reflexivity|].
    split; [exact Hp|reflexivity].
  - destruct He as (Hk & Hf & Hi). simpl in Hk, Hf, Hi. subst k0' its'.
    destruct (decide (k = k0)).
    + constructor; [|exact Ht].
      split; [reflexivity|]. split; [exact Hf|reflexivity].
    + constructor; [|exact IH].
      split; [reflexivity|]. split; [exact Hf|reflexivity].
Qed.

Lemma itemsToEnrich_same ps ps' pool :
  Forall2 same_face ps ps' ->
  Forall2 same_entry (itemsToEnrichByProvider ps pool)
    (itemsToEnrichByProvider ps' pool).
Proof.
  intros Hps. induction pool as [|x pool IH] using rev_ind; [constructor|].
  rewrite !itemsToEnrich_snoc.
  pose proof (find_provider_same_face ps ps' (source x) Hps) as Hf.
  destruct (find_provider ps (source x)) as [[k p]|],
    (find_provider ps' (source x)) as [[k' p']|]; try contradiction.
  - destruct Hf as [<- Hf]. apply group_push_same; assumption.
  - exact IH.
Qed.

Lemma enrichedChunks_same (g g' : Groups) :
  Forall2 same_entry g g' -> enrichedChunks g = enrichedChunks g'.
Proof.
  induction 1 as [|[k [p its]] [k' [p' its']] g g' He _ IH]; simpl;
    [reflexivity|].
  destruct He as (_ & (_ & Hen) & Hi). simpl in Hen, Hi. subst its'.
  f_equal; [|exact IH]. unfold chunk. simpl. rewrite Hen. reflexivity.
Qed.


(** Putting another promise in the place of one changes that place only. *)
Lemma calls_made_insert {A} (l : list (Outcome A)) c' : forall i c,
  l !! i = Some c -> (forall r, c <> Threw r) -> (forall r, c' <> Threw r) ->
  calls_made (<[i := c']> l) = <[i := c']> (calls_made l).
Proof.
  induction l as [|c0 l IH]; intros i c Hi Hc Hc'; [discriminate|].
  destruct i as [|i]; simpl in *.
  - injection Hi as ->.
    destruct c as [a|r|r], c' as [a'|r'|r']; simpl; try reflexivity;
      try (destruct (Hc r eq_refl)); destruct (Hc' r' eq_refl).
  - destruct c0 as [a|r|r]; simpl; [| |reflexivity];
      f_equal; apply (IH i c); assumption.
Qed.

Lemma same_face_silenced ps i p :
  ps !! i = Some p -> Forall2 same_face ps (<[i := silenced p]> ps).
Proof.
  revert i. induction ps as [|q ps IH]; intros i Hi; [constructor|].
  destruct i as [|i]; simpl in *.
  - injection Hi as ->. constructor; [split; reflexivity|].
    apply Forall2_same_length_lookup_2; [reflexivity|].
    intros j x y Hx Hy. rewrite Hx in Hy. injection Hy as <-.
    split; reflexivity.
  - constructor; [split; reflexivity|]. apply IH, Hi.
Qed.

Variable opts : RunOptions.
Variable i : nat.
Variable p : Provider.
Variable e : Err.
Hypothesis Hp : providers opts !! i = Some p.
Hypothesis Hfail : search p (search_options opts) = Rejected e.

Let opts' := with_providers opts (<[i := silenced p]> (providers opts)).

Lemma silenced_target :
  perProviderTarget (maxTotal opts') (providers opts')
  = perProviderTarget (maxTotal opts) (providers opts).
Proof.
  unfold perProviderTarget, opts'. simpl. rewrite length_insert.
  reflexivity.
Qed.

Lemma silenced_options : search_options opts' = search_options opts.
Proof. unfold search_options. rewrite silenced_target. reflexivity. Qed.

Lemma silenced_searchCalls :
  searchCalls opts' = <[i := Resolved []]> (searchCalls opts).
Proof.
  unfold searchCalls. rewrite silenced_options. unfold opts' at 1. simpl.
  apply (list_fmap_insert (fun q => search q (search_options opts))).
Qed.

Lemma silenced_call :
  searchCalls opts !! i = Some (Rejected e).
Proof. apply searchCalls_lookup. exists p. split; [exact Hp|exact Hfail]. Qed.


Lemma silenced_calls_made :
  calls_made (searchCalls opts')
  = <[i := Resolved []]> (calls_made (searchCalls opts)).
Proof.
  rewrite silenced_searchCalls.
  apply (calls_made_insert _ _ i (Rejected e));
    [exact silenced_call|discriminate|discriminate].
Qed.

Lemma silenced_settle_all settled : forall t pool,
  settle_all opts' settled t pool = settle_all opts settled t pool.
Proof.
  induction settled as [|j rest IH]; intros t pool; simpl; [reflexivity|].
  rewrite IH. f_equal. rewrite silenced_calls_made.
  destruct (decide (j = i)) as [->|Hne].
  - destruct (calls_made (searchCalls opts) !! i) as [c|] eqn:E.
    + rewrite list_lookup_insert_eq by (eapply lookup_lt_Some, E).
      apply calls_made_lookup in E as [E _].
      rewrite silenced_call in E. injection E as <-.
      reflexivity.
    + rewrite list_insert_ge by (apply lookup_ge_None; exact E).
      rewrite E. reflexivity.
  - rewrite list_lookup_insert_ne by congruence.
    destruct (calls_made (searchCalls opts) !! j) as [c|]; reflexivity.
Qed.

Lemma silenced_discover settled :
  discover opts' settled = discover opts settled.
Proof. apply silenced_settle_all. Qed.

Lemma silenced_enrichedFlat settled :
  enrichedFlat opts' settled = enrichedFlat opts settled.
Proof.
  unfold enrichedFlat. rewrite silenced_discover. f_equal.
  symmetry. apply enrichedChunks_same, itemsToEnrich_same.
  apply same_face_silenced, Hp.
Qed.


End Isolation.



Example B_search_fails_run :
  runSearch B_search_fails [1; 0]%nat
  = Resolved (List.map unenriched [item_of "u1" "A"; item_of "u2" "A"]).
Proof. vm_compute. reflexivity. Qed.



(** ** The engine: an enrichment that fails *)





(** ** The Qiita provider: pagination *)

Section QiitaSearch.

Variable api : Api.
Variable sig : AbortSignal.
Variable q : JsString.
Variable M maxPages : Z.

Lemma push_items_spec page : forall data idx foundItems,
  push_items M page idx data foundItems
  = foundItems
    ++ take (Z.to_nat M - length foundItems) (page_entries page idx data).
Proof.
  induction data as [|item rest IH]; intros idx foundItems; simpl.
  - rewrite take_nil, app_nil_r. reflexivity.
  - rewrite IH. destruct (Z.of_nat (length foundItems) <? M) eqn:E.
    + apply Z.ltb_lt in E. rewrite length_app. simpl.
      destruct (Z.to_nat M - length foundItems)%nat as [|d] eqn:Ed; [lia|].
      simpl. rewrite <- app_assoc. simpl. do 3 f_equal. lia.
    + apply Z.ltb_ge in E.
      replace (Z.to_nat M - length foundItems)%nat with 0%nat by lia.
      reflexivity.
Qed.

Lemma take_app_rest {A} (m : nat) (l l' : list A) :
  take m l ++ take (m - length (take m l)) l' = take m (l ++ l').
Proof.
  rewrite take_app, length_take. f_equal.
  destruct (Nat.le_gt_cases m (length l)) as [H|H].
  - rewrite Nat.min_l by exact H.
    replace (m - m)%nat with 0%nat by lia.
    replace (m - length l)%nat with 0%nat by lia. reflexivity.
  - rewrite Nat.min_r by lia. reflexivity.
Qed.

Lemma found_upto_S n :
  found_upto api q (S n)
  = found_upto api q n
    ++ page_entries (Z.of_nat (S n)) 0 (page_items api q (S n)).
Proof.
  unfold found_upto. rewrite seq_S, List.map_app, concat_app. simpl.
  rewrite app_nil_r. reflexivity.
Qed.

Lemma requests_S n :
  List.map (page_request q) (seq 1 (S n))
  = List.map (page_request q) (seq 1 n) ++ [page_request q (S n)].
Proof. rewrite seq_S, List.map_app. reflexivity. Qed.

Lemma take_length_lt {A} (l : list A) :
  Z.of_nat (length (take (Z.to_nat M) l)) < M <-> Z.of_nat (length l) < M.
Proof. rewrite length_take. lia. Qed.

(** The loop, entered before page [n + 1] with what the pages [1 .. n]
    gave. *)
Lemma search_pages_trace : forall fuel n foundItems' fetched',
  search_pages fuel api sig q M maxPages (Z.of_nat (S n))
    (take (Z.to_nat M) (found_upto api q n))
    (List.map (page_request q) (seq 1 n))
  = Some (foundItems', fetched') ->
  exists k,
    (n <= k)%nat
    /\ fetched' = List.map (page_request q) (seq 1 k)
    /\ foundItems' = take (Z.to_nat M) (found_upto api q k)
    /\ ((n < k)%nat -> Z.of_nat k <= maxPages)
    /\ (forall p, (n < p < k)%nat -> page_items api q p <> [])
    /\ (forall p, (n <= p < k)%nat ->
          Z.of_nat (length (found_upto api q p)) < M
          /\ aborted sig (t_loop (Z.of_nat (S p))) = false)
    /\ stop_reason api sig q M maxPages n k.
Proof.
  induction fuel as [|fuel IH]; intros n foundItems' fetched' H;
    cbn [search_pages] in H.
  - destruct (_ && _ && _) eqn:C in H; [discriminate|].
    injection H as <- <-. exists n. repeat split; try lia.
    left. rewrite !andb_false_iff, Z.ltb_ge, Z.leb_gt, negb_false_iff in C.
    destruct C as [[C|C]|C]; [left|right; left; lia|right; right; exact C].
    pose proof (take_length_lt (found_upto api q n)). lia.
  - destruct (_ && _ && _) eqn:C in H.
    2:{ injection H as <- <-. exists n. repeat split; try lia.
        left. rewrite !andb_false_iff, Z.ltb_ge, Z.leb_gt, negb_false_iff in C.
        destruct C as [[C|C]|C]; [left|right; left; lia|right; right; exact C].
        pose proof (take_length_lt (found_upto api q n)). lia. }
    rewrite !andb_true_iff, Z.ltb_lt, Z.leb_le, negb_true_iff in C.
    destruct C as [[C1 C2] C3]. rewrite take_length_lt in C1.
    fold (page_request q (S n)) in H.
    assert (Hstay : page_items api q (S n) = [] ->
              exists k,
                (n <= k)%nat
                /\ List.map (page_request q) (seq 1 n)
                     ++ [page_request q (S n)]
                   = List.map (page_request q) (seq 1 k)
                /\ take (Z.to_nat M) (found_upto api q n)
                   = take (Z.to_nat M) (found_upto api q k)
                /\ ((n < k)%nat -> Z.of_nat k <= maxPages)
                /\ (forall p, (n < p < k)%nat -> page_items api q p <> [])
                /\ (forall p, (n <= p < k)%nat ->
                      Z.of_nat (length (found_upto api q p)) < M
                      /\ aborted sig (t_loop (Z.of_nat (S p))) = false)
                /\ stop_reason api sig q M maxPages n k).
    { intros Hnone. exists (S n).
      split; [lia|]. split; [rewrite requests_S; reflexivity|].
      split; [rewrite found_upto_S, Hnone, app_nil_r; reflexivity|].
      split; [lia|]. split; [intros p Hp; lia|].
      split; [intros p Hp; replace p with n by lia;
            split; [exact C1|exact C3]|].
      right. left. split; [lia|exact Hnone]. }
    destruct (api (page_request q (S n))) as [e|st|e|[|data]] eqn:R;
      try (injection H as <- <-; apply Hstay; unfold page_items;
           rewrite R; reflexivity).
    destruct data as [|item rest];
      [injection H as <- <-; apply Hstay; unfold page_items;
       rewrite R; reflexivity|].
    assert (Hitems : page_items api q (S n) = item :: rest)
      by (unfold page_items; rewrite R; reflexivity).
    rewrite push_items_spec, take_app_rest, <- Hitems, <- found_upto_S,
      <- requests_S in H.
    destruct (_ && _ && _ && _) eqn:D in H.
    + injection H as <- <-. exists (S n).
      split; [lia|]. split; [reflexivity|]. split; [reflexivity|].
      split; [lia|]. split; [intros p Hp; lia|].
      split; [intros p Hp; replace p with n by lia;
            split; [exact C1|exact C3]|].
      right. right. split; [lia|].
      rewrite !andb_true_iff in D. apply D.
    + replace (Z.of_nat (S n) + 1) with (Z.of_nat (S (S n))) in H by lia.
      apply IH in H as (k & Hk & Hf & Hi & Hcap & Hne & Hlt & Hstop).
      exists k. split; [lia|]. split; [exact Hf|]. split; [exact Hi|].
      split; [intros _; destruct (decide (k = S n)) as [->|Hk'];
              [exact C2|apply Hcap; lia]|].
      split; [|split].
      * intros p Hp. destruct (decide (p = S n)) as [->|Hp'].
        -- rewrite Hitems. discriminate.
        -- apply Hne. lia.
      * intros p Hp. destruct (decide (p = n)) as [->|Hp'];
          [split; [exact C1|exact C3]|apply Hlt; lia].
      * destruct Hstop as [Hs|[[Hs1 Hs2]|[Hs1 Hs2]]];
          [left; exact Hs|right; left|right; right]; (split; [lia|assumption]).
Qed.

(** The loop reaches its exit within [maxPages] iterations. *)
Lemma search_pages_total : forall fuel n foundItems fetched,
  (Z.to_nat maxPages - n <= fuel)%nat ->
  exists r,
    search_pages fuel api sig q M maxPages (Z.of_nat (S n)) foundItems
      fetched = Some r.
Proof.
  induction fuel as [|fuel IH]; intros n foundItems fetched Hfuel;
    cbn [search_pages].
  - destruct (_ && _ && _) eqn:C; [|eauto].
    rewrite !andb_true_iff, Z.leb_le in C. lia.
  - destruct (_ && _ && _) eqn:C; [|eauto].
    destruct (api _) as [e|st|e|[|[|item rest]]]; eauto.
    destruct (_ && _ && _ && _); [eauto|].
    replace (Z.of_nat (S n) + 1) with (Z.of_nat (S (S n))) by lia.
    apply IH. lia.
Qed.

End QiitaSearch.

Section QiitaPages.

Variable api : Api.
Variable q : JsString.

Lemma ceil_div_bounds (a b : Z) :
  0 < b -> b * (ceil_div a b - 1) < a <= b * ceil_div a b.
Proof.
  intros Hb. unfold ceil_div.
  pose proof (Z.div_mod (- a) b ltac:(lia)) as E.
  pose proof (Z.mod_pos_bound (- a) b Hb) as Hr. nia.
Qed.

Lemma page_entries_length page : forall data idx,
  length (page_entries page idx data) = length data.
Proof.
  induction data as [|r data IH]; intros idx; simpl; [reflexivity|].
  rewrite IH. reflexivity.
Qed.

Lemma page_entries_in page it : forall data idx,
  In it (page_entries page idx data) ->
  exists i r, data !! i = Some r /\ it = qiita_item page (idx + Z.of_nat i) r.
Proof.
  induction data as [|r data IH]; intros idx; simpl; [intros []|].
  intros [<-|H].
  - exists 0%nat, r. split; [reflexivity|]. f_equal. lia.
  - apply IH in H as (i & r' & Hi & ->). exists (S i), r'.
    split; [exact Hi|]. f_equal. lia.
Qed.

Lemma found_upto_in k it :
  In it (found_upto api q k) ->
  exists p idx r,
    (1 <= p <= k)%nat /\ page_items api q p !! idx = Some r
    /\ it = qiita_item (Z.of_nat p) (Z.of_nat idx) r.
Proof.
  unfold found_upto. intros H. apply in_concat in H as (l & Hl & Hit).
  apply in_map_iff in Hl as (p & <- & Hp). apply in_seq in Hp.
  apply page_entries_in in Hit as (i & r & Hi & ->).
  exists p, i, r. split; [lia|]. split; [exact Hi|reflexivity].
Qed.

Lemma found_upto_full k :
  (forall p, (1 <= p)%nat -> length (page_items api q p) = 100%nat) ->
  length (found_upto api q k) = (100 * k)%nat.
Proof.
  intros Hfull. induction k as [|k IH]; [reflexivity|].
  rewrite found_upto_S, length_app, IH, page_entries_length, Hfull; lia.
Qed.

End QiitaPages.

Example full_pages_250 :
  match qiitaProvider_search full_pages None (ask 250) with
  | Some (Resolved items, fetched) =>
      length items = 250%nat /\ List.map req_page fetched = [1; 2; 3]
      /\ List.map rank (take 2 (drop 199 items)) = [Some 200; Some 201]
  | _ => False
  end.
Proof. vm_compute. repeat split. Qed.

(** C6: for a positive [maxDiscover] and tokens that make a well-formed
    text (no surrogate code unit stands alone in a keyword, so that
    [encodeURIComponent] answers), the search of the Qiita provider
    returns; it fetched the pages 1, 2, ..., k, each with a page size of 100,
    k at most [ceil(maxDiscover / 100)]; a page was fetched after page p
    only if page p brought at least one item and the items of the pages up
    to p were fewer than [maxDiscover], and the loop is left only for a
    reason (count reached, page cap exhausted, cancellation, or a page that
    brought nothing); the items returned are the first [maxDiscover] items
    of the pages fetched, in order, the item at index idx of page p carrying
    the rank [(p - 1) * 100 + idx + 1], so they are at most [maxDiscover];
    and when the signal does not fire and every page holds 100 items, k is
    exactly [ceil(maxDiscover / 100)] and [maxDiscover] items are returned:
    3 page fetches for [maxDiscover = 250].  With tokens that make no
    well-formed text the search rejects with the [URIError] of
    [encodeURIComponent] and fetches no page at all. *)
Theorem qiita_search_pagination (api : Api) (sig : AbortSignal)
    (opts : ProviderOptions) :
  0 < maxDiscover opts ->
  let M := maxDiscover opts in
  let q := join_sp (po_tokens opts) in
  (isWellFormed q = false ->
   qiitaProvider_search api sig opts = Some (Rejected URIError, []))
  /\
  (isWellFormed q = true ->
  exists items k,
    qiitaProvider_search api sig opts
    = Some (Resolved items, List.map (page_request q) (seq 1 k))
    /\ Forall (fun r => req_per_page r = 100)
         (List.map (page_request q) (seq 1 k))
    /\ Z.of_nat k <= ceil_div M 100
    /\ (forall p, (1 <= p < k)%nat ->
          page_items api q p <> []
          /\ Z.of_nat (length (found_upto api q p)) < M)
    /\ stop_reason api sig q M (ceil_div M 100) 0 k
    /\ items = take (Z.to_nat M) (found_upto api q k)
    /\ (forall it, In it items ->
          exists p idx r,
            (1 <= p <= k)%nat /\ page_items api q p !! idx = Some r
            /\ it = qiita_item (Z.of_nat p) (Z.of_nat idx) r
            /\ rank it = Some ((Z.of_nat p - 1) * 100 + Z.of_nat idx + 1))
    /\ Z.of_nat (length items) <= M
    /\ (sig = None ->
        (forall p, (1 <= p)%nat -> length (page_items api q p) = 100%nat) ->
        Z.of_nat k = ceil_div M 100 /\ Z.of_nat (length items) = M
        /\ (M = 250 -> k = 3%nat))).
Proof.
  intros HM M q. unfold qiitaProvider_search. fold M q.
  split; [intros ->; reflexivity|]. intros ->.
  change perPage with 100.
  destruct (search_pages_total api sig q M (ceil_div M 100)
              (Z.to_nat (ceil_div M 100)) 0 [] [] ltac:(lia))
    as [[foundItems fetched] Hrun].
  change (Z.of_nat 1) with 1 in Hrun. rewrite Hrun.
  pose proof (search_pages_trace api sig q M (ceil_div M 100)
                (Z.to_nat (ceil_div M 100)) 0 foundItems fetched) as Htrace.
  change (found_upto api q 0) with (@nil FoundItem) in Htrace.
  rewrite take_nil in Htrace.
  destruct (Htrace Hrun) as (k & _ & -> & -> & Hcap & Hne & Hlt & Hstop).
  assert (Hslice : slice0 M (take (Z.to_nat M) (found_upto api q k))
                   = take (Z.to_nat M) (found_upto api q k)).
  { apply slice0_all. rewrite length_take. lia. }
  rewrite Hslice. exists (take (Z.to_nat M) (found_upto api q k)), k.
  split; [reflexivity|]. split; [|split; [|split; [|split; [exact Hstop|]]]].
  - apply List.Forall_forall. intros r Hr.
    apply in_map_iff in Hr as (p & <- & _). reflexivity.
  - destruct k; [pose proof (ceil_div_bounds M 100); lia|apply Hcap; lia].
  - intros p Hp. split; [apply Hne; lia|apply Hlt; lia].
  - split; [reflexivity|]. split; [|split].
    + intros it Hit. apply list_elem_of_In, elem_of_take in Hit
        as (i & Hi & _).
      apply list_elem_of_lookup_2, list_elem_of_In, found_upto_in in Hi
        as (p & idx & r & Hp & Hidx & ->).
      exists p, idx, r. split; [lia|]. split; [exact Hidx|].
      split; reflexivity.
    + rewrite length_take. lia.
    + intros -> Hfull.
      pose proof (ceil_div_bounds M 100 ltac:(lia)) as Hc.
      pose proof (found_upto_full api q k Hfull) as Hk.
      assert (Hprev : (0 < k)%nat ->
                Z.of_nat (length (found_upto api q (k - 1))) < M).
      { intros Hpos. apply Hlt. lia. }
      rewrite (found_upto_full api q (k - 1) Hfull) in Hprev.
      assert (Hstop' : M <= Z.of_nat (100 * k) \/ ceil_div M 100 <= Z.of_nat k).
      { destruct Hstop as [[Hs|[Hs|Hs]]|[[Hs1 Hs2]|[_ Hs]]].
        - left. rewrite <- Hk. exact Hs.
        - right. exact Hs.
        - discriminate Hs.
        - pose proof (Hfull k ltac:(lia)) as Hl. rewrite Hs2 in Hl.
          discriminate Hl.
        - discriminate Hs. }
      assert (Ek : Z.of_nat k = ceil_div M 100).
      { destruct (Nat.eq_dec k 0%nat) as [->|Hk0]; [lia|].
        specialize (Hprev ltac:(lia)). lia. }
      split; [exact Ek|]. split.
      * rewrite length_take, Hk. lia.
      * intros E250. rewrite E250 in Ek. change (ceil_div 250 100) with 3 in Ek.
        lia.
Qed.

Lemma qiita_search_pagination_witness :
  exists items,
    qiitaProvider_search full_pages None (ask 250)
    = Some (Resolved items,
            List.map (page_request (str "rocq proof")) (seq 1 3))
    /\ Z.of_nat (length items) = 250.
Proof.
  destruct (proj2 (qiita_search_pagination full_pages None (ask 250)
                     ltac:(reflexivity)) eq_refl)
    as (items & k & H1 & _ & _ & _ & _ & _ & _ & _ & H2).
  destruct (H2 eq_refl ltac:(intros p _; reflexivity)) as (_ & H3 & H4).
  rewrite (H4 eq_refl) in H1. exists items. split; [exact H1|exact H3].
Defined.

(** ** The providers: enrichment *)

Section Enrichment.

Lemma map_throwing_resolved {A B} (f : A -> Outcome B) : forall l out,
  map_throwing f l = Resolved out ->
  Forall2 (fun x y => f x = Resolved y) l out.
Proof.
  induction l as [|x l IH]; intros out H; simpl in H.
  - injection H as <-. constructor.
  - destruct (f x) as [y|e|e] eqn:E; [|discriminate|discriminate].
    destruct (map_throwing f l) as [ys|e|e]; [|discriminate|discriminate].
    injection H as <-. constructor; [exact E|apply IH; reflexivity].
Qed.

Lemma map_throwing_runs {A B} (f : A -> Outcome B) (g : A -> B) l :
  (forall x, f x = Resolved (g x)) ->
  map_throwing f l = Resolved (List.map g l).
Proof.
  intros Hf. induction l as [|x l IH]; simpl; [reflexivity|].
  rewrite Hf, IH. reflexivity.
Qed.

Lemma enrich_loop_resolved f sig : forall items k acc out,
  enrich_loop f sig k items acc = Resolved out ->
  out = acc ++ List.map f items.
Proof.
  induction items as [|item rest IH]; intros k acc out H;
    cbn [enrich_loop] in H.
  - injection H as <-. rewrite app_nil_r. reflexivity.
  - destruct (aborted sig (2 * k)); [discriminate|].
    destruct (aborted sig (S (2 * k))); [discriminate|].
    apply IH in H. rewrite H, <- app_assoc. reflexivity.
Qed.

Lemma enrich_loop_runs f sig : forall items k acc,
  aborted sig (2 * (k + length items)) = false ->
  enrich_loop f sig k items acc = Resolved (acc ++ List.map f items).
Proof.
  induction items as [|item rest IH]; intros k acc H; cbn [enrich_loop].
  - rewrite app_nil_r. reflexivity.
  - cbn [length] in H.
    rewrite (aborted_mono sig (2 * (k + S (length rest))) (2 * k));
      [|lia|exact H].
    rewrite (aborted_mono sig (2 * (k + S (length rest))) (S (2 * k)));
      [|lia|exact H].
    rewrite IH, <- app_assoc; [reflexivity|].
    apply (aborted_mono sig (2 * (k + S (length rest)))); [lia|exact H].
Qed.

Lemma found_enrichZennItem web item : found (enrichZennItem web item) = item.
Proof.
  unfold enrichZennItem. destruct (web (url item)); try reflexivity.
  destruct (zenn_ld b). reflexivity.
Qed.

Lemma found_enrichNoteItem web item : found (enrichNoteItem web item) = item.
Proof.
  unfold enrichNoteItem. destruct (web (url item)); reflexivity.
Qed.

Lemma qiitaProvider_enrich_found sig items out :
  qiitaProvider_enrich sig items = Resolved out ->
  List.map found out = items.
Proof.
  intros H. apply map_throwing_resolved in H.
  induction H as [|x y l l' Hxy _ IH]; simpl; [reflexivity|].
  destruct (aborted sig 0); [discriminate|].
  injection Hxy as <-. simpl. rewrite IH. reflexivity.
Qed.

Lemma map_found (f : FoundItem -> EnrichedItem) items :
  (forall item, found (f item) = item) ->
  List.map found (List.map f items) = items.
Proof.
  intros Hf. rewrite List.map_map. induction items as [|x l IH]; simpl;
    [reflexivity|]. rewrite Hf, IH. reflexivity.
Qed.

End Enrichment.

Example qiita_enrich_sample :
  qiitaProvider_enrich None [qiita_item 1 0 sample_item]
  = Resolved
      [{| found := qiita_item 1 0 sample_item;
          publishedAt := Some (str "2024-01-01T00:00:00+09:00");
          likeCount := Some (Num 42);
          viewCount := None |}].
Proof. reflexivity. Qed.

(** The scenario of the specification: a structured-data block with a date
    and a like action counted 42. *)
Example zenn_structured_data :
  enrichZennItem (fun _ => Body zenn_structured) (item_of "u" "zenn")
  = {| found := item_of "u" "zenn";
       publishedAt := Some (str "2024-01-01T00:00:00Z");
       likeCount := Some (Num 42);
       viewCount := None |}.
Proof. vm_compute. reflexivity. Qed.

Example note_count_read :
  enrichNoteItem (fun _ => Body note_count) (item_of "u" "note")
  = {| found := item_of "u" "note";
       publishedAt := Some (str "2024-05-06T07:08:09+09:00");
       likeCount := Some (Num 1234);
       viewCount := None |}.
Proof. vm_compute. reflexivity. Qed.

(** C7: an enrichment that resolves, of the Qiita, the Zenn or the Note
    provider, answers as many items as it was given, in the same order, and
    the i-th of them carries the i-th input item, every field of it as it
    was, next to the metadata fields; and each enrichment does resolve when
    the signal has not fired by the time it ends. *)
Theorem enrich_keeps_order_and_fields :
  (forall sig items out,
     qiitaProvider_enrich sig items = Resolved out ->
     length out = length items /\ List.map found out = items)
  /\ (forall web sig items out,
        zennProvider_enrich web sig items = Resolved out ->
        length out = length items /\ List.map found out = items)
  /\ (forall web sig items out,
        noteProvider_enrich web sig items = Resolved out ->
        length out = length items /\ List.map found out = items)
  /\ (forall sig items,
        aborted sig 0 = false ->
        exists out, qiitaProvider_enrich sig items = Resolved out)
  /\ (forall web sig items,
        aborted sig (2 * length items) = false ->
        exists out, zennProvider_enrich web sig items = Resolved out)
  /\ (forall web sig items,
        aborted sig (2 * length items) = false ->
        exists out, noteProvider_enrich web sig items = Resolved out).
Proof.
  assert (Hlen : forall items out,
            List.map found out = items -> length out = length items).
  { intros items out <-. rewrite length_map. reflexivity. }
  split; [|split; [|split; [|split; [|split]]]].
  - intros sig items out H. apply qiitaProvider_enrich_found in H.
    split; [apply Hlen|]; exact H.
  - intros web sig items out H. apply enrich_loop_resolved in H. subst out.
    simpl. assert (E := map_found _ items (found_enrichZennItem web)).
    split; [apply Hlen|]; exact E.
  - intros web sig items out H. apply enrich_loop_resolved in H. subst out.
    simpl. assert (E := map_found _ items (found_enrichNoteItem web)).
    split; [apply Hlen|]; exact E.
  - intros sig items H. unfold qiitaProvider_enrich. rewrite H.
    eexists. apply map_throwing_runs. reflexivity.
  - intros web sig items H. eexists. apply enrich_loop_runs. exact H.
  - intros web sig items H. eexists. apply enrich_loop_runs. exact H.
Qed.

Lemma enrich_keeps_order_and_fields_witness :
  length [{| found := qiita_item 1 0 sample_item;
             publishedAt := Some (str "2024-01-01T00:00:00+09:00");
             likeCount := Some (Num 42);
             viewCount := None |};
          unenriched (item_of "u" "qiita")]
  = length [qiita_item 1 0 sample_item; item_of "u" "qiita"]
  /\ List.map found
       [{| found := qiita_item 1 0 sample_item;
           publishedAt := Some (str "2024-01-01T00:00:00+09:00");
           likeCount := Some (Num 42);
           viewCount := None |};
        unenriched (item_of "u" "qiita")]
     = [qiita_item 1 0 sample_item; item_of "u" "qiita"].
Proof.
  apply (proj1 enrich_keeps_order_and_fields None
           [qiita_item 1 0 sample_item; item_of "u" "qiita"]).
  reflexivity.
Defined.

Section Counts.

Lemma is_digit_not_ws c : is_digit c = true -> is_ws c = false.
Proof.
  unfold is_digit, is_ws. intros H.
  apply andb_true_iff in H as [H1 H2]. apply N.leb_le in H1, H2.
  repeat match goal with
         | |- context [(?a <=? ?b)%N] => destruct (N.leb_spec a b)
         | |- context [(?a =? ?b)%N] => destruct (N.eqb_spec a b)
         end; simpl; try reflexivity; lia.
Qed.

Lemma is_digit_no_sign c :
  is_digit c = true -> (c =? 45)%N = false /\ (c =? 43)%N = false.
Proof.
  unfold is_digit. intros H.
  apply andb_true_iff in H as [H1 H2]. apply N.leb_le in H1, H2.
  split; apply N.eqb_neq; lia.
Qed.

Lemma take_while_all {A} (f : A -> bool) (l : list A) :
  Forall (fun x => f x = true) l -> take_while f l = l.
Proof.
  induction 1 as [|x l Hx _ IH]; simpl; [reflexivity|].
  rewrite Hx, IH. reflexivity.
Qed.

Lemma digits_value_nonneg : forall ds acc,
  Forall (fun c => is_digit c = true) ds -> 0 <= acc ->
  0 <= fold_left (fun a c => 10 * a + digit_val c) ds acc.
Proof.
  induction ds as [|c ds IH]; intros acc Hds Hacc; simpl; [exact Hacc|].
  inversion Hds as [|? ? Hc Hrest]; subst. apply IH; [exact Hrest|].
  unfold is_digit in Hc. unfold digit_val.
  apply andb_true_iff in Hc as [Hc _]. apply N.leb_le in Hc. lia.
Qed.

(** [parseInt] of a string of digits: [NaN] when there is none, else their
    value. *)
Lemma parseInt10_digits (s : JsString) :
  Forall (fun c => is_digit c = true) s ->
  parseInt10 s = match s with [] => NaN | _ => Num (digits_value s) end
  /\ 0 <= digits_value s.
Proof.
  intros Hs. split; [|apply digits_value_nonneg; [exact Hs|lia]].
  unfold parseInt10. destruct Hs as [|c s Hc Hs]; [reflexivity|].
  cbn [drop_while]. rewrite (is_digit_not_ws c Hc).
  destruct (is_digit_no_sign c Hc) as [-> ->].
  cbn [take_while]. rewrite Hc, (take_while_all is_digit s Hs).
  rewrite Z.mul_1_l. reflexivity.
Qed.

Lemma take_while_Forall {A} (f : A -> bool) (l : list A) :
  Forall (fun x => f x = true) (take_while f l).
Proof.
  induction l as [|x l IH]; simpl; [constructor|].
  destruct (f x) eqn:E; constructor; assumption.
Qed.

Lemma match_suki_group : forall text group,
  match_suki text = Some group ->
  group <> [] /\ Forall (fun c => is_count_char c = true) group.
Proof.
  induction text as [|c rest IH]; intros group H; simpl in H;
    [discriminate|].
  destruct rest as [|c' after]; [discriminate H|].
  destruct ((c =? 12473)%N && (c' =? 12461)%N); [|apply IH, H].
  destruct (take_while is_count_char (drop_while is_ws after))
    as [|g gs] eqn:E; [apply IH, H|].
  injection H as <-. split; [discriminate|].
  rewrite <- E. apply take_while_Forall.
Qed.

(** What the Note scraper can put in [likeCount]: nothing, a non-negative
    integer, or [NaN]; the last when the text matched holds commas only. *)
Lemma note_likeCount_cases web item :
  valid_count (likeCount (enrichNoteItem web item))
  \/ likeCount (enrichNoteItem web item) = Some NaN.
Proof.
  unfold enrichNoteItem. destruct (web (url item)) as [e|st|e|doc];
    try (left; exact I).
  cbn [likeCount]. destruct (match_suki (bodyText doc)) as [group|] eqn:E;
    [|left; exact I].
  apply match_suki_group in E as [_ Hg].
  assert (Hd : Forall (fun c => is_digit c = true)
                 (List.filter (fun c => negb (c =? 44)%N) group)).
  { apply List.Forall_forall. intros c Hc. apply filter_In in Hc as [Hc Hn].
    rewrite List.Forall_forall in Hg. specialize (Hg c Hc).
    unfold is_count_char in Hg. apply negb_true_iff in Hn.
    rewrite Hn, orb_false_r in Hg. exact Hg. }
  destruct (parseInt10_digits _ Hd) as [-> Hpos].
  destruct (List.filter _ group); [right; reflexivity|left; exact Hpos].
Qed.

End Counts.

(** C8: the code can put in [likeCount] a value that is no count. A Zenn page
    whose like button shows no digit gives [NaN], one that shows "-5" gives
    -5, and a Note page with a comma after the marker gives [NaN]. *)
Theorem likeCount_not_a_count :
  likeCount (enrichZennItem (fun _ => Body zenn_no_digit) (item_of "u" "zenn"))
  = Some NaN
  /\ likeCount (enrichZennItem (fun _ => Body zenn_negative)
                  (item_of "u" "zenn"))
     = Some (Num (-5))
  /\ likeCount (enrichNoteItem (fun _ => Body note_commas) (item_of "u" "note"))
     = Some NaN
  /\ ~ valid_count (Some NaN) /\ ~ valid_count (Some (Num (-5))).
Proof.
  split; [vm_compute; reflexivity|]. split; [vm_compute; reflexivity|].
  split; [vm_compute; reflexivity|]. split; [intros []|].
  simpl. lia.
Qed.

(** ** The Qiita provider inside the engine *)

Lemma qiitaProvider_keeps_urls api s1 s2 : keeps_urls (qiitaProvider api s1 s2).
Proof.
  intros items out H. simpl in H.
  apply qiitaProvider_enrich_found in H.
  rewrite <- H, List.map_map. reflexivity.
Qed.

(** The search of the Qiita provider settles: its promise resolves when
    the tokens make a well-formed text, and rejects with the [URIError]
    otherwise. *)
Lemma qiitaProvider_search_settles api s1 s2 opts :
  exists found_ fetched,
    qiitaProvider_search api s1 opts = Some (found_, fetched)
    /\ search (qiitaProvider api s1 s2) opts = found_
    /\ if isWellFormed (join_sp (po_tokens opts))
       then exists items, found_ = Resolved items
       else found_ = Rejected URIError /\ fetched = [].
Proof.
  simpl. unfold qiitaProvider_search.
  destruct (isWellFormed (join_sp (po_tokens opts))); [|eauto 6].
  destruct (search_pages_total api s1 (join_sp (po_tokens opts))
              (maxDiscover opts) (ceil_div (maxDiscover opts) perPage)
              (Z.to_nat (ceil_div (maxDiscover opts) perPage)) 0 [] []
              ltac:(lia)) as [[foundItems fetched] Hrun].
  change (Z.of_nat 1) with 1 in Hrun. rewrite Hrun. eauto 6.
Qed.

(** Every page of [full_pages] repeats one URL: of the 500 items found, the
    pool keeps the first. *)
Example app_run_full_pages :
  runSearch (app_run full_pages None) [0]%nat
  = Resolved
      [{| found := qiita_item 1 0 sample_item;
          publishedAt := Some (str "2024-01-01T00:00:00+09:00");
          likeCount := Some (Num 42);
          viewCount := None |}].
Proof. vm_compute. reflexivity. Qed.

(** The application's run needs no assumption on the provider: the Qiita
    enrichment keeps the URLs, so the collection shown has no URL twice and
    at most 500 items, whatever the API answers. *)
Corollary app_run_distinct_urls api sig out :
  runSearch (app_run api sig) [0]%nat = Resolved out ->
  NoDup (List.map url_of out) /\ Z.of_nat (length out) <= 500.
Proof.
  intros Hrun. split.
  - apply (runSearch_urls_nodup (app_run api sig) [0]%nat); [|exact Hrun].
    constructor; [apply qiitaProvider_keeps_urls|constructor].
  - apply runSearch_resolved in Hrun as [_ ->].
    apply (slice0_length 500). lia.
Qed.

(** * Further properties of the code *)

(** ** The engine: quota, cancellation, the pool *)

(** X1: the quotas handed to the providers add up to at least [maxTotal]
    and to less than [maxTotal] plus the number of providers. *)
Theorem perProviderTarget_covers (total : Z) (ps : list Provider) :
  ps <> [] ->
  let n := Z.of_nat (length ps) in
  total <= n * perProviderTarget total ps < total + n.
Proof.
  intros Hps n. unfold perProviderTarget.
  assert (Hn : 0 < n) by (destruct ps; [congruence|simpl in n; lia]).
  fold n. rewrite Z.max_r by lia.
  pose proof (ceil_div_bounds total n Hn). lia.
Qed.

Lemma perProviderTarget_covers_witness :
  7 <= 2 * perProviderTarget 7 (providers two_providers) < 7 + 2.
Proof.
  apply (perProviderTarget_covers 7 (providers two_providers)). discriminate.
Defined.

(** X2: [runSearch] is all or nothing. A run that resolves does so with
    the first [maxTotal] items of the enrichment results, and the signal has
    not fired by the time the enrichments are through. With providers that
    keep to promises (no call throws, no promise is rejected with [null] or
    [undefined]) the signal decides alone: the run rejects, with the Aborted
    error, exactly when the signal has fired by then, be it before the
    start, while the searches are out or during enrichment; otherwise it
    resolves. *)
Theorem runSearch_all_or_nothing (opts : RunOptions) (settled : list nat) :
  (forall out,
     runSearch opts settled = Resolved out ->
     ~ fires_by (signal opts) (t_enriched opts)
     /\ out = slice0 (maxTotal opts) (enrichedFlat opts settled))
  /\ (Forall well_behaved (providers opts) ->
      (fires_by (signal opts) (t_enriched opts) <->
       runSearch opts settled = Rejected AbortError)
      /\ (~ fires_by (signal opts) (t_enriched opts) <->
          runSearch opts settled
          = Resolved (slice0 (maxTotal opts) (enrichedFlat opts settled)))).
Proof.
  assert (Hf : fires_by (signal opts) (t_enriched opts)
               <-> aborted (signal opts) (t_enriched opts) = true).
  { unfold fires_by, aborted. destruct (signal opts) as [k|].
    - rewrite Nat.leb_le. split; [intros (k' & [= <-] & H); exact H|eauto].
    - split; [intros (k' & [=] & _)|discriminate]. }
  split.
  - intros out H. apply runSearch_resolved in H as [E ->].
    split; [rewrite Hf; congruence|reflexivity].
  - intros Hwb. rewrite Hf.
    destruct (runSearch_well_behaved opts settled Hwb) as [[E ->]|[E ->]];
      rewrite E; split; split; try reflexivity; try discriminate;
      try congruence.
Qed.

Lemma runSearch_all_or_nothing_witness :
  fires_by (signal (with_signal two_providers (Some 2%nat)))
    (t_enriched (with_signal two_providers (Some 2%nat)))
  <-> runSearch (with_signal two_providers (Some 2%nat)) [0; 1]%nat
      = Rejected AbortError.
Proof.
  apply (proj2 (runSearch_all_or_nothing
                  (with_signal two_providers (Some 2%nat)) [0; 1]%nat)).
  constructor; [apply plain_well_behaved|].
  constructor; [apply plain_well_behaved|constructor].
Defined.

Section PoolGrowth.

Lemma merge_items_prefix stop items : forall pool,
  discovered pool `prefix_of` discovered (merge_items stop items pool).
Proof.
  induction items as [|item rest IH]; intros pool; simpl; [reflexivity|].
  destruct stop; [reflexivity|]. case_bool_decide; [apply IH|].
  etrans; [|apply IH]. simpl. apply prefix_app_r. reflexivity.
Qed.

Lemma merge_items_seen_grows stop items : forall pool,
  seenUrls pool ⊆ seenUrls (merge_items stop items pool).
Proof.
  induction items as [|item rest IH]; intros pool; simpl; [reflexivity|].
  destruct stop; [reflexivity|]. case_bool_decide; [apply IH|].
  etrans; [|apply IH]. simpl. set_solver.
Qed.

(** A batch whose URLs have all been seen changes nothing. *)
Lemma merge_items_all_seen stop items : forall pool,
  (forall x, In x items -> url x ∈ seenUrls pool) ->
  merge_items stop items pool = pool.
Proof.
  induction items as [|item rest IH]; intros pool Hseen; simpl; [reflexivity|].
  destruct stop; [reflexivity|].
  rewrite bool_decide_eq_true_2 by (apply Hseen; left; reflexivity).
  apply IH. intros x Hx. apply Hseen. right. exact Hx.
Qed.

Lemma merge_items_sees_all items : forall pool x,
  In x items -> url x ∈ seenUrls (merge_items false items pool).
Proof.
  induction items as [|item rest IH]; intros pool x Hin; [destruct Hin|].
  destruct Hin as [<-|Hx]; simpl.
  - case_bool_decide as Hs.
    + apply (merge_items_seen_grows false rest pool), Hs.
    + apply (merge_items_seen_grows false rest). simpl. set_solver.
  - case_bool_decide; apply IH, Hx.
Qed.

Lemma settle_all_prefix opts settled : forall t pool,
  discovered pool `prefix_of` discovered (settle_all opts settled t pool).
Proof.
  induction settled as [|i rest IH]; intros t pool; simpl; [reflexivity|].
  etrans; [|apply IH].
  destruct (calls_made (searchCalls opts) !! i) as [[its|r|r]|];
    try reflexivity.
  apply merge_items_prefix.
Qed.

End PoolGrowth.

(** X3: the pool only grows at its end. Whatever settles later, the items
    already in the pool stay, at their positions; and the same results
    coming in a second time change nothing. *)
Theorem pool_grows_at_the_end (opts : RunOptions) (settled later : list nat)
    (items : list FoundItem) (pool : Pool) (t : nat) :
  discovered (settle_all opts settled t pool)
    `prefix_of` discovered (settle_all opts (settled ++ later) t pool)
  /\ merge_items false items (merge_items false items pool)
     = merge_items false items pool.
Proof.
  split.
  - revert t pool. induction settled as [|i rest IH]; intros t pool; simpl.
    + apply settle_all_prefix.
    + apply IH.
  - apply merge_items_all_seen. intros x Hx. apply merge_items_sees_all, Hx.
Qed.

(** ** The engine: what enrichment lets through *)

Section Keyed.

Lemma key_of_is_Some ps f :
  is_Some (key_of ps f) <-> exists p, In p ps /\ id p = source f.
Proof.
  unfold key_of, find_provider. rewrite fmap_is_Some. split.
  - intros [[k p] H]. apply list_find_Some in H as (Hk & Hid & _).
    exists p. split; [|exact Hid].
    apply list_elem_of_In. eapply list_elem_of_lookup_2, Hk.
  - intros (p & Hp & Hid).
    apply (list_find_elem_of (fun q => id q = source f) ps p);
      [apply list_elem_of_In, Hp|exact Hid].
Qed.

Lemma merge_items_from stop items : forall pool x,
  In x (discovered (merge_items stop items pool)) ->
  In x (discovered pool) \/ In x items.
Proof.
  induction items as [|item rest IH]; intros pool x Hx; simpl in Hx;
    [left; exact Hx|].
  destruct stop; [left; exact Hx|].
  case_bool_decide.
  - apply IH in Hx as [Hx|Hx]; [left|right; right]; exact Hx.
  - apply IH in Hx as [Hx|Hx]; [|right; right; exact Hx].
    simpl in Hx. apply in_app_iff in Hx as [Hx|[<-|[]]];
      [left; exact Hx|right; left; reflexivity].
Qed.

Lemma settle_all_from opts settled : forall t pool x,
  In x (discovered (settle_all opts settled t pool)) ->
  In x (discovered pool)
  \/ exists i, In i settled /\ In x (contribution opts i).
Proof.
  induction settled as [|i rest IH]; intros t pool x Hx; simpl in Hx;
    [left; exact Hx|].
  apply IH in Hx as [Hx|(j & Hj & Hx)];
    [|right; exists j; split; [right; exact Hj|exact Hx]].
  unfold settle_search in Hx.
  destruct (calls_made (searchCalls opts) !! i) as [[items|r|r]|] eqn:Ec;
    try (left; exact Hx).
  apply merge_items_from in Hx as [Hx|Hx]; [left; exact Hx|].
  right. exists i. split; [left; reflexivity|].
  unfold contribution. rewrite Ec. exact Hx.
Qed.

(** What a provider brings into the run is nothing, or what its search
    resolved with. *)
Lemma contribution_cases opts i :
  contribution opts i = []
  \/ exists p items,
       providers opts !! i = Some p
       /\ search p (search_options opts) = Resolved items
       /\ contribution opts i = items.
Proof.
  unfold contribution.
  destruct (calls_made (searchCalls opts) !! i) as [[items|r|r]|] eqn:E;
    auto.
  right. apply calls_made_lookup in E as [E _].
  apply searchCalls_lookup in E as (p & Hp & Hs). eauto 6.
Qed.

(** Every item of the pool was found by the search of a provider. *)
Lemma discover_from opts settled x :
  In x (discovered (discover opts settled)) ->
  exists i p items,
    providers opts !! i = Some p
    /\ search p (search_options opts) = Resolved items /\ In x items.
Proof.
  intros Hx. apply settle_all_from in Hx as [[]|(i & _ & Hx)].
  unfold contribution in Hx.
  destruct (calls_made (searchCalls opts) !! i) as [[items|r|r]|] eqn:Ec;
    try (destruct Hx).
  apply calls_made_lookup in Ec as [Ec _].
  apply searchCalls_lookup in Ec as (p & Ep & Es).
  exists i, p, items. auto.
Qed.

Lemma enrichedFlat_urls opts settled :
  Forall keeps_urls (providers opts) ->
  List.map url_of (enrichedFlat opts settled)
  ≡ₚ List.map url
       (List.filter
          (fun f => bool_decide (is_Some (key_of (providers opts) f)))
          (discovered (discover opts settled))).
Proof.
  intros Hps. unfold enrichedFlat.
  destruct (itemsToEnrich_groups (providers opts)
              (discovered (discover opts settled))) as (_ & Hall & _).
  rewrite (enrichedChunks_urls _ _ _ Hps Hall).
  rewrite (itemsToEnrich_concat (providers opts)). reflexivity.
Qed.

Lemma filter_all {A} (f : A -> bool) (l : list A) :
  (forall x, In x l -> f x = true) -> List.filter f l = l.
Proof.
  induction l as [|x l IH]; intros H; simpl; [reflexivity|].
  rewrite (H x (or_introl eq_refl)), IH; [reflexivity|].
  intros y Hy. apply H. right. exact Hy.
Qed.

Lemma slice0_length_min {A} (e : Z) (l : list A) :
  0 <= e -> length (slice0 e l) = Nat.min (Z.to_nat e) (length l).
Proof.
  intros He. unfold slice0.
  destruct (e <? 0) eqn:E; [apply Z.ltb_lt in E; lia|].
  rewrite length_take. lia.
Qed.

End Keyed.

(** X4: with providers whose enrichment keeps the URLs, the URLs that come
    out of the enrichment step are those of the pool items whose source is
    the id of a configured provider, each once: an item with an unknown
    source is dropped, no other item is, and nothing is added. *)
Theorem enrichment_lets_through_the_known (opts : RunOptions)
    (settled : list nat) :
  Forall keeps_urls (providers opts) ->
  List.map url_of (enrichedFlat opts settled)
  ≡ₚ List.map url
       (List.filter
          (fun f => bool_decide (is_Some (key_of (providers opts) f)))
          (discovered (discover opts settled)))
  /\ (forall f, is_Some (key_of (providers opts) f) <->
                exists p, In p (providers opts) /\ id p = source f).
Proof.
  intros Hps. split; [apply enrichedFlat_urls, Hps|].
  intros f. apply key_of_is_Some.
Qed.

Lemma enrichment_lets_through_the_known_witness :
  List.map url_of (enrichedFlat two_providers [0; 1]%nat)
  ≡ₚ List.map url
       (List.filter
          (fun f => bool_decide (is_Some (key_of (providers two_providers) f)))
          (discovered (discover two_providers [0; 1]%nat))).
Proof.
  apply (enrichment_lets_through_the_known two_providers [0; 1]%nat).
  repeat constructor; apply plain_keeps_urls.
Defined.

(** X5: when every provider stamps its items with its own id and keeps the
    URLs in enrichment, a run that returns loses nothing but to the cap: the
    URLs after enrichment are the URLs of the pool, and the collection
    returned has [min(maxTotal, size of the pool)] items. *)
Theorem labelled_run_loses_nothing (opts : RunOptions) (settled : list nat)
    (out : list EnrichedItem) :
  Forall labels_items (providers opts) ->
  Forall keeps_urls (providers opts) ->
  0 <= maxTotal opts ->
  runSearch opts settled = Resolved out ->
  List.map url_of (enrichedFlat opts settled)
  ≡ₚ List.map url (discovered (discover opts settled))
  /\ length out
     = Nat.min (Z.to_nat (maxTotal opts))
         (length (discovered (discover opts settled))).
Proof.
  intros Hlab Hps Hmax Hrun.
  assert (Hflat : List.map url_of (enrichedFlat opts settled)
                  ≡ₚ List.map url (discovered (discover opts settled))).
  { rewrite (enrichedFlat_urls opts settled Hps), filter_all; [reflexivity|].
    intros f Hf. apply bool_decide_eq_true, key_of_is_Some.
    apply discover_from in Hf as (i & p & items & Hp & Hs & Hin).
    assert (Hpin : In p (providers opts))
      by (apply list_elem_of_In; eapply list_elem_of_lookup_2, Hp).
    exists p. split; [exact Hpin|].
    rewrite List.Forall_forall in Hlab. specialize (Hlab p Hpin _ _ Hs).
    rewrite List.Forall_forall in Hlab. symmetry. apply Hlab, Hin. }
  split; [exact Hflat|].
  apply runSearch_resolved in Hrun as [_ ->].
  rewrite slice0_length_min by exact Hmax.
  apply Permutation_length in Hflat. rewrite !length_map in Hflat.
  rewrite Hflat. reflexivity.
Qed.

Lemma provider_of_labels name items enriched :
  Forall (fun f => source f = str name) items ->
  labels_items (provider_of name (Resolved items) enriched).
Proof. intros H opts items' [= <-]. exact H. Qed.

Lemma labelled_run_loses_nothing_witness :
  List.map url_of (enrichedFlat two_providers [0; 1]%nat)
  ≡ₚ List.map url (discovered (discover two_providers [0; 1]%nat))
  /\ length (List.map unenriched
               [item_of "u1" "A"; item_of "u2" "A"; item_of "u3" "B"])
     = Nat.min (Z.to_nat (maxTotal two_providers))
         (length (discovered (discover two_providers [0; 1]%nat))).
Proof.
  apply (labelled_run_loses_nothing two_providers [0; 1]%nat).
  - repeat constructor; apply provider_of_labels; repeat constructor.
  - repeat constructor; apply plain_keeps_urls.
  - simpl. lia.
  - vm_compute. reflexivity.
Defined.

(** ** The search through the search engine *)

Section Ddg.

Variable get : SearchParams.
Variable source_ : JsString.

Lemma ddg_rows_spec M : forall results index foundItems,
  ddg_rows get M source_ index results foundItems
  = foundItems
    ++ take (Z.to_nat M - length foundItems)
         (ddg_hits get source_ index results).
Proof.
  induction results as [|r rest IH]; intros index foundItems; simpl.
  - rewrite take_nil, app_nil_r. reflexivity.
  - rewrite IH. destruct (M <=? Z.of_nat (length foundItems)) eqn:E.
    + apply Z.leb_le in E.
      replace (Z.to_nat M - length foundItems)%nat with 0%nat by lia.
      reflexivity.
    + apply Z.leb_gt in E.
      destruct (ddg_item get source_ index r) as [item|]; [|reflexivity].
      rewrite length_app. simpl.
      destruct (Z.to_nat M - length foundItems)%nat as [|d] eqn:Ed; [lia|].
      simpl. rewrite <- app_assoc. simpl. do 3 f_equal. lia.
Qed.

Lemma slice0_nil {A} (M : Z) : slice0 M (@nil A) = [].
Proof. unfold slice0. apply take_nil. Qed.

Lemma slice0_take {A} (M : Z) (l : list A) :
  slice0 M (take (Z.to_nat M) l) = take (Z.to_nat M) l.
Proof.
  destruct (Z.lt_ge_cases M 0) as [H|H].
  - replace (Z.to_nat M) with 0%nat by lia. simpl. apply slice0_nil.
  - apply slice0_all. rewrite length_take. lia.
Qed.

Lemma ddg_item_shape index r item :
  ddg_item get source_ index r = Some item ->
  source item = source_ /\ url item <> []
  /\ (exists t, title item = Some t /\ t <> [])
  /\ rank item = Some (index + 1) /\ raw item = None.
Proof.
  unfold ddg_item. destruct (truthy_opt _) as [link|]; [|discriminate].
  destruct (truthy_opt (get _ _)) as [u|] eqn:Eu; [|discriminate].
  destruct (truthy_opt (_ <$> _)) as [t|] eqn:Et; [|discriminate].
  intros [= <-]. simpl.
  assert (Hne : forall o (s : JsString), truthy_opt o = Some s -> s <> []).
  { intros [[|c s']|] s; simpl; try discriminate. intros [= <-]. discriminate. }
  split; [reflexivity|]. split; [apply (Hne _ _ Eu)|].
  split; [exists t; split; [reflexivity|apply (Hne _ _ Et)]|].
  split; reflexivity.
Qed.

Lemma ddg_hits_in : forall results index item,
  In item (ddg_hits get source_ index results) ->
  exists i r,
    results !! i = Some r
    /\ ddg_item get source_ (index + Z.of_nat i) r = Some item.
Proof.
  induction results as [|r rest IH]; intros index item H; simpl in H;
    [destruct H|].
  assert (Htail : In item (ddg_hits get source_ (index + 1) rest) ->
            exists i r',
              (r :: rest) !! i = Some r'
              /\ ddg_item get source_ (index + Z.of_nat i) r' = Some item).
  { intros H'. apply IH in H' as (i & r' & Hi & Hit).
    exists (S i), r'. split; [exact Hi|].
    rewrite <- Hit. f_equal. lia. }
  destruct (ddg_item get source_ index r) as [it|] eqn:E; [|auto].
  destruct H as [<-|H]; [|auto].
  exists 0%nat, r. split; [reflexivity|].
  rewrite <- E. f_equal. simpl. lia.
Qed.

Lemma ddg_hits_ranks_above : forall results index z,
  In z (ranks (ddg_hits get source_ index results)) -> index < z.
Proof.
  induction results as [|r rest IH]; intros index z H; simpl in H;
    [destruct H|].
  destruct (ddg_item get source_ index r) as [it|] eqn:E.
  - destruct (ddg_item_shape _ _ _ E) as (_ & _ & _ & Hr & _).
    unfold ranks in H. simpl in H. rewrite Hr in H. simpl in H.
    destruct H as [<-|H]; [lia|]. apply IH in H. lia.
  - apply IH in H. lia.
Qed.

Lemma ddg_hits_ranks_sorted : forall results index,
  StronglySorted Z.lt (ranks (ddg_hits get source_ index results)).
Proof.
  induction results as [|r rest IH]; intros index; simpl; [constructor|].
  destruct (ddg_item get source_ index r) as [it|] eqn:E; [|apply IH].
  destruct (ddg_item_shape _ _ _ E) as (_ & _ & _ & Hr & _).
  unfold ranks. simpl. rewrite Hr. simpl. constructor; [apply IH|].
  apply List.Forall_forall. intros z Hz.
  apply ddg_hits_ranks_above in Hz. lia.
Qed.

End Ddg.

Lemma ranks_take_sorted (n : nat) (items : list FoundItem) :
  StronglySorted Z.lt (ranks items) ->
  StronglySorted Z.lt (ranks (take n items)).
Proof.
  intros H. rewrite <- (take_drop n items) in H. unfold ranks in *.
  rewrite omap_app in H. apply StronglySorted_app_1_l in H. exact H.
Qed.

(** The search through the search engine, in closed form. *)
Lemma duckduckgoSiteSearch_closed (get : SearchParams) (ddg : Ddg)
    (site : JsString) (toks : list JsString) (maxResults : Z)
    (src : JsString) (sig : AbortSignal) :
  let query := str "site:" ++ site ++ 32%N :: join_sp toks in
  duckduckgoSiteSearch get ddg site toks maxResults src sig
  = if isWellFormed query then
      Resolved
        match ddg query with
        | Body results =>
            if aborted sig 0 then []
            else take (Z.to_nat maxResults) (ddg_hits get src 0 results)
        | _ => []
        end
    else Rejected URIError.
Proof.
  intros query. unfold duckduckgoSiteSearch. fold query.
  destruct (isWellFormed query); [|reflexivity].
  destruct (ddg query) as [e|st|e|results]; rewrite ?slice0_nil;
    try reflexivity.
  destruct (aborted sig 0); rewrite ?slice0_nil; [reflexivity|].
  rewrite ddg_rows_spec. simpl. rewrite Nat.sub_0_r, slice0_take.
  reflexivity.
Qed.

(** X6: the search through the search engine settles in one of two ways.
    When the query text is not well formed (a keyword holds a surrogate
    code unit that stands alone), [encodeURIComponent] throws before the
    [try] and the promise rejects with its [URIError], no page having been
    asked for.  Otherwise it resolves: with the first [maxResults] of the
    results that have a link, a target URL and a title, in the order of the
    page; and with nothing at all when the page cannot be fetched or read,
    when its status is not OK, or when the signal has fired by the time the
    page has come: a cancellation is not passed on as an error. *)
Theorem duckduckgoSiteSearch_first_hits (get : SearchParams) (ddg : Ddg)
    (site : JsString) (toks : list JsString) (maxResults : Z)
    (src : JsString) (sig : AbortSignal) :
  let query := str "site:" ++ site ++ 32%N :: join_sp toks in
  (isWellFormed query = false <->
   duckduckgoSiteSearch get ddg site toks maxResults src sig
   = Rejected URIError)
  /\ (isWellFormed query = true <->
      duckduckgoSiteSearch get ddg site toks maxResults src sig
      = Resolved
          match ddg query with
          | Body results =>
              if aborted sig 0 then []
              else take (Z.to_nat maxResults) (ddg_hits get src 0 results)
          | _ => []
          end)
  /\ (forall r, duckduckgoSiteSearch get ddg site toks maxResults src sig
                = Rejected r -> r = URIError)
  /\ (forall r, duckduckgoSiteSearch get ddg site toks maxResults src sig
                <> Threw r).
Proof.
  intros query.
  rewrite (duckduckgoSiteSearch_closed get ddg site toks maxResults src sig).
  fold query. destruct (isWellFormed query).
  - split; [split; discriminate|]. split; [split; reflexivity|].
    split; [discriminate|discriminate].
  - split; [split; reflexivity|]. split; [split; discriminate|].
    split; [intros r [= <-]; reflexivity|discriminate].
Qed.

(** X7: every item the search through the search engine returns carries the
    source it was asked for, a non-empty URL, a non-empty title, no payload,
    and as rank the position on the page (from 1) of the result it was made
    of; the ranks go up strictly along the list; there are at most
    [maxResults] items, none when [maxResults] is not positive. *)
Theorem duckduckgoSiteSearch_items (get : SearchParams) (ddg : Ddg)
    (site : JsString) (toks : list JsString) (maxResults : Z)
    (src : JsString) (sig : AbortSignal) (items : list FoundItem) :
  duckduckgoSiteSearch get ddg site toks maxResults src sig
  = Resolved items ->
  Forall (fun item =>
            source item = src /\ url item <> []
            /\ (exists t, title item = Some t /\ t <> [])
            /\ raw item = None
            /\ exists results i r,
                 ddg (str "site:" ++ site ++ 32%N :: join_sp toks)
                 = Body results
                 /\ results !! i = Some r
                 /\ ddg_item get src (Z.of_nat i) r = Some item
                 /\ rank item = Some (Z.of_nat i + 1))
    items
  /\ StronglySorted Z.lt (ranks items)
  /\ Z.of_nat (length items) <= Z.max 0 maxResults.
Proof.
  rewrite (duckduckgoSiteSearch_closed get ddg site toks maxResults src sig).
  cbv zeta. destruct (isWellFormed _); [|discriminate]. intros [= <-].
  destruct (ddg _) as [e|st|e|results] eqn:E;
    try (split; [constructor|split; [constructor|simpl; lia]]).
  destruct (aborted sig 0);
    [split; [constructor|split; [constructor|simpl; lia]]|].
  split; [|split].
  - apply List.Forall_forall. intros item Hin.
    apply list_elem_of_In, elem_of_take in Hin as (j & Hj & _).
    apply list_elem_of_lookup_2, list_elem_of_In, ddg_hits_in in Hj
      as (i & r & Hi & Hit).
    simpl in Hit.
    destruct (ddg_item_shape _ _ _ _ _ Hit) as (H1 & H2 & H3 & H4 & H5).
    repeat (split; [assumption|]).
    exists results, i, r. repeat split; assumption.
  - apply ranks_take_sorted, ddg_hits_ranks_sorted.
  - rewrite length_take. lia.
Qed.

Lemma duckduckgoSiteSearch_items_witness :
  StronglySorted Z.lt (ranks sample_hits)
  /\ Z.of_nat (length sample_hits) <= Z.max 0 10.
Proof.
  destruct (duckduckgoSiteSearch_items sample_get sample_ddg
              (str "zenn.dev") [str "rocq"] 10 (str "zenn") None
              sample_hits ltac:(vm_compute; reflexivity))
    as (_ & H1 & H2).
  split; [exact H1|exact H2].
Defined.

(** ** The providers against the engine's expectations *)

Section Providers.

Lemma aborted_later (s : AbortSignal) (t t' : nat) :
  (t <= t')%nat -> aborted s t = true -> aborted s t' = true.
Proof.
  intros Hle H. destruct (aborted s t') eqn:E; [reflexivity|].
  rewrite (aborted_mono s t' t Hle E) in H. discriminate.
Qed.

(** The loop over the items, in closed form: the two readings of the signal
    per item come down to one, at the last delay. *)
Lemma enrich_loop_closed f sig : forall items k acc,
  enrich_loop f sig k items acc
  = if match items with [] => false | _ => true end
       && aborted sig (2 * (k + length items) - 1)
    then Rejected AbortError
    else Resolved (acc ++ List.map f items).
Proof.
  induction items as [|item rest IH]; intros k acc; cbn [enrich_loop].
  - simpl. rewrite app_nil_r. reflexivity.
  - cbn [length andb].
    destruct (aborted sig (2 * k)) eqn:E1.
    { rewrite (aborted_later sig (2 * k)); [reflexivity|lia|exact E1]. }
    destruct (aborted sig (S (2 * k))) eqn:E2.
    { rewrite (aborted_later sig (S (2 * k))); [reflexivity|lia|exact E2]. }
    rewrite IH. cbn [List.map]. rewrite <- app_assoc. cbn [app].
    replace (2 * (S k + length rest) - 1)%nat
      with (2 * (k + S (length rest)) - 1)%nat by lia.
    destruct rest as [|item' rest']; [|reflexivity].
    cbn [andb length].
    replace (2 * (k + 1) - 1)%nat with (S (2 * k)) by lia.
    rewrite E2. reflexivity.
Qed.

Lemma map_throwing_closed {A B} (g : A -> B) (stop : bool) (l : list A) :
  map_throwing
    (fun x => if stop then Rejected AbortError else Resolved (g x)) l
  = if match l with [] => false | _ => true end && stop
    then Rejected AbortError
    else Resolved (List.map g l).
Proof.
  destruct stop.
  - destruct l; reflexivity.
  - rewrite andb_false_r. apply map_throwing_runs. reflexivity.
Qed.

Lemma qiitaProvider_enrich_closed sig items :
  qiitaProvider_enrich sig items
  = if match items with [] => false | _ => true end && aborted sig 0
    then Rejected AbortError
    else Resolved (List.map qiita_enriched items).
Proof. apply (map_throwing_closed qiita_enriched). Qed.

Lemma qiitaProvider_search_items api sig opts items fetched :
  qiitaProvider_search api sig opts = Some (Resolved items, fetched) ->
  exists k,
    fetched = List.map (page_request (join_sp (po_tokens opts))) (seq 1 k)
    /\ items
       = take (Z.to_nat (maxDiscover opts))
           (found_upto api (join_sp (po_tokens opts)) k).
Proof.
  unfold qiitaProvider_search.
  destruct (isWellFormed _); [|discriminate].
  destruct (search_pages _ _ _ _ _ _ _ _ _) as [[foundItems fetched']|] eqn:E;
    [|discriminate].
  intros [= <- <-].
  pose proof (search_pages_trace api sig (join_sp (po_tokens opts))
                (maxDiscover opts) (ceil_div (maxDiscover opts) perPage)
                (Z.to_nat (ceil_div (maxDiscover opts) perPage)) 0
                foundItems fetched') as Htrace.
  change (found_upto api (join_sp (po_tokens opts)) 0)
    with (@nil FoundItem) in Htrace.
  rewrite take_nil in Htrace.
  destruct (Htrace E) as (k & _ & -> & -> & _).
  exists k. split; [reflexivity|]. apply slice0_take.
Qed.

Lemma found_upto_source api q k :
  Forall (fun f => source f = str "qiita" /\ exists r, raw f = Some r
                   /\ url f = api_url r)
    (found_upto api q k).
Proof.
  apply List.Forall_forall. intros f Hf.
  apply found_upto_in in Hf as (p & idx & r & _ & _ & ->).
  split; [reflexivity|]. exists r. split; reflexivity.
Qed.

Lemma Forall_take {A} (P : A -> Prop) (n : nat) (l : list A) :
  Forall P l -> Forall P (take n l).
Proof.
  intros H. rewrite <- (take_drop n l) in H.
  apply Forall_app in H. apply H.
Qed.

Lemma qiitaProvider_found api s1 s2 opts items :
  search (qiitaProvider api s1 s2) opts = Resolved items ->
  Forall (fun f => source f = str "qiita" /\ exists r, raw f = Some r
                   /\ url f = api_url r) items
  /\ Z.of_nat (length items) <= Z.max 0 (maxDiscover opts).
Proof.
  simpl. destruct (qiitaProvider_search api s1 opts) as [[its fetched]|] eqn:E.
  - intros ->. apply qiitaProvider_search_items in E as (k & _ & ->).
    split; [apply Forall_take, found_upto_source|].
    rewrite length_take. lia.
  - intros [= <-]. split; [constructor|simpl; lia].
Qed.

(** The promises of the Qiita provider: the search rejects with the
    [URIError] only, the enrichment with the Aborted error only, and no call
    throws. *)
Lemma qiitaProvider_well_behaved api s1 s2 :
  well_behaved (qiitaProvider api s1 s2).
Proof.
  split; [|split; [|split]].
  - intros o r.
    destruct (qiitaProvider_search_settles api s1 s2 o)
      as (f & fetched & _ & -> & H).
    destruct (isWellFormed _); [destruct H as [items ->]|destruct H as [-> _]];
      discriminate.
  - intros o.
    destruct (qiitaProvider_search_settles api s1 s2 o)
      as (f & fetched & _ & -> & H).
    destruct (isWellFormed _); [destruct H as [items ->]|destruct H as [-> _]];
      discriminate.
  - intros items r. simpl. rewrite qiitaProvider_enrich_closed.
    destruct (_ && _); discriminate.
  - intros items. simpl. rewrite qiitaProvider_enrich_closed.
    destruct (_ && _); discriminate.
Qed.

(** Code units that are no surrogates do not bear on well-formedness. *)
Lemma isWellFormed_app_plain (pre s : JsString) :
  Forall (fun c => is_high_surrogate c = false
                   /\ is_low_surrogate c = false) pre ->
  isWellFormed (pre ++ s) = isWellFormed s.
Proof.
  induction 1 as [|c pre [Hh Hl] _ IH]; simpl; [reflexivity|].
  rewrite Hh, Hl. exact IH.
Qed.

(** The query text of a site search is well formed exactly when the
    keywords are, the name of the site holding no surrogate. *)
Lemma ddg_query_wellFormed (site : JsString) toks :
  Forall (fun c => is_high_surrogate c = false
                   /\ is_low_surrogate c = false) site ->
  isWellFormed (str "site:" ++ site ++ 32%N :: join_sp toks)
  = isWellFormed (join_sp toks).
Proof.
  intros Hsite.
  rewrite isWellFormed_app_plain
    by (repeat constructor; vm_compute; reflexivity).
  rewrite (isWellFormed_app_plain site) by exact Hsite.
  apply (isWellFormed_app_plain [32%N]).
  repeat constructor; vm_compute; reflexivity.
Qed.

Lemma ddg_provider_search get ddg (site : JsString) toks M src sig :
  Forall (fun c => is_high_surrogate c = false
                   /\ is_low_surrogate c = false) site ->
  (isWellFormed (join_sp toks) = true ->
   exists items,
     duckduckgoSiteSearch get ddg site toks M src sig = Resolved items
     /\ Forall (fun f => source f = src) items)
  /\ (isWellFormed (join_sp toks) = false ->
      duckduckgoSiteSearch get ddg site toks M src sig = Rejected URIError).
Proof.
  intros Hsite. rewrite duckduckgoSiteSearch_closed. cbv zeta.
  rewrite (ddg_query_wellFormed site toks Hsite).
  split; intros ->; [|reflexivity].
  eexists. split; [reflexivity|].
  destruct (ddg _); try constructor.
  destruct (aborted sig 0); [constructor|].
  apply Forall_take, List.Forall_forall. intros f Hf.
  apply ddg_hits_in in Hf as (i & r & _ & Hit).
  apply ddg_item_shape in Hit. apply Hit.
Qed.

Lemma plain_site (site : string) :
  forallb (fun c => negb (is_high_surrogate c) && negb (is_low_surrogate c))
    (str site) = true ->
  Forall (fun c => is_high_surrogate c = false
                   /\ is_low_surrogate c = false) (str site).
Proof.
  intros H. rewrite forallb_forall in H. apply List.Forall_forall.
  intros c Hc. specialize (H c Hc).
  apply andb_true_iff in H as [H1 H2].
  apply negb_true_iff in H1, H2. split; assumption.
Qed.

End Providers.

(** X8: each of the three providers of the repository meets what the engine
    relies on. It keeps to promises: no call of its methods throws and no
    promise of it is rejected with [null] or [undefined]. Its search promise
    resolves when the keywords make a well-formed text, the items found
    carrying the provider's own id as source, and rejects with the
    [URIError] of [encodeURIComponent] otherwise; its enrichment, when it
    resolves, answers the input items one for one, in order, each with its
    fields as they were and without a view count; and when it rejects, it is
    with the Aborted error. *)
Theorem repo_providers_contract (p : Provider) :
  repo_provider p ->
  labels_items p
  /\ well_behaved p
  /\ (forall opts,
        (isWellFormed (join_sp (po_tokens opts)) = true ->
         exists items, search p opts = Resolved items)
        /\ (isWellFormed (join_sp (po_tokens opts)) = false ->
            search p opts = Rejected URIError))
  /\ keeps_urls p
  /\ (forall items out,
        enrich p items = Resolved out ->
        List.map found out = items
        /\ Forall (fun e => viewCount e = None) out)
  /\ (forall items e, enrich p items = Rejected e -> e = AbortError).
Proof.
  assert (Hloop : forall f sig items,
            (forall item, found (f item) = item
                          /\ viewCount (f item) = None) ->
            (forall out, enrich_loop f sig 0 items [] = Resolved out ->
                         List.map found out = items
                         /\ Forall (fun e => viewCount e = None) out)
            /\ (forall e, enrich_loop f sig 0 items [] = Rejected e ->
                          e = AbortError)
            /\ (forall r, enrich_loop f sig 0 items [] <> Threw r)).
  { intros f sig items Hf. rewrite enrich_loop_closed.
    destruct (_ && _).
    - split; [intros out [=]|].
      split; [intros e [= <-]; reflexivity|discriminate].
    - split; [|split; [intros e [=]|discriminate]].
      intros out [= <-]. simpl. split.
      + apply map_found. intros item. apply Hf.
      + apply List.Forall_forall. intros e He.
        apply in_map_iff in He as (item & <- & _). apply Hf. }
  assert (Hurls : forall q : Provider,
            (forall items out, enrich q items = Resolved out ->
                               List.map found out = items) ->
            keeps_urls q).
  { intros q Hq items out H. apply Hq in H. rewrite <- H, List.map_map.
    reflexivity. }
  assert (Hz : forall web item,
            found (enrichZennItem web item) = item
            /\ viewCount (enrichZennItem web item) = None).
  { intros web item. split; [apply found_enrichZennItem|].
    unfold enrichZennItem. destruct (web (url item)); try reflexivity.
    destruct (zenn_ld b). reflexivity. }
  assert (Hn : forall web item,
            found (enrichNoteItem web item) = item
            /\ viewCount (enrichNoteItem web item) = None).
  { intros web item. split; [apply found_enrichNoteItem|].
    unfold enrichNoteItem. destruct (web (url item)); reflexivity. }
  assert (Hsite : forall (q : Provider) get ddg site src sig,
            Forall (fun c => is_high_surrogate c = false
                             /\ is_low_surrogate c = false) site ->
            id q = src ->
            (forall opts,
               search q opts
               = duckduckgoSiteSearch get ddg site (po_tokens opts)
                   (maxDiscover opts) src sig) ->
            labels_items q
            /\ (forall o r, search q o <> Threw r)
            /\ (forall o, search q o <> Rejected Nullish)
            /\ (forall opts,
                  (isWellFormed (join_sp (po_tokens opts)) = true ->
                   exists items, search q opts = Resolved items)
                  /\ (isWellFormed (join_sp (po_tokens opts)) = false ->
                      search q opts = Rejected URIError))).
  { intros q get ddg site src sig Hs Hid Hq.
    assert (Hcases : forall opts,
              (exists items, search q opts = Resolved items
                             /\ Forall (fun f => source f = src) items)
              \/ search q opts = Rejected URIError).
    { intros opts. rewrite Hq.
      destruct (ddg_provider_search get ddg site (po_tokens opts)
                  (maxDiscover opts) src sig Hs) as [H1 H2].
      destruct (isWellFormed (join_sp (po_tokens opts)));
        [left; apply H1|right; apply H2]; reflexivity. }
    split; [|split; [|split]].
    - intros opts items H.
      destruct (Hcases opts) as [(its & E & Hl)|E]; rewrite E in H;
        [|discriminate].
      injection H as <-. rewrite Hid. exact Hl.
    - intros o r H. destruct (Hcases o) as [(its & E & _)|E];
        rewrite E in H; discriminate.
    - intros o H. destruct (Hcases o) as [(its & E & _)|E];
        rewrite E in H; discriminate.
    - intros opts. rewrite Hq.
      destruct (ddg_provider_search get ddg site (po_tokens opts)
                  (maxDiscover opts) src sig Hs) as [H1 H2].
      split; [|exact H2].
      intros H. destruct (H1 H) as (items & E & _). eauto. }
  destruct 1 as [api s1 s2|get ddg web s1 s2|get ddg web s1 s2].
  - split; [|split; [|split; [|split; [|split]]]].
    + intros opts items H. apply qiitaProvider_found in H as [H _].
      eapply List.Forall_impl; [|exact H]. intros f [Hf _]. exact Hf.
    + apply qiitaProvider_well_behaved.
    + intros opts.
      destruct (qiitaProvider_search_settles api s1 s2 opts)
        as (f & fetched & _ & -> & H).
      split; intros E; rewrite E in H; [exact H|apply H].
    + apply qiitaProvider_keeps_urls.
    + intros items out H. simpl in H.
      rewrite qiitaProvider_enrich_closed in H.
      destruct (_ && _); [discriminate|]. injection H as <-. split.
      * apply map_found. reflexivity.
      * apply List.Forall_forall. intros e He.
        apply in_map_iff in He as (item & <- & _). reflexivity.
    + intros items e H. simpl in H.
      rewrite qiitaProvider_enrich_closed in H.
      destruct (_ && _); congruence.
  - destruct (Hsite (zennProvider get ddg web s1 s2) get ddg
                (str "zenn.dev") (str "zenn") s1
                (plain_site "zenn.dev" eq_refl) eq_refl
                ltac:(reflexivity)) as (Hl & Ht & Hnull & Hs).
    split; [exact Hl|]. split; [|split; [exact Hs|split; [|split]]].
    + split; [exact Ht|]. split; [exact Hnull|]. split.
      * intros items r. apply (Hloop _ s2 items (Hz web)).
      * intros items H. apply (Hloop _ s2 items (Hz web)) in H.
        discriminate H.
    + apply Hurls. intros items out H. apply (Hloop _ s2 items (Hz web)), H.
    + intros items out H. apply (Hloop _ s2 items (Hz web)), H.
    + intros items e H. apply (Hloop _ s2 items (Hz web)) in H. exact H.
  - destruct (Hsite (noteProvider get ddg web s1 s2) get ddg
                (str "note.com") (str "note") s1
                (plain_site "note.com" eq_refl) eq_refl
                ltac:(reflexivity)) as (Hl & Ht & Hnull & Hs).
    split; [exact Hl|]. split; [|split; [exact Hs|split; [|split]]].
    + split; [exact Ht|]. split; [exact Hnull|]. split.
      * intros items r. apply (Hloop _ s2 items (Hn web)).
      * intros items H. apply (Hloop _ s2 items (Hn web)) in H.
        discriminate H.
    + apply Hurls. intros items out H. apply (Hloop _ s2 items (Hn web)), H.
    + intros items out H. apply (Hloop _ s2 items (Hn web)), H.
    + intros items e H. apply (Hloop _ s2 items (Hn web)) in H. exact H.
Qed.

Lemma repo_providers_contract_witness :
  labels_items (qiitaProvider full_pages None None)
  /\ well_behaved (qiitaProvider full_pages None None)
  /\ keeps_urls (qiitaProvider full_pages None None).
Proof.
  destruct (repo_providers_contract (qiitaProvider full_pages None None)
              (repo_qiita full_pages None None)) as (H1 & H2 & _ & H3 & _).
  split; [exact H1|]. split; [exact H2|exact H3].
Defined.

(** X9: an enrichment is all or nothing, and in closed form. The Qiita
    enrichment reads the signal once: with items to enrich and the signal
    fired it rejects with the Aborted error, otherwise it resolves with the
    payload fields of every item. The Zenn and the Note enrichment, which
    read the signal before each item and during each delay, reject with the
    Aborted error exactly when there are items and the signal has fired by
    the end of the last delay, and otherwise resolve with every item
    scraped: never with a part of them. *)
Theorem enrich_all_or_abort :
  (forall sig items,
     qiitaProvider_enrich sig items
     = if match items with [] => false | _ => true end && aborted sig 0
       then Rejected AbortError
       else Resolved (List.map qiita_enriched items))
  /\ (forall web sig items,
        zennProvider_enrich web sig items
        = if match items with [] => false | _ => true end
             && aborted sig (2 * length items - 1)
          then Rejected AbortError
          else Resolved (List.map (enrichZennItem web) items))
  /\ (forall web sig items,
        noteProvider_enrich web sig items
        = if match items with [] => false | _ => true end
             && aborted sig (2 * length items - 1)
          then Rejected AbortError
          else Resolved (List.map (enrichNoteItem web) items)).
Proof.
  split; [|split].
  - intros sig items. apply (map_throwing_closed qiita_enriched).
  - intros web sig items. unfold zennProvider_enrich.
    rewrite enrich_loop_closed. reflexivity.
  - intros web sig items. unfold noteProvider_enrich.
    rewrite enrich_loop_closed. reflexivity.
Qed.

(** ** The Note scraper *)

Section Suki.

Lemma drop_while_ws_run ws rest :
  Forall (fun c => is_ws c = true) ws ->
  drop_while is_ws (ws ++ rest) = drop_while is_ws rest.
Proof.
  induction 1 as [|c ws Hc _ IH]; simpl; [reflexivity|].
  rewrite Hc. exact IH.
Qed.

Lemma drop_while_split {A} (f : A -> bool) (l : list A) :
  exists run, l = run ++ drop_while f l /\ Forall (fun x => f x = true) run.
Proof.
  induction l as [|x l (run & E & Hrun)]; simpl.
  - exists []. split; [reflexivity|constructor].
  - destruct (f x) eqn:Ex.
    + exists (x :: run). split; [simpl; f_equal; exact E|].
      constructor; assumption.
    + exists []. split; [reflexivity|constructor].
Qed.

Lemma take_while_split {A} (f : A -> bool) (l : list A) :
  exists rest, l = take_while f l ++ rest.
Proof.
  induction l as [|x l (rest & E)]; simpl; [exists []; reflexivity|].
  destruct (f x); [|exists (x :: l); reflexivity].
  exists rest. simpl. f_equal. exact E.
Qed.

Lemma is_count_char_not_ws c : is_count_char c = true -> is_ws c = false.
Proof.
  unfold is_count_char. intros [H|H]%orb_true_iff.
  - apply is_digit_not_ws, H.
  - apply N.eqb_eq in H. subst c. reflexivity.
Qed.

Lemma match_suki_found : forall text group,
  match_suki text = Some group -> has_count text.
Proof.
  induction text as [|c rest IH]; intros group H; simpl in H;
    [discriminate|].
  assert (Hlater : match_suki rest = Some group -> has_count (c :: rest)).
  { intros H'. destruct (IH _ H') as (pre & ws & c' & post & -> & Hws & Hc).
    exists (c :: pre), ws, c', post. auto. }
  destruct rest as [|c' after]; [discriminate H|].
  destruct ((c =? 12473)%N && (c' =? 12461)%N) eqn:Em; [|auto].
  destruct (take_while is_count_char (drop_while is_ws after))
    as [|g gs] eqn:E; [auto|].
  apply andb_true_iff in Em as [E1 E2].
  apply N.eqb_eq in E1, E2. subst c c'.
  destruct (drop_while_split is_ws after) as (ws & Eafter & Hws).
  destruct (take_while_split is_count_char (drop_while is_ws after))
    as (post & Epost).
  rewrite E in Epost. exists [], ws, g, (gs ++ post).
  split; [|split; [exact Hws|]].
  - simpl. do 2 f_equal. rewrite Eafter at 1. rewrite Epost. reflexivity.
  - pose proof (take_while_Forall is_count_char (drop_while is_ws after))
      as Hg.
    rewrite E in Hg. inversion Hg; assumption.
Qed.

Lemma match_suki_finds : forall pre ws c post,
  Forall (fun c => is_ws c = true) ws -> is_count_char c = true ->
  match_suki (pre ++ 12473%N :: 12461%N :: ws ++ c :: post) <> None.
Proof.
  induction pre as [|x pre IH]; intros ws c post Hws Hc.
  - cbn [app match_suki]. rewrite !N.eqb_refl. cbn [andb].
    rewrite drop_while_ws_run by exact Hws. cbn [drop_while].
    rewrite (is_count_char_not_ws c Hc). cbn [take_while]. rewrite Hc.
    discriminate.
  - cbn [app match_suki]. specialize (IH ws c post Hws Hc).
    destruct (pre ++ _) as [|c' after] eqn:E; [destruct pre; discriminate|].
    destruct ((x =? 12473)%N && (c' =? 12461)%N); [|exact IH].
    destruct (take_while _ _); [exact IH|discriminate].
Qed.

End Suki.

(** X10: on a page it could fetch, the Note scraper puts a like count in the
    item exactly when the text holds the marker followed by white space (or
    none) and a digit or a comma; what it puts is a non-negative integer, or
    [NaN], and never a negative number. *)
Theorem note_likeCount_read (web : Web NoteDoc) (item : FoundItem)
    (doc : NoteDoc) :
  web (url item) = Body doc ->
  (likeCount (enrichNoteItem web item) <> None <-> has_count (bodyText doc))
  /\ (valid_count (likeCount (enrichNoteItem web item))
      \/ likeCount (enrichNoteItem web item) = Some NaN)
  /\ (forall n, likeCount (enrichNoteItem web item) = Some (Num n) ->
                0 <= n).
Proof.
  intros Hweb.
  pose proof (note_likeCount_cases web item) as Hcases.
  split; [|split; [exact Hcases|]].
  - unfold enrichNoteItem. rewrite Hweb. cbn [likeCount].
    destruct (match_suki (bodyText doc)) as [group|] eqn:E.
    + split; [intros _; apply (match_suki_found _ _ E)|discriminate].
    + split; [congruence|]. intros (pre & ws & c & post & Ht & Hws & Hc).
      exfalso. apply (match_suki_finds pre ws c post Hws Hc).
      rewrite <- Ht. exact E.
  - intros n Hn. rewrite Hn in Hcases.
    destruct Hcases as [H|H]; [exact H|discriminate].
Qed.

Lemma note_likeCount_read_witness :
  likeCount (enrichNoteItem (fun _ => Body note_count) (item_of "u" "note"))
  <> None
  <-> has_count (bodyText note_count).
Proof.
  apply (note_likeCount_read (fun _ => Body note_count) (item_of "u" "note")
           note_count eq_refl).
Defined.

(** ** The Qiita search: ranks and edge cases *)

Section QiitaRanks.

Variable api : Api.
Variable q : JsString.

Lemma page_entries_rank page : forall data idx,
  List.map rank (page_entries page idx data)
  = List.map (fun i => Some ((page - 1) * 100 + idx + Z.of_nat i + 1))
      (seq 0 (length data)).
Proof.
  induction data as [|r data IH]; intros idx; simpl; [reflexivity|].
  f_equal.
  - unfold perPage. f_equal. lia.
  - rewrite IH, <- seq_shift, List.map_map. apply map_ext.
    intros i. f_equal. lia.
Qed.

Lemma found_upto_length_full k :
  (forall p, (1 <= p <= k)%nat -> length (page_items api q p) = 100%nat) ->
  length (found_upto api q k) = (100 * k)%nat.
Proof.
  induction k as [|k IH]; intros Hfull; [reflexivity|].
  rewrite found_upto_S, length_app, IH, page_entries_length, Hfull; try lia.
  intros p Hp. apply Hfull. lia.
Qed.

Lemma map_seq_from {B} (f : nat -> B) : forall n a,
  List.map f (seq a n) = List.map (fun i => f (a + i)%nat) (seq 0 n).
Proof.
  induction n as [|n IH]; intros a; simpl; [reflexivity|].
  rewrite Nat.add_0_r. f_equal.
  rewrite IH, <- seq_shift, List.map_map. apply map_ext.
  intros i. f_equal. lia.
Qed.

(** With every page but the last one full, the rank is the position. *)
Lemma found_upto_rank_position k :
  (forall p, (1 <= p < k)%nat -> length (page_items api q p) = 100%nat) ->
  List.map rank (found_upto api q k)
  = List.map (fun i => Some (Z.of_nat i))
      (seq 1 (length (found_upto api q k))).
Proof.
  induction k as [|k IH]; intros Hfull; [reflexivity|].
  rewrite found_upto_S, List.map_app, length_app, seq_app, List.map_app.
  rewrite IH by (intros p Hp; apply Hfull; lia). f_equal.
  rewrite page_entries_rank, page_entries_length.
  rewrite (found_upto_length_full k) by (intros p Hp; apply Hfull; lia).
  rewrite (map_seq_from (fun i => Some (Z.of_nat i))).
  apply map_ext. intros i. f_equal. lia.
Qed.

(** With no page longer than 100 items, the ranks go up strictly. *)
Lemma found_upto_ranks_sorted k :
  (forall p, (length (page_items api q p) <= 100)%nat) ->
  StronglySorted Z.lt (ranks (found_upto api q k))
  /\ Forall (fun z => 0 < z <= 100 * Z.of_nat k) (ranks (found_upto api q k)).
Proof.
  intros Hmax.
  assert (Hranks : forall l : list FoundItem, forall zs,
            List.map rank l = List.map Some zs -> ranks l = zs).
  { unfold ranks. induction l as [|x l IHl]; intros [|z zs] H; simpl in *;
      try discriminate; [reflexivity|].
    injection H as -> H. simpl. f_equal. apply IHl, H. }
  assert (Hpage : forall p,
            ranks (page_entries (Z.of_nat p) 0 (page_items api q p))
            = List.map (fun i => (Z.of_nat p - 1) * 100 + 0 + Z.of_nat i + 1)
                (seq 0 (length (page_items api q p)))).
  { intros p. apply Hranks. rewrite page_entries_rank, List.map_map.
    reflexivity. }
  induction k as [|k [IHs IHb]]; [split; constructor|].
  rewrite found_upto_S. unfold ranks in *. rewrite omap_app.
  fold (ranks (page_entries (Z.of_nat (S k)) 0 (page_items api q (S k)))).
  rewrite Hpage. specialize (Hmax (S k)).
  set (n := length (page_items api q (S k))) in *.
  assert (Hin : forall z,
            In z (List.map
                    (fun i => (Z.of_nat (S k) - 1) * 100 + 0 + Z.of_nat i + 1)
                    (seq 0 n)) ->
            100 * Z.of_nat k < z <= 100 * Z.of_nat (S k)).
  { intros z Hz. apply in_map_iff in Hz as (i & <- & Hi).
    apply in_seq in Hi. lia. }
  split.
  - apply StronglySorted_app_2; [|exact IHs|].
    + intros x1 x2 H1 H2. rewrite List.Forall_forall in IHb.
      apply list_elem_of_In, IHb in H1. apply list_elem_of_In, Hin in H2.
      lia.
    + clear Hin. generalize 0%nat as a.
      induction n as [|n IHn]; intros a; simpl; [constructor|].
      constructor; [apply IHn; lia|].
      apply List.Forall_forall. intros z Hz.
      apply in_map_iff in Hz as (i & <- & Hi). apply in_seq in Hi. lia.
  - apply Forall_app. split.
    + eapply List.Forall_impl; [|exact IHb]. simpl. intros z Hz. lia.
    + apply List.Forall_forall. intros z Hz. apply Hin in Hz. lia.
Qed.

End QiitaRanks.

Lemma ranks_length (l : list FoundItem) :
  Forall (fun f => is_Some (rank f)) l -> length (ranks l) = length l.
Proof.
  unfold ranks. induction 1 as [|f l [z Hz] _ IH]; simpl; [reflexivity|].
  rewrite Hz. simpl. f_equal. exact IH.
Qed.

(** X11: the ranks of the items the Qiita search returns. When no page the
    API answers is longer than the 100 items asked for, every item has a
    rank and the ranks go up strictly along the list; when moreover every
    page fetched before the last one is full, the rank of an item is its
    position in the list, counted from 1. *)
Theorem qiita_search_ranks (api : Api) (sig : AbortSignal)
    (opts : ProviderOptions) (items : list FoundItem)
    (fetched : list Request) :
  let q := join_sp (po_tokens opts) in
  qiitaProvider_search api sig opts = Some (Resolved items, fetched) ->
  (forall p, (length (page_items api q p) <= 100)%nat) ->
  StronglySorted Z.lt (ranks items)
  /\ length (ranks items) = length items
  /\ ((forall p, (1 <= p < length fetched)%nat ->
         length (page_items api q p) = 100%nat) ->
      List.map rank items
      = List.map (fun i => Some (Z.of_nat i)) (seq 1 (length items))).
Proof.
  intros q Hrun Hmax.
  apply qiitaProvider_search_items in Hrun as (k & -> & ->). fold q.
  split; [|split].
  - apply ranks_take_sorted, found_upto_ranks_sorted, Hmax.
  - apply ranks_length, Forall_take, List.Forall_forall. intros f Hf.
    apply found_upto_in in Hf as (p & idx & r & _ & _ & ->).
    simpl. eauto.
  - rewrite length_map, length_seq. intros Hfull.
    rewrite <- firstn_map, (found_upto_rank_position api q k Hfull).
    rewrite firstn_map, take_seq, length_take. reflexivity.
Qed.

Lemma qiita_search_ranks_witness :
  match qiitaProvider_search full_pages None (ask 3) with
  | Some (Resolved items, _) =>
      StronglySorted Z.lt (ranks items)
      /\ List.map rank items = [Some 1; Some 2; Some 3]
  | _ => True
  end.
Proof.
  destruct (qiitaProvider_search full_pages None (ask 3))
    as [[[items|r|r] fetched]|] eqn:E; try exact I.
  destruct (qiita_search_ranks full_pages None (ask 3) items fetched E)
    as (H1 & _ & H3).
  - intros p. cbv. repeat constructor.
  - split; [exact H1|]. rewrite H3 by (intros p _; reflexivity).
    vm_compute in E. injection E as <- _. reflexivity.
Defined.

(** X12: when the search of the Qiita provider has nothing to do. With
    keywords that make no well-formed text it rejects with the [URIError] of
    [encodeURIComponent], before any request. With keywords that do: without
    a positive [maxDiscover], or with a signal that has fired beforehand, it
    makes no request and returns no item; and when the first page cannot be
    had (the fetch or the reading of the body fails, the status is not OK,
    the body is no array or an empty one), it returns no item after that one
    request. *)
Theorem qiita_search_nothing_to_do (api : Api) (sig : AbortSignal)
    (opts : ProviderOptions) :
  let q := join_sp (po_tokens opts) in
  (isWellFormed q = false ->
   qiitaProvider_search api sig opts = Some (Rejected URIError, []))
  /\ (isWellFormed q = true ->
      maxDiscover opts <= 0 \/ aborted sig 0 = true ->
      qiitaProvider_search api sig opts = Some (Resolved [], []))
  /\ (isWellFormed q = true ->
      0 < maxDiscover opts -> aborted sig 0 = false ->
      page_items api q 1 = [] ->
      qiitaProvider_search api sig opts
      = Some (Resolved [], [page_request q 1])).
Proof.
  intros q. unfold qiitaProvider_search. fold q.
  split; [intros ->; reflexivity|]. split.
  - intros -> H.
    assert (Hc : (Z.of_nat (length (@nil FoundItem)) <? maxDiscover opts)
                 && (1 <=? ceil_div (maxDiscover opts) perPage)
                 && negb (aborted sig (t_loop 1)) = false).
    { destruct H as [H|H].
      - cbn [length]. change (Z.of_nat 0) with 0.
        replace (0 <? maxDiscover opts) with false; [reflexivity|].
        symmetry. apply Z.ltb_ge. exact H.
      - change (t_loop 1) with 0%nat. rewrite H, andb_false_r. reflexivity. }
    destruct (Z.to_nat _) as [|fuel]; cbn [search_pages]; rewrite Hc;
      rewrite slice0_nil; reflexivity.
  - intros -> HM Hsig Hnone.
    pose proof (ceil_div_bounds (maxDiscover opts) 100 ltac:(lia)) as Hb.
    change perPage with 100.
    destruct (Z.to_nat (ceil_div (maxDiscover opts) 100)) as [|fuel] eqn:Ef;
      [lia|].
    cbn [search_pages]. change (t_loop 1) with 0%nat. rewrite Hsig.
    replace (Z.of_nat (length (@nil FoundItem)) <? maxDiscover opts)
      with true by (symmetry; apply Z.ltb_lt; simpl; lia).
    replace (1 <=? ceil_div (maxDiscover opts) 100)
      with true by (symmetry; apply Z.leb_le; lia).
    cbn [andb negb]. unfold page_items, page_request in Hnone.
    change perPage with 100 in Hnone. change (Z.of_nat 1) with 1 in Hnone.
    destruct (api _) as [e|st|e|[|[|item rest]]]; try discriminate Hnone;
      rewrite slice0_nil; reflexivity.
Qed.

Lemma qiita_search_nothing_to_do_witness :
  qiitaProvider_search full_pages (Some 0%nat) (ask 250)
  = Some (Resolved [], [])
  /\ qiitaProvider_search (fun _ => NotOk 403) None (ask 250)
     = Some (Resolved [], [page_request (str "rocq proof") 1])
  /\ qiitaProvider_search full_pages None
       {| po_tokens := [[55296%N]]; maxDiscover := 250 |}
     = Some (Rejected URIError, []).
Proof.
  split; [|split].
  - apply (proj1 (proj2 (qiita_search_nothing_to_do full_pages (Some 0%nat)
                           (ask 250)))); [reflexivity|].
    right. reflexivity.
  - apply (proj2 (proj2 (qiita_search_nothing_to_do (fun _ => NotOk 403)
                           None (ask 250)))); reflexivity.
  - apply (proj1 (qiita_search_nothing_to_do full_pages None
                    {| po_tokens := [[55296%N]]; maxDiscover := 250 |})).
    reflexivity.
Defined.

(** ** The application's run, end to end *)

Section QiitaRun.

Lemma itemsToEnrich_single (p : Provider) (pool : list FoundItem) :
  (forall f, In f pool -> source f = id p) ->
  itemsToEnrichByProvider [p] pool
  = match pool with [] => [] | _ => [(0%nat, (p, pool))] end.
Proof.
  induction pool as [|x pool IH] using rev_ind; intros Hsrc; [reflexivity|].
  rewrite itemsToEnrich_snoc.
  assert (Hfind : find_provider [p] (source x) = Some (0%nat, p)).
  { unfold find_provider. simpl.
    rewrite decide_True; [reflexivity|].
    symmetry. apply Hsrc, in_or_app. right. left. reflexivity. }
  rewrite Hfind, IH by (intros f Hf; apply Hsrc, in_or_app; left; exact Hf).
  destruct pool as [|y pool]; reflexivity.
Qed.

Variable api : Api.
Variable s1 s2 : AbortSignal.
Variable toks : list JsString.
Variable sig : AbortSignal.

Let run := qiita_run api s1 s2 toks sig.
Let pool := discovered (discover run [0]%nat).

Lemma qiita_run_pool_items :
  Forall (fun f => source f = str "qiita"
                   /\ exists r, raw f = Some r /\ url f = api_url r) pool.
Proof.
  apply List.Forall_forall. intros f Hf.
  apply discover_from in Hf as (i & p & items & Hp & Hs & Hin).
  destruct i as [|i]; [|destruct i; discriminate Hp].
  injection Hp as <-. apply qiitaProvider_found in Hs as [Hs _].
  rewrite List.Forall_forall in Hs. apply Hs, Hin.
Qed.

Lemma qiita_run_pool_length :
  aborted sig (t_enriched run) = false -> (length pool <= 500)%nat.
Proof.
  intros Hsig.
  destruct (discover_pool_of run [0]%nat ltac:(reflexivity) Hsig)
    as (_ & _ & _ & Hsub).
  apply sublist_length in Hsub. fold pool in Hsub.
  unfold arrivals in Hsub. cbn [List.map concat] in Hsub.
  rewrite app_nil_r in Hsub.
  destruct (contribution_cases run 0) as [E|(p & items & Hp & Hs & E)];
    rewrite E in Hsub; [simpl in Hsub; lia|].
  injection Hp as <-. apply qiitaProvider_found in Hs as [_ Hlen].
  change (maxDiscover (search_options run)) with 500 in Hlen. lia.
Qed.

Lemma qiita_run_enrichedFlat :
  enrichedFlat run [0]%nat
  = if match pool with [] => false | _ => true end && aborted s2 0
    then List.map unenriched pool
    else List.map qiita_enriched pool.
Proof.
  unfold enrichedFlat. fold pool. change (providers run)
    with [qiitaProvider api s1 s2].
  rewrite itemsToEnrich_single.
  2:{ intros f Hf. pose proof qiita_run_pool_items as H.
      rewrite List.Forall_forall in H. apply H, Hf. }
  destruct pool as [|x l] eqn:Epool; [reflexivity|].
  cbn [enrichedChunks List.map concat]. rewrite app_nil_r.
  unfold chunk, enrich_group. cbn [snd].
  change (enrich (qiitaProvider api s1 s2)) with (qiitaProvider_enrich s2).
  rewrite qiitaProvider_enrich_closed.
  destruct (_ && _); reflexivity.
Qed.

End QiitaRun.

(** X13: what the application gets from a search. The collection returned
    is the pool of the Qiita search, item for item and in its order (the cap
    of 500 cuts nothing, the search being asked for 500 items); every item
    holds the API object it was made of, under the URL of that object, and
    no view count; and unless the signal has fired when the enrichment
    starts, its date and its like count are the [created_at] and the
    [likes_count] of that object. *)
Theorem qiita_run_shows_api_data (api : Api) (s1 s2 : AbortSignal)
    (toks : list JsString) (sig : AbortSignal) (out : list EnrichedItem) :
  let run := qiita_run api s1 s2 toks sig in
  runSearch run [0]%nat = Resolved out ->
  List.map found out = discovered (discover run [0]%nat)
  /\ Forall (fun e =>
               exists r,
                 raw (found e) = Some r /\ url (found e) = api_url r
                 /\ viewCount e = None
                 /\ (aborted s2 0 = false ->
                     publishedAt e = created_at r
                     /\ likeCount e = likes_count r))
       out.
Proof.
  intros run Hrun. apply runSearch_resolved in Hrun as [Hsig ->].
  pose proof (qiita_run_pool_length api s1 s2 toks sig Hsig) as Hlen.
  pose proof (qiita_run_pool_items api s1 s2 toks sig) as Hitems.
  fold run in Hlen, Hitems.
  assert (Hflat : enrichedFlat run [0]%nat
                  = List.map unenriched (discovered (discover run [0]%nat))
                  \/ (enrichedFlat run [0]%nat
                      = List.map qiita_enriched
                          (discovered (discover run [0]%nat)))).
  { unfold run. rewrite qiita_run_enrichedFlat.
    destruct (_ && _); [left|right]; reflexivity. }
  assert (Hcut : slice0 (maxTotal run) (enrichedFlat run [0]%nat)
                 = enrichedFlat run [0]%nat).
  { apply slice0_all. destruct Hflat as [-> | ->]; rewrite length_map;
      simpl; lia. }
  rewrite Hcut. split.
  - destruct Hflat as [-> | ->]; apply map_found; reflexivity.
  - assert (Hab : aborted s2 0 = false ->
              enrichedFlat run [0]%nat
              = List.map qiita_enriched (discovered (discover run [0]%nat))).
    { intros Hs2. unfold run. rewrite qiita_run_enrichedFlat, Hs2.
      rewrite andb_false_r. reflexivity. }
    apply List.Forall_forall. intros e He.
    rewrite List.Forall_forall in Hitems.
    assert (Hfound : In (found e) (discovered (discover run [0]%nat))
                     /\ viewCount e = None).
    { destruct Hflat as [E|E]; rewrite E in He;
        apply in_map_iff in He as (f & <- & Hf); split; auto. }
    destruct Hfound as [Hf Hv].
    destruct (Hitems _ Hf) as (_ & r & Hr & Hu).
    exists r. split; [exact Hr|]. split; [exact Hu|]. split; [exact Hv|].
    intros Hs2. rewrite (Hab Hs2) in He.
    apply in_map_iff in He as (f & <- & _). simpl in Hr |- *.
    rewrite Hr. split; reflexivity.
Qed.

Lemma qiita_run_shows_api_data_witness :
  let run := qiita_run full_pages None None [str "rocq"] None in
  let out := [qiita_enriched (qiita_item 1 0 sample_item)] in
  List.map found out = discovered (discover run [0]%nat)
  /\ Forall (fun e =>
               exists r,
                 raw (found e) = Some r /\ url (found e) = api_url r
                 /\ viewCount e = None
                 /\ (aborted None 0 = false ->
                     publishedAt e = created_at r
                     /\ likeCount e = likes_count r))
       out.
Proof.
  apply (qiita_run_shows_api_data full_pages None None [str "rocq"] None).
  vm_compute. reflexivity.
Defined.

(** ** The tokenizer and the queries built from the tokens *)

Section TokensAndQueries.

Lemma tokenize_nil_iff q :
  tokenize q = [] <-> Forall (fun c => is_sep c = true) q.
Proof.
  pose proof (concat_split_run q false []) as Hcat.
  rewrite <- concat_filter_truthy in Hcat. fold (split_seps q) in Hcat.
  rewrite <- tokenize_pieces in Hcat. simpl in Hcat.
  pose proof (filter_truthy_nonempty (split_seps q)) as Hne.
  rewrite <- tokenize_pieces in Hne. split.
  - intros E. rewrite E in Hcat. simpl in Hcat. clear - Hcat.
    induction q as [|c q IH]; [constructor|]. simpl in Hcat.
    destruct (is_sep c) eqn:Ec; simpl in Hcat; [|discriminate].
    constructor; [exact Ec|apply IH; exact Hcat].
  - intros Hall.
    assert (Hnil : List.filter (fun c => negb (is_sep c)) q = []).
    { clear - Hall. induction Hall as [|c q Hc _ IH]; simpl; [reflexivity|].
      rewrite Hc. exact IH. }
    rewrite Hnil in Hcat. destruct (tokenize q) as [|t ts]; [reflexivity|].
    inversion Hne as [|? ? Ht _]; subst. destruct t; [congruence|].
    discriminate.
Qed.

Lemma drop_while_nil_iff {A} (f : A -> bool) (l : list A) :
  drop_while f l = [] <-> Forall (fun x => f x = true) l.
Proof.
  induction l as [|x l IH]; simpl; [split; [constructor|reflexivity]|].
  destruct (f x) eqn:E.
  - rewrite IH. split; [constructor; assumption|].
    intros H. inversion H; assumption.
  - split; [discriminate|]. intros H. inversion H; congruence.
Qed.

Lemma trim_nil_iff q : trim q = [] <-> Forall (fun c => is_ws c = true) q.
Proof.
  unfold trim. split.
  - intros H. apply (f_equal (@rev N)) in H. rewrite rev_involutive in H.
    simpl in H. apply drop_while_nil_iff, Forall_rev in H.
    rewrite rev_involutive in H.
    destruct (drop_while_split is_ws q) as (run & E & Hrun).
    rewrite E. apply Forall_app. split; assumption.
  - intros H. apply drop_while_nil_iff in H. rewrite H. reflexivity.
Qed.

Lemma tokenize_join_tokens : forall toks,
  Forall (fun t => t <> [] /\ sep_free t) toks ->
  tokenize (join_sp toks) = toks.
Proof.
  induction toks as [|t rest IH]; intros H; [reflexivity|].
  inversion H as [|? ? [Ht Hfree] Hrest]; subst.
  assert (Hone : List.filter truthy_str (split_run false [] t) = [t]).
  { rewrite split_run_sep_free_input by exact Hfree. simpl.
    destruct t; [congruence|reflexivity]. }
  destruct rest as [|t' rest'].
  - simpl. rewrite tokenize_pieces. exact Hone.
  - change (join_sp (t :: t' :: rest'))
      with (t ++ 32%N :: join_sp (t' :: rest')).
    rewrite tokenize_pieces. unfold split_seps.
    rewrite split_run_at_sep by (reflexivity || discriminate).
    rewrite Hone. fold (split_seps (join_sp (t' :: rest'))).
    rewrite <- tokenize_pieces, IH by exact Hrest. reflexivity.
Qed.

Lemma tokenize_tokens q :
  Forall (fun t => t <> [] /\ sep_free t) (tokenize q).
Proof.
  apply Forall_and. split.
  - rewrite tokenize_pieces. apply filter_truthy_nonempty.
  - rewrite tokenize_pieces. apply List.Forall_forall. intros t Ht.
    apply filter_In in Ht as [Ht _].
    pose proof (split_run_sep_free q false [] (List.Forall_nil _)) as Hp.
    rewrite List.Forall_forall in Hp. apply Hp. exact Ht.
Qed.

End TokensAndQueries.

(** X14: joining tokens with a space, as the Qiita query and the query to
    the search engine do, loses nothing: tokenizing the joined text gives the
    tokens back, whenever no token is empty or holds white space or an
    ampersand; so it is for the tokens [tokenize] returns. *)
Theorem tokenize_join (q : JsString) (toks : list JsString) :
  (Forall (fun t => t <> [] /\ sep_free t) toks ->
   tokenize (join_sp toks) = toks)
  /\ tokenize (join_sp (tokenize q)) = tokenize q.
Proof.
  split.
  - apply tokenize_join_tokens.
  - apply tokenize_join_tokens, tokenize_tokens.
Qed.

Lemma tokenize_join_witness :
  tokenize (join_sp [str "rocq"; str "proof"]) = [str "rocq"; str "proof"].
Proof.
  apply (proj1 (tokenize_join [] [str "rocq"; str "proof"])).
  repeat constructor; discriminate.
Defined.

(** X15: the guard of [handleStartSearch] and the tokenizer do not agree on
    what an empty query is. A query passes the guard and still has no token
    exactly when it is made of white space and ampersands only and holds an
    ampersand; a query the guard turns down never has a token. *)
Theorem blank_query_and_tokens (q : JsString) :
  (trim q <> [] /\ tokenize q = []
   <-> Forall (fun c => is_sep c = true) q /\ In 38%N q)
  /\ (trim q = [] -> tokenize q = []).
Proof.
  rewrite tokenize_nil_iff, trim_nil_iff.
  assert (Hws : forall c, is_ws c = true -> is_sep c = true)
    by (intros c H; unfold is_sep; rewrite H; reflexivity).
  split; [split|].
  - intros [Hnot Hall]. split; [exact Hall|].
    induction Hall as [|c l Hc _ IH]; [exfalso; apply Hnot; constructor|].
    destruct (is_ws c) eqn:Ec.
    + right. apply IH. intros H. apply Hnot. constructor; assumption.
    + left. unfold is_sep in Hc. rewrite Ec in Hc. simpl in Hc.
      apply N.eqb_eq in Hc. congruence.
  - intros [Hall Hin]. split; [|exact Hall]. intros H.
    rewrite List.Forall_forall in H. specialize (H _ Hin). discriminate H.
  - intros H. eapply List.Forall_impl; [|exact H]. exact Hws.
Qed.

Lemma blank_query_and_tokens_witness :
  trim (str " & ") <> [] /\ tokenize (str " & ") = [].
Proof.
  apply (proj1 (blank_query_and_tokens (str " & "))). split.
  - repeat constructor.
  - right. left. reflexivity.
Defined.

(** ** App.tsx: the search handler *)

Section StartSearch.

Variable api : Api.
Variable s1 s2 : AbortSignal.
Variable stop : option nat.
Variable st : AppState.

Let signal_ := S <$> stop.
Let opts := qiita_run api s1 s2 (tokenize (query st)) signal_.
Let st' := handleStartSearch api s1 s2 stop st.

Lemma fresh_signal_not_fired : aborted signal_ 0 = false.
Proof. unfold signal_. destruct stop; reflexivity. Qed.

(** The three ways the handler ends once the guard is passed. *)
Lemma handleStartSearch_cases :
  trim (query st) <> [] ->
  (aborted signal_ (t_returned opts) = true
   /\ foundItems st' = [] /\ selectedUrls st' = ∅
   /\ status st' = stopped /\ statusText st' = text_stopped)
  \/ (aborted signal_ (t_returned opts) = false
      /\ runSearch opts [0]%nat = Resolved (foundItems st')
      /\ selectedUrls st' = list_to_set (List.map url_of (foundItems st'))
      /\ status st' = finished /\ statusText st' = text_searching).
Proof.
  intros Hq. unfold st', handleStartSearch.
  rewrite bool_decide_eq_false_2 by exact Hq.
  fold signal_. fold opts.
  assert (Hwb : Forall well_behaved (providers opts))
    by (constructor; [apply qiitaProvider_well_behaved|constructor]).
  destruct (runSearch_well_behaved opts [0]%nat Hwb) as [[E ->]|[E ->]].
  - left. change (is_abort_error AbortError) with true. simpl.
    split; [|auto].
    apply (aborted_later _ (t_enriched opts)); [unfold t_returned; lia|].
    exact E.
  - destruct (aborted signal_ (t_returned opts)) eqn:E'; simpl.
    + left. auto.
    + right. auto.
Qed.

End StartSearch.

(** X16: what [handleStartSearch] leaves behind. On a blank query nothing
    changes but the message. Otherwise the handler ends in the state
    finished or stopped, never with the error message: it is finished
    exactly when the stop button was not pressed before the handler read the
    signal for the last time. A stopped search shows no item and selects
    none. A finished one shows at most 500 items, no URL twice, selects the
    URL of every item shown, and the select-all box is checked exactly when
    there is an item. *)
Theorem handleStartSearch_outcome (api : Api) (s1 s2 : AbortSignal)
    (stop : option nat) (st : AppState) :
  let st' := handleStartSearch api s1 s2 stop st in
  query st' = query st /\ maxResults st' = maxResults st
  /\ sortConfig st' = sortConfig st /\ copied st' = copied st
  /\ (trim (query st) = [] ->
      foundItems st' = foundItems st /\ selectedUrls st' = selectedUrls st
      /\ status st' = status st /\ statusText st' = text_enter_keyword)
  /\ (trim (query st) <> [] ->
      (status st' = finished \/ status st' = stopped)
      /\ statusText st' <> text_error
      /\ (status st' = finished <-> ~ fires_by (S <$> stop) 4)
      /\ (status st' = stopped ->
          foundItems st' = [] /\ selectedUrls st' = ∅)
      /\ (status st' = finished ->
          (length (foundItems st') <= 500)%nat
          /\ NoDup (List.map url_of (foundItems st'))
          /\ selectedUrls st'
             = list_to_set (List.map url_of (foundItems st'))
          /\ isAllSelected (foundItems st') (selectedUrls st')
             = match foundItems st' with [] => false | _ => true end)).
Proof.
  intros st'.
  assert (Hsame : query st' = query st /\ maxResults st' = maxResults st
                  /\ sortConfig st' = sortConfig st
                  /\ copied st' = copied st).
  { unfold st', handleStartSearch. case_bool_decide; [repeat split|].
    destruct (runSearch _ _) as [out|r|r];
      [destruct (aborted _ _)|destruct (is_abort_error r)
      |destruct (is_abort_error r)];
      repeat split. }
  destruct Hsame as (H1 & H2 & H3 & H4).
  split; [exact H1|]. split; [exact H2|]. split; [exact H3|].
  split; [exact H4|]. split.
  - intros Hq. unfold st', handleStartSearch.
    rewrite bool_decide_eq_true_2 by exact Hq. repeat split.
  - intros Hq.
    assert (Hfires : fires_by (S <$> stop) 4
                     <-> aborted (S <$> stop)
                           (t_returned
                              (qiita_run api s1 s2 (tokenize (query st))
                                 (S <$> stop))) = true).
    { change (t_returned _) with 4%nat. unfold fires_by, aborted.
      destruct (S <$> stop) as [k|].
      - rewrite Nat.leb_le. split; [intros (k' & [= <-] & H); exact H|eauto].
      - split; [intros (k' & [=] & _)|discriminate]. }
    destruct (handleStartSearch_cases api s1 s2 stop st Hq)
      as [(E & Hf & Hs & Hst & Htx)|(E & Hrun & Hs & Hst & Htx)];
      fold st' in Hf, Hs, Hst, Htx || fold st' in Hrun, Hs, Hst, Htx.
    + rewrite Hst, Htx. split; [right; reflexivity|].
      split; [discriminate|]. split.
      * split; [discriminate|]. intros Hn. exfalso. apply Hn, Hfires, E.
      * split; [intros _; split; assumption|discriminate].
    + rewrite Hst, Htx. split; [left; reflexivity|].
      split; [discriminate|]. split.
      * split; [|reflexivity]. intros _ Hf. apply Hfires in Hf. congruence.
      * split; [discriminate|]. intros _.
        assert (Hnd : NoDup (List.map url_of (foundItems st'))).
        { apply (runSearch_urls_nodup
                   (qiita_run api s1 s2 (tokenize (query st)) (S <$> stop))
                   [0]%nat); [|exact Hrun].
          constructor; [apply qiitaProvider_keeps_urls|constructor]. }
        assert (Hlen : (length (foundItems st') <= 500)%nat).
        { apply runSearch_resolved in Hrun as [_ Hout]. rewrite Hout.
          pose proof (slice0_length 500
                        (enrichedFlat
                           (qiita_run api s1 s2 (tokenize (query st))
                              (S <$> stop)) [0]%nat) ltac:(lia)) as Hl.
          simpl. lia. }
        split; [exact Hlen|]. split; [exact Hnd|]. split; [exact Hs|].
        unfold isAllSelected. rewrite Hs, size_list_to_set by exact Hnd.
        rewrite length_map, Nat.eqb_refl, andb_true_r.
        destruct (foundItems st'); reflexivity.
Qed.

Lemma handleStartSearch_outcome_witness :
  let st' :=
    handleStartSearch full_pages None None None (initial_state (str "rocq")) in
  (status st' = finished \/ status st' = stopped)
  /\ statusText st' <> text_error.
Proof.
  intros st'.
  destruct (handleStartSearch_outcome full_pages None None None
              (initial_state (str "rocq")))
    as (_ & _ & _ & _ & _ & H).
  destruct (H ltac:(vm_compute; discriminate)) as (Ha & Hb & _).
  split; [exact Ha|exact Hb].
Defined.

(** ** App.tsx: selection, copy, ordering *)

Section Selection.

Lemma handleSelectRow_elem (u v : JsString) (selected : gset JsString) :
  v ∈ handleSelectRow u selected
  <-> (v = u /\ u ∉ selected) \/ (v <> u /\ v ∈ selected).
Proof.
  unfold handleSelectRow. case_bool_decide as H.
  - rewrite elem_of_difference, elem_of_singleton. split.
    + intros [Hv Hne]. right. auto.
    + intros [[-> Hn]|[Hne Hv]]; [contradiction|auto].
  - rewrite elem_of_union, elem_of_singleton. split.
    + intros [->|Hv]; [left; auto|].
      right. split; [|exact Hv]. intros ->. contradiction.
    + intros [[-> _]|[_ Hv]]; auto.
Qed.

Lemma join_with_nil_iff (sep : N) (parts : list JsString) :
  join_with sep parts = [] <-> parts = [] \/ parts = [[]].
Proof.
  destruct parts as [|t [|t' rest]]; simpl.
  - split; auto.
  - split; [intros ->; auto|]. intros [H|H]; congruence.
  - split; [intros H; apply app_eq_nil in H as [_ H]; discriminate|].
    intros [H|H]; discriminate.
Qed.

End Selection.

(** X17: the selection. Clicking a row twice leaves the selection as it
    was, and one click changes the row clicked and no other. When the items
    shown have pairwise distinct URLs and only URLs shown are selected, the
    select-all box is checked exactly when there is an item and every item
    is selected; the handlers keep the selection among the URLs shown. *)
Theorem selection_and_select_all (items : list EnrichedItem)
    (selected : gset JsString) (u : JsString) (checked : bool) :
  NoDup (List.map url_of items) ->
  selected ⊆ list_to_set (List.map url_of items) ->
  handleSelectRow u (handleSelectRow u selected) = selected
  /\ (forall v, v ∈ handleSelectRow u selected
                <-> (v = u /\ u ∉ selected) \/ (v <> u /\ v ∈ selected))
  /\ (isAllSelected items selected = true
      <-> items <> [] /\ forall e, In e items -> url_of e ∈ selected)
  /\ (In u (List.map url_of items) ->
      handleSelectRow u selected ⊆ list_to_set (List.map url_of items))
  /\ handleSelectAll checked items ⊆ list_to_set (List.map url_of items)
  /\ isAllSelected items (handleSelectAll true items)
     = match items with [] => false | _ => true end.
Proof.
  intros Hnd Hsub.
  split; [|split; [intros v; apply handleSelectRow_elem|
                   split; [|split; [|split]]]].
  - apply set_eq. intros v. rewrite !handleSelectRow_elem.
    destruct (decide (v = u)) as [->|Hne]; [|tauto].
    destruct (decide (u ∈ selected)); tauto.
  - unfold isAllSelected. rewrite andb_true_iff, Nat.ltb_lt, Nat.eqb_eq.
    assert (Hsz : size (list_to_set (List.map url_of items) : gset JsString)
                  = length items).
    { rewrite size_list_to_set by exact Hnd. apply length_map. }
    rewrite <- Hsz at 2.
    split.
    + intros [Hpos Hsize]. split; [destruct items; [simpl in Hpos; lia|
                                                     discriminate]|].
      intros e He.
      assert (Heq : selected ≡ list_to_set (List.map url_of items)).
      { apply set_subseteq_size_equiv; [exact Hsub|]. rewrite Hsize.
        reflexivity. }
      apply Heq, elem_of_list_to_set, list_elem_of_In, in_map, He.
    + intros [Hne Hall]. split; [destruct items; [congruence|simpl; lia]|].
      f_equal. apply set_eq. intros v. split; [apply Hsub|].
      intros Hv. apply elem_of_list_to_set, list_elem_of_In, in_map_iff in Hv
        as (e & <- & He). apply Hall, He.
  - intros Hu v Hv. apply handleSelectRow_elem in Hv as [[-> _]|[_ Hv]].
    + apply elem_of_list_to_set, list_elem_of_In, Hu.
    + apply Hsub, Hv.
  - destruct checked; simpl; [reflexivity|apply empty_subseteq].
  - unfold isAllSelected, handleSelectAll.
    rewrite size_list_to_set by exact Hnd.
    rewrite length_map, Nat.eqb_refl, andb_true_r.
    destruct items; reflexivity.
Qed.

(** X18: what [handleCopy] copies: URLs of items shown, in the order shown,
    each of them selected, never more than the copy limit (50 or 300), and
    all the selected ones shown when they are no more than the limit; the
    text written is these URLs joined by line feeds, and nothing is written
    when there is none of them (or one that is the empty text). *)
Theorem handleCopy_copies (sortedItems : list EnrichedItem)
    (selected : gset JsString) (m : MaxResults) :
  let shown :=
    List.filter (fun item => bool_decide (url_of item ∈ selected))
      sortedItems in
  let urls := urlsToCopy sortedItems selected m in
  Z.of_nat (length urls) <= limit m
  /\ Forall (fun v => v ∈ selected) urls
  /\ urls `sublist_of` List.map url_of sortedItems
  /\ (Z.of_nat (length shown) <= limit m -> urls = List.map url_of shown)
  /\ (handleCopy sortedItems selected m = None
      <-> urls = [] \/ urls = [[]])
  /\ (forall text, handleCopy sortedItems selected m = Some text ->
                   text = join_with 10 urls).
Proof.
  intros shown urls. unfold urls, urlsToCopy. fold shown.
  assert (Hlim : 0 <= limit m) by (destruct m; simpl; lia).
  destruct (slice0_prefix (limit m) shown) as [k Hk].
  split; [|split; [|split; [|split; [|split]]]].
  - rewrite length_map. apply slice0_length, Hlim.
  - apply List.Forall_forall. intros v Hv.
    apply in_map_iff in Hv as (e & <- & He). rewrite Hk in He.
    apply list_elem_of_In, elem_of_take in He as (i & Hi & _).
    apply list_elem_of_lookup_2, list_elem_of_In, filter_In in Hi as [_ Hi].
    apply bool_decide_eq_true in Hi. exact Hi.
  - apply (fmap_sublist url_of). rewrite Hk.
    etrans; [apply sublist_take|apply filter_sublist].
  - intros Hlen. rewrite slice0_all by exact Hlen. reflexivity.
  - unfold handleCopy. fold (urlsToCopy sortedItems selected m).
    rewrite <- (join_with_nil_iff 10). unfold urlsToCopy. fold shown.
    destruct (join_with 10 _); simpl; split; congruence.
  - unfold handleCopy. fold (urlsToCopy sortedItems selected m).
    unfold urlsToCopy. fold shown.
    destruct (join_with 10 _); simpl; congruence.
Qed.

(** X19: clicking a column header. The configuration takes the key
    clicked; on the key already in use the direction flips, so that a second
    click brings the configuration back; on the other key the direction is
    descending, whatever it was. *)
Theorem handleSort_toggles (k : SortKey) (cfg : SortConfig) :
  key (handleSort k cfg) = k
  /\ (key cfg = k ->
      direction (handleSort k cfg) <> direction cfg
      /\ handleSort k (handleSort k cfg) = cfg)
  /\ (key cfg <> k -> direction (handleSort k cfg) = desc)
  /\ handleSort k (handleSort k (handleSort k cfg)) = handleSort k cfg.
Proof.
  destruct cfg as [k0 d]. unfold handleSort. simpl.
  destruct (decide (k0 = k)) as [->|Hne]; simpl.
  - rewrite !decide_True by reflexivity. simpl.
    split; [reflexivity|]. split; [|split; [congruence|]].
    + intros _. split; [destruct d; discriminate|].
      destruct d; reflexivity.
    + destruct d; reflexivity.
  - rewrite !decide_True by reflexivity. simpl.
    split; [reflexivity|]. split; [congruence|]. split; reflexivity.
Qed.

Section Comparator.

Variable getTime : GetTime.

Lemma orderable_numbers item :
  orderable getTime item ->
  exists l d,
    likesOf item = Num l /\ dateOf getTime item = Num d /\ -1 <= l
    /\ (likeCount item = None <-> l = -1).
Proof.
  intros [Hv [d Hd]]. unfold likesOf.
  destruct (likeCount item) as [[|l]|]; simpl in Hv; [destruct Hv| |].
  - exists l, d. repeat split; try assumption; try lia; try discriminate.
  - exists (-1), d. repeat split; try assumption; lia.
Qed.

Lemma compareItems_numbers cfg a b la da lb db :
  likesOf a = Num la -> dateOf getTime a = Num da ->
  likesOf b = Num lb -> dateOf getTime b = Num db ->
  compareItems getTime cfg a b
  = Num match key cfg with
        | latest => (da - db) * match direction cfg with asc => 1 | desc => -1 end
        | likes =>
            if la =? lb then db - da
            else (la - lb) * match direction cfg with asc => 1 | desc => -1 end
        end.
Proof.
  intros Hla Hda Hlb Hdb. unfold compareItems.
  rewrite Hla, Hda, Hlb, Hdb. simpl.
  destruct (key cfg), (direction cfg), (la =? lb); reflexivity.
Qed.

End Comparator.

(** X20: the comparator of [sortedItems]. On items whose like count is
    absent or a count and whose date is a date it is a consistent order: it
    answers a number, 0 for an item against itself, numbers of opposite sign
    for the two orders of a pair, and it is transitive; by likes, an item
    without a like count comes after every item with one when descending and
    before it when ascending. An item whose like count is [NaN] has no
    place: by likes, the comparator answers [NaN] for it against every
    item. *)
Theorem compareItems_orders (getTime : GetTime) (cfg : SortConfig)
    (a b c : EnrichedItem) :
  orderable getTime a -> orderable getTime b -> orderable getTime c ->
  (exists ab ba bc ac,
     compareItems getTime cfg a b = Num ab
     /\ compareItems getTime cfg b a = Num ba
     /\ compareItems getTime cfg b c = Num bc
     /\ compareItems getTime cfg a c = Num ac
     /\ compareItems getTime cfg a a = Num 0
     /\ (ab < 0 <-> 0 < ba) /\ (ab = 0 <-> ba = 0)
     /\ (ab <= 0 -> bc <= 0 -> ac <= 0)
     /\ (key cfg = likes -> likeCount a <> None -> likeCount b = None ->
         (direction cfg = desc -> ab < 0)
         /\ (direction cfg = asc -> 0 < ab)))
  /\ (forall x y,
        key cfg = likes -> likeCount x = Some NaN ->
        compareItems getTime cfg x y = NaN
        /\ compareItems getTime cfg y x = NaN).
Proof.
  intros Ha Hb Hc. split.
  - destruct (orderable_numbers getTime a Ha) as (la & da & Hla & Hda & Ha1 & Ha2).
    destruct (orderable_numbers getTime b Hb) as (lb & db & Hlb & Hdb & Hb1 & Hb2).
    destruct (orderable_numbers getTime c Hc) as (lc & dc & Hlc & Hdc & Hc1 & Hc2).
    rewrite (compareItems_numbers getTime cfg a b la da lb db) by assumption.
    rewrite (compareItems_numbers getTime cfg b a lb db la da) by assumption.
    rewrite (compareItems_numbers getTime cfg b c lb db lc dc) by assumption.
    rewrite (compareItems_numbers getTime cfg a c la da lc dc) by assumption.
    rewrite (compareItems_numbers getTime cfg a a la da la da) by assumption.
    do 4 eexists. repeat (split; [reflexivity|]).
    rewrite Ha2, Hb2.
    destruct (key cfg), (direction cfg);
      destruct (Z.eqb_spec la lb), (Z.eqb_spec lb la), (Z.eqb_spec lb lc),
        (Z.eqb_spec la lc), (Z.eqb_spec la la);
      try congruence; try lia;
      (split; [f_equal; lia|]); repeat split; intros; try congruence;
        try lia.
  - intros x y Hk Hx. unfold compareItems, likesOf. rewrite Hk, Hx. simpl.
    destruct (likeCount y) as [[|l]|]; simpl; split; reflexivity.
Qed.

Lemma selection_and_select_all_witness :
  let items := List.map unenriched [item_of "u1" "A"; item_of "u2" "A"] in
  isAllSelected items (handleSelectAll true items) = true
  /\ handleSelectRow (str "u1") (handleSelectRow (str "u1") ∅) = ∅.
Proof.
  intros items.
  destruct (selection_and_select_all items ∅ (str "u1") true)
    as (H1 & _ & _ & _ & _ & H2).
  - apply (bool_decide_unpack _). vm_compute. exact I.
  - apply empty_subseteq.
  - split; [exact H2|exact H1].
Defined.

Lemma compareItems_orders_witness :
  let a := {| found := item_of "u1" "A"; publishedAt := None;
              likeCount := Some (Num 3); viewCount := None |} in
  let b := unenriched (item_of "u2" "A") in
  exists ab,
    compareItems sample_getTime {| key := likes; direction := desc |} a b
    = Num ab /\ ab < 0.
Proof.
  intros a b.
  destruct (compareItems_orders sample_getTime
              {| key := likes; direction := desc |} a b b)
    as [(ab & ba & bc & ac & H1 & _ & _ & _ & _ & _ & _ & _ & H2) _].
  - split; [simpl; lia|exists 0; reflexivity].
  - split; [exact I|exists 0; reflexivity].
  - split; [exact I|exists 0; reflexivity].
  - exists ab. split; [exact H1|].
    apply H2; [reflexivity|discriminate|reflexivity|reflexivity].
Defined.

(** ** The engine: the order of settling and the order of the output *)

Section SettleOrder.

Lemma pool_urls_are_arrivals opts settled :
  settled ≡ₚ seq 0 (length (providers opts)) ->
  aborted (signal opts) (t_enriched opts) = false ->
  forall u,
    In u (List.map url (discovered (discover opts settled)))
    <-> exists i x, In x (contribution opts i) /\ url x = u.
Proof.
  intros Hperm Hsig u.
  destruct (discover_pool_of opts settled Hperm Hsig)
    as ((Hseen & _) & Hall & _ & Hsub).
  split.
  - intros Hu. apply in_map_iff in Hu as (y & <- & Hy).
    apply list_elem_of_In in Hy.
    apply (elem_of_sublist _ _ _ Hy) in Hsub.
    apply list_elem_of_In in Hsub. unfold arrivals in Hsub.
    apply in_concat in Hsub as (l & Hl & Hin).
    apply in_map_iff in Hl as (i & <- & _). eauto.
  - intros (i & x & Hx & <-). apply Hseen, Hall.
    apply (contribution_arrives opts settled i x Hperm Hx).
Qed.

End SettleOrder.

(** X21: the order in which the searches settle decides which of two items
    with the same URL is kept, and nothing else about the pool: in two runs
    of the same options that the signal does not cut, the pool holds the
    same URLs and the same number of items. *)
Theorem pool_urls_whatever_the_order (opts : RunOptions)
    (settled settled' : list nat) :
  settled ≡ₚ seq 0 (length (providers opts)) ->
  settled' ≡ₚ seq 0 (length (providers opts)) ->
  aborted (signal opts) (t_enriched opts) = false ->
  (forall u,
     In u (List.map url (discovered (discover opts settled)))
     <-> In u (List.map url (discovered (discover opts settled'))))
  /\ length (discovered (discover opts settled))
     = length (discovered (discover opts settled')).
Proof.
  intros Hp Hp' Hsig.
  assert (Hsame : forall u,
            In u (List.map url (discovered (discover opts settled)))
            <-> In u (List.map url (discovered (discover opts settled')))).
  { intros u. rewrite (pool_urls_are_arrivals opts settled Hp Hsig).
    rewrite (pool_urls_are_arrivals opts settled' Hp' Hsig). reflexivity. }
  split; [exact Hsame|].
  destruct (discover_ok opts settled) as [_ Hnd].
  destruct (discover_ok opts settled') as [_ Hnd'].
  rewrite <- (length_map url (discovered (discover opts settled))).
  rewrite <- (length_map url (discovered (discover opts settled'))).
  apply Permutation_length, NoDup_Permutation; [exact Hnd|exact Hnd'|].
  intros u. rewrite !list_elem_of_In. apply Hsame.
Qed.

Lemma pool_urls_whatever_the_order_witness :
  length (discovered (discover two_providers [0; 1]%nat))
  = length (discovered (discover two_providers [1; 0]%nat)).
Proof.
  apply (pool_urls_whatever_the_order two_providers [0; 1]%nat [1; 0]%nat).
  - reflexivity.
  - vm_compute. apply perm_swap.
  - reflexivity.
Defined.

Section OutputOrder.

Variable ps : list Provider.

Lemma group_push_key_list k p x (g : Groups) :
  List.map fst (group_push k p x g)
  = if decide (k ∈ List.map fst g) then List.map fst g
    else List.map fst g ++ [k].
Proof.
  induction g as [|[k0 [p0 items]] g IH]; cbn [group_push List.map fst].
  - destruct (decide (k ∈ [])) as [H|_]; [|reflexivity].
    apply elem_of_nil in H. destruct H.
  - destruct (decide (k = k0)) as [->|Hne]; cbn [List.map fst].
    + destruct (decide (k0 ∈ k0 :: List.map fst g)) as [_|H]; [reflexivity|].
      exfalso. apply H, elem_of_cons. left. reflexivity.
    + rewrite IH.
      destruct (decide (k ∈ List.map fst g)) as [Hin|Hnin],
        (decide (k ∈ k0 :: List.map fst g)) as [Hin'|Hnin'];
        try reflexivity; exfalso.
      * apply Hnin', elem_of_cons. right. exact Hin.
      * apply elem_of_cons in Hin' as [E|H]; [congruence|contradiction].
Qed.

Lemma itemsToEnrich_key_list pool :
  List.map fst (itemsToEnrichByProvider ps pool)
  = keys_in_order (omap (key_of ps) pool).
Proof.
  unfold keys_in_order.
  induction pool as [|x pool IH] using rev_ind; [reflexivity|].
  rewrite itemsToEnrich_snoc, omap_app, fold_left_app, <- IH.
  assert (Hx : omap (key_of ps) [x]
               = match key_of ps x with Some k => [k] | None => [] end).
  { simpl. destruct (key_of ps x); reflexivity. }
  rewrite Hx.
  destruct (find_provider ps (source x)) as [[k p]|] eqn:Hfind.
  - rewrite (key_of_find ps x k p Hfind). cbn [fold_left].
    apply group_push_key_list.
  - replace (key_of ps x) with (@None nat)
      by (unfold key_of; rewrite Hfind; reflexivity).
    reflexivity.
Qed.

Lemma groups_items pool (g : Groups) :
  Forall (entry_of ps pool) g ->
  List.map (fun e => snd (snd e)) g
  = List.map
      (fun k =>
         List.filter (fun f => bool_decide (key_of ps f = Some k)) pool)
      (List.map fst g).
Proof.
  induction 1 as [|[k [p items]] g (_ & _ & Hitems) _ IH]; simpl;
    [reflexivity|].
  rewrite IH, Hitems. reflexivity.
Qed.

Lemma enrichedChunks_found pool (g : Groups) :
  Forall keeps_items ps -> Forall (entry_of ps pool) g ->
  List.map found (concat (enrichedChunks g))
  = concat (List.map (fun e => snd (snd e)) g).
Proof.
  intros Hps. induction 1 as [|[k [p items]] g (Hp & _ & _) _ IH]; simpl;
    [reflexivity|].
  rewrite List.map_app, IH. f_equal.
  destruct (chunk_cases k p items) as [(out & E & ->)|[_ ->]].
  - rewrite List.Forall_forall in Hps. apply (Hps p); [|exact E].
    apply list_elem_of_In. eapply list_elem_of_lookup_2, Hp.
  - apply map_found. reflexivity.
Qed.

End OutputOrder.

(** X22: the order of what comes out of enrichment. With providers whose
    enrichment keeps the items, the items after enrichment are those of the
    pool that have a provider, unchanged and regrouped: provider by
    provider, the providers in the order in which their first item stands in
    the pool, and the items of one provider in the order of the pool. *)
Theorem enrichment_regroups_the_pool (opts : RunOptions)
    (settled : list nat) :
  Forall keeps_items (providers opts) ->
  let pool := discovered (discover opts settled) in
  List.map found (enrichedFlat opts settled)
  = concat
      (List.map
         (fun k =>
            List.filter
              (fun f => bool_decide (key_of (providers opts) f = Some k))
              pool)
         (keys_in_order (omap (key_of (providers opts)) pool))).
Proof.
  intros Hps pool. unfold enrichedFlat. fold pool.
  destruct (itemsToEnrich_groups (providers opts) pool) as (_ & Hall & _).
  rewrite (enrichedChunks_found (providers opts) pool _ Hps Hall).
  rewrite (groups_items (providers opts) pool _ Hall).
  rewrite itemsToEnrich_key_list. reflexivity.
Qed.

Lemma plain_keeps_items name found_ :
  keeps_items (provider_of name found_ plain).
Proof. intros items out [= <-]. apply map_found. reflexivity. Qed.

Lemma enrichment_regroups_the_pool_witness :
  List.map found (enrichedFlat two_providers [1; 0]%nat)
  = [item_of "u2" "B"; item_of "u3" "B"; item_of "u1" "A"].
Proof.
  rewrite (enrichment_regroups_the_pool two_providers [1; 0]%nat).
  - vm_compute. reflexivity.
  - repeat constructor; apply plain_keeps_items.
Defined.
